(** * log2curl: extraction and normalisation pipeline

    A shallow embedding of [src/extractors.ts] and [src/normalizer.ts].

    JavaScript strings are sequences of UTF-16 code units; a code unit is
    modelled as an [N] and a string as a list of code units.  Regular
    expressions are kept as syntax trees and run by a backtracking matcher
    that follows the ECMAScript matching rules (leftmost match, greedy
    quantifiers, alternatives tried left to right). *)

From Stdlib Require Import List NArith ZArith Bool Ascii Arith Lia Sorted.
From Stdlib Require String.
Import ListNotations.
Import String.StringSyntax.
Local Open Scope string_scope.
Local Open Scope list_scope.

Set Warnings "-register-all".

(* ================================================================== *)
(** ** JavaScript strings *)
(* ================================================================== *)

Module Js.

Definition char := N.
Bind Scope N_scope with char.
Definition str := list char.

Definition code (a : ascii) : char := N_of_ascii a.

(** Code units that have no convenient literal. *)
Definition dq : char := 34%N.        (* double quote *)
Definition nl : char := 10%N.        (* line feed *)
Definition bsl : char := 92%N.       (* backslash *)

(** [lit "..."] is the string written between the quotes, where a backtick
    stands for a double quote and a [|] for a line feed. *)
Definition lit (s : String.string) : str :=
  map (fun a => let n := code a in
                if (n =? 96)%N then dq else if (n =? 124)%N then nl else n)
      (String.list_ascii_of_string s).

(** The string with exactly the characters written (no substitution). *)
Definition raw (s : String.string) : str := map code (String.list_ascii_of_string s).

Definition char_eqb (a b : char) : bool := (a =? b)%N.

Fixpoint str_eqb (a b : str) : bool :=
  match a, b with
  | [], [] => true
  | x :: a', y :: b' => char_eqb x y && str_eqb a' b'
  | _, _ => false
  end.

Definition between (lo hi c : char) : bool := ((lo <=? c) && (c <=? hi))%N.

Definition is_digit (c : char) : bool := between 48 57 c.
Definition is_upper (c : char) : bool := between 65 90 c.
Definition is_lower (c : char) : bool := between 97 122 c.

(** [\w] : ASCII letters, digits and the underscore. *)
Definition is_word (c : char) : bool :=
  is_digit c || is_upper c || is_lower c || char_eqb c 95.

(** [\s], which is also what [trim] removes: WhiteSpace and LineTerminator. *)
Definition is_space (c : char) : bool :=
  between 9 13 c || char_eqb c 32 || char_eqb c 160 || char_eqb c 5760
  || between 8192 8202 c || char_eqb c 8232 || char_eqb c 8233
  || char_eqb c 8239 || char_eqb c 8287 || char_eqb c 12288
  || char_eqb c 65279.

Definition is_line_terminator (c : char) : bool :=
  char_eqb c 10 || char_eqb c 13 || char_eqb c 8232 || char_eqb c 8233.

(** [toLowerCase] / [toUpperCase] on the ASCII letters.  Of the code units
    above 127 only U+212A (Kelvin sign) has an ASCII lower case, [k]; it is
    mapped too.  Every other code unit above 127 stays above 127 in
    JavaScript as well, which is all that a comparison with an ASCII name
    can observe. *)
Definition lower_char (c : char) : char :=
  if is_upper c then (c + 32)%N else if char_eqb c 8490 then 107%N else c.

Definition upper_char (c : char) : char :=
  if is_lower c then (c - 32)%N else c.

Definition toLowerCase (s : str) : str := map lower_char s.
Definition toUpperCase (s : str) : str := map upper_char s.

(** [s.substring(a, b)] for [a <= b]. *)
Definition substring (s : str) (a b : nat) : str := firstn (b - a) (skipn a s).

Fixpoint trimStart (s : str) : str :=
  match s with
  | c :: s' => if is_space c then trimStart s' else s
  | [] => []
  end.

Definition trimEnd (s : str) : str := rev (trimStart (rev s)).
Definition trim (s : str) : str := trimEnd (trimStart s).

(** [s.split(sep)] for a one-character separator: always at least one piece. *)
Fixpoint split (sep : char) (s : str) : list str :=
  match s with
  | [] => [[]]
  | c :: s' =>
      if char_eqb c sep then [] :: split sep s'
      else match split sep s' with
           | p :: ps => (c :: p) :: ps
           | [] => [[c]]
           end
  end.

(** [pieces.join(sep)]. *)
Fixpoint join (sep : str) (l : list str) : str :=
  match l with
  | [] => []
  | [p] => p
  | p :: l' => p ++ sep ++ join sep l'
  end.

Fixpoint startsWith (p s : str) : bool :=
  match p, s with
  | [], _ => true
  | x :: p', y :: s' => char_eqb x y && startsWith p' s'
  | _ :: _, [] => false
  end.

End Js.

Import Js.

(* ================================================================== *)
(** ** Regular expressions *)
(* ================================================================== *)

Module Regex.

(** Members of a character class. *)
Inductive citem :=
| CLit (c : char)                 (* a single code unit *)
| CRange (lo hi : char)           (* lo-hi *)
| CDigit                          (* \d *)
| CWord                           (* \w *)
| CSpace.                         (* \s *)

Inductive regex :=
| Eps
| Chars (neg : bool) (items : list citem)   (* [..] or [^..] *)
| Seq (r1 r2 : regex)
| Alt (r1 r2 : regex)                       (* r1|r2 *)
| Star (r : regex)                          (* greedy r* *)
| Group (i : nat) (r : regex)               (* i-th capturing group *)
| Bol                                       (* ^ *)
| Eol                                       (* $ *)
| WordB                                     (* \b *)
| Ahead (r : regex).                        (* (?=r) *)

Record flags := { ignoreCase : bool; multiline : bool }.

Definition no_flags := {| ignoreCase := false; multiline := false |}.
Definition flag_i := {| ignoreCase := true; multiline := false |}.
Definition flag_im := {| ignoreCase := true; multiline := true |}.

(** *** Notation for writing the patterns of the source *)

Definition L (a : ascii) : regex := Chars false [CLit (code a)].
Definition Lc (c : char) : regex := Chars false [CLit c].
Definition ch (a : ascii) : citem := CLit (code a).
Definition rng (a b : ascii) : citem := CRange (code a) (code b).
Definition set (items : list citem) : regex := Chars false items.
Definition nset (items : list citem) : regex := Chars true items.
Definition dg : regex := Chars false [CDigit].          (* \d *)
Definition wd : regex := Chars false [CWord].           (* \w *)
Definition sp : regex := Chars false [CSpace].          (* \s *)
Definition nsp : regex := Chars true [CSpace].          (* \S *)
Definition Opt (r : regex) : regex := Alt r Eps.        (* r? *)
Definition Plus (r : regex) : regex := Seq r (Star r).  (* r+ *)

Fixpoint Rep (n : nat) (r : regex) : regex :=           (* r{n} *)
  match n with
  | O => Eps
  | S O => r
  | S n' => Seq r (Rep n' r)
  end.

Definition AtLeast (n : nat) (r : regex) : regex :=     (* r{n,} *)
  match n with
  | O => Star r
  | _ => Seq (Rep n r) (Star r)
  end.

Fixpoint chars_re (l : list ascii) : regex :=
  match l with
  | [] => Eps
  | [a] => L a
  | a :: l' => Seq (L a) (chars_re l')
  end.

(** A literal run of characters. *)
Definition Str (s : String.string) : regex := chars_re (String.list_ascii_of_string s).

Fixpoint alts (l : list regex) : regex :=               (* a|b|c *)
  match l with
  | [] => Eps
  | [r] => r
  | r :: l' => Alt r (alts l')
  end.

Declare Scope regex_scope.
Delimit Scope regex_scope with re.
Bind Scope regex_scope with regex.
Notation "a ;; b" := (Seq a b) (at level 61, right associativity) : regex_scope.

(** *** Matching *)

(** Case folding of the [i] flag (without [u]): a code unit above 127 is
    never folded onto an ASCII one, and every class member and literal that
    the patterns of this program use under [i] is ASCII (or [\s], which has
    no case), so folding the ASCII letters is all that is observable. *)
Definition swapcase (c : char) : char :=
  if is_upper c then (c + 32)%N else if is_lower c then (c - 32)%N else c.

Definition item_mem (it : citem) (c : char) : bool :=
  match it with
  | CLit x => char_eqb x c
  | CRange lo hi => between lo hi c
  | CDigit => is_digit c
  | CWord => is_word c
  | CSpace => is_space c
  end.

Definition class_mem (fl : flags) (items : list citem) (c : char) : bool :=
  existsb (fun it => item_mem it c) items
  || (ignoreCase fl && existsb (fun it => item_mem it (swapcase c)) items).

(** The matcher's state: the code unit before the current position (for
    [^] and [\b]), the input still to read, the current index, and the
    captures made so far (group number, start index, end index). *)
Record cursor := {
  prev : option char;
  rest : str;
  pos : nat;
  caps : list (nat * (nat * nat))
}.

Definition step (c : char) (tl : str) (st : cursor) : cursor :=
  {| prev := Some c; rest := tl; pos := S (pos st); caps := caps st |}.

Definition add_cap (i b : nat) (st : cursor) : cursor :=
  {| prev := prev st; rest := rest st; pos := pos st;
     caps := (i, (b, pos st)) :: caps st |}.

Definition with_caps (cs : list (nat * (nat * nat))) (st : cursor) : cursor :=
  {| prev := prev st; rest := rest st; pos := pos st; caps := cs |}.

Definition word_before (st : cursor) : bool :=
  match prev st with Some c => is_word c | None => false end.

Definition word_after (st : cursor) : bool :=
  match rest st with c :: _ => is_word c | [] => false end.

Definition at_bol (fl : flags) (st : cursor) : bool :=
  match prev st with
  | None => true
  | Some c => multiline fl && is_line_terminator c
  end.

Definition at_eol (fl : flags) (st : cursor) : bool :=
  match rest st with
  | [] => true
  | c :: _ => multiline fl && is_line_terminator c
  end.

(** The greedy loop of [r*]: [mr] matches one iteration.  An iteration that
    consumes nothing is rejected, so at most [length (rest st)] iterations
    can succeed, which is the fuel the matcher passes. *)
Fixpoint star_loop (mr : cursor -> (cursor -> option cursor) -> option cursor)
                   (k : cursor -> option cursor) (n : nat) (st : cursor)
  : option cursor :=
  match n with
  | O => k st
  | S n' =>
      match mr st (fun st' => if pos st' =? pos st then None
                              else star_loop mr k n' st') with
      | Some x => Some x
      | None => k st
      end
  end.

(** Backtracking matcher in continuation-passing style: [m fl r st k] tries
    the ways [r] can match at [st], in priority order, and returns the
    result of the first one that the continuation [k] accepts. *)
Fixpoint m (fl : flags) (r : regex) (st : cursor)
           (k : cursor -> option cursor) {struct r} : option cursor :=
  match r with
  | Eps => k st
  | Chars neg items =>
      match rest st with
      | c :: tl => if xorb neg (class_mem fl items c) then k (step c tl st) else None
      | [] => None
      end
  | Seq r1 r2 => m fl r1 st (fun st1 => m fl r2 st1 k)
  | Alt r1 r2 =>
      match m fl r1 st k with
      | Some x => Some x
      | None => m fl r2 st k
      end
  | Star r1 => star_loop (m fl r1) k (length (rest st)) st
  | Group i r1 => m fl r1 st (fun st' => k (add_cap i (pos st) st'))
  | Bol => if at_bol fl st then k st else None
  | Eol => if at_eol fl st then k st else None
  | WordB => if xorb (word_before st) (word_after st) then k st else None
  | Ahead r1 =>
      match m fl r1 st (fun st' => Some st') with
      | Some st' => k (with_caps (caps st') st)
      | None => None
      end
  end.

(** A match: start index, end index, captures. *)
Record rmatch := { m_start : nat; m_end : nat; m_caps : list (nat * (nat * nat)) }.

(** Try the pattern at the cursor, then at each later position. *)
Fixpoint search (fl : flags) (r : regex) (pv : option char) (s : str) (p : nat)
  : option rmatch :=
  match m fl r {| prev := pv; rest := s; pos := p; caps := [] |} (fun st => Some st) with
  | Some st' => Some {| m_start := p; m_end := pos st'; m_caps := caps st' |}
  | None =>
      match s with
      | [] => None
      | c :: s' => search fl r (Some c) s' (S p)
      end
  end.

Definition char_before (s : str) (i : nat) : option char :=
  match i with O => None | S j => nth_error s j end.

(** [re.exec(s)] with [lastIndex = from]. *)
Definition exec_from (fl : flags) (r : regex) (s : str) (from : nat) : option rmatch :=
  if length s <? from then None
  else search fl r (char_before s from) (skipn from s) from.

Definition exec (fl : flags) (r : regex) (s : str) : option rmatch :=
  exec_from fl r s 0.

(** [re.test(s)]. *)
Definition test (fl : flags) (r : regex) (s : str) : bool :=
  match exec fl r s with Some _ => true | None => false end.

Fixpoint cap_lookup (i : nat) (cs : list (nat * (nat * nat))) : option (nat * nat) :=
  match cs with
  | [] => None
  | (j, be) :: cs' => if i =? j then Some be else cap_lookup i cs'
  end.

(** [m[0]] and [m[i]] of a match on [s]. *)
Definition matched (s : str) (x : rmatch) : str := substring s (m_start x) (m_end x).

Definition group (s : str) (i : nat) (x : rmatch) : option str :=
  match cap_lookup i (m_caps x) with
  | Some (b, e) => Some (substring s b e)
  | None => None
  end.

(** [m[i]] where the group took part in the match, as every capturing group
    of this program does whenever its pattern matches (none is optional or
    inside an alternative). *)
Definition grp (s : str) (i : nat) (x : rmatch) : str :=
  match group s i x with Some g => g | None => [] end.

(** [s.replace(re, repl)]; [g] is the pattern's global flag.  With [g] the
    search resumes after each match (one further when the match is empty). *)
Fixpoint replace_loop (fl : flags) (r : regex) (g : bool) (repl : str)
                      (fuel : nat) (s : str) (from next : nat) (acc : str) : str :=
  match fuel with
  | O => acc ++ skipn next s
  | S fuel' =>
      match exec_from fl r s from with
      | None => acc ++ skipn next s
      | Some x =>
          let acc' := acc ++ substring s next (m_start x) ++ repl in
          if g then
            replace_loop fl r g repl fuel' s
              (if m_end x =? m_start x then S (m_end x) else m_end x) (m_end x) acc'
          else acc' ++ skipn (m_end x) s
      end
  end.

Definition replace (fl : flags) (r : regex) (g : bool) (repl : str) (s : str) : str :=
  replace_loop fl r g repl (S (S (length s))) s 0 0 [].

End Regex.

Import Regex.
Local Open Scope regex_scope.

(* ================================================================== *)
(** ** extractors.ts: log-prefix stripping *)
(* ================================================================== *)

(** [/^flutter:\s*/i] *)
Definition re_flutter : regex := Bol ;; Str "flutter:" ;; Star sp.

(** [/^[IDWEV]\/[\w.]+\s*\(\s*\d+\):\s*/g] *)
Definition re_logcat : regex :=
  Bol ;; set [ch "I"; ch "D"; ch "W"; ch "E"; ch "V"] ;; L "/"
  ;; Plus (set [CWord; ch "."]) ;; Star sp ;; L "(" ;; Star sp ;; Plus dg
  ;; L ")" ;; L ":" ;; Star sp.

(** [/^\[\d{4}[^\]]*\]\s*[\w.]*:\s*/g] *)
Definition re_laravel : regex :=
  Bol ;; L "[" ;; Rep 4 dg ;; Star (nset [ch "]"]) ;; L "]" ;; Star sp
  ;; Star (set [CWord; ch "."]) ;; L ":" ;; Star sp.

(** [/^\d{4}-\d{2}-\d{2}[T ]\d{2}:\d{2}:\d{2}[\d.]*Z?\s*/g] *)
Definition re_iso : regex :=
  Bol ;; Rep 4 dg ;; L "-" ;; Rep 2 dg ;; L "-" ;; Rep 2 dg
  ;; set [ch "T"; ch " "] ;; Rep 2 dg ;; L ":" ;; Rep 2 dg ;; L ":" ;; Rep 2 dg
  ;; Star (set [CDigit; ch "."]) ;; Opt (L "Z") ;; Star sp.

(** [/^\[Nest\]\s*\d+\s*-\s*[^[]+(?:\[[\w]+\]\s* )?/g] *)
Definition re_nest : regex :=
  Bol ;; Str "[Nest]" ;; Star sp ;; Plus dg ;; Star sp ;; L "-" ;; Star sp
  ;; Plus (nset [ch "["]) ;; Opt (L "[" ;; Plus (set [CWord]) ;; L "]" ;; Star sp).

(** [/^>\s*/g] *)
Definition re_prompt : regex := Bol ;; L ">" ;; Star sp.

(** The chain of [replace] calls applied to one line. *)
Definition stripLine (line : str) : str :=
  replace no_flags re_prompt true []
    (replace no_flags re_nest true []
      (replace no_flags re_iso true []
        (replace no_flags re_laravel true []
          (replace no_flags re_logcat true []
            (replace flag_i re_flutter false [] line))))).

Definition stripLogPrefixes (text : str) : str :=
  join [nl] (map stripLine (split nl text)).

(* ================================================================== *)
(** ** extractors.ts: URL *)
(* ================================================================== *)

(** The patterns are quoted from the source with a backtick written for
    each double quote.

    [/[,;'`)\]}>]+$/] : trailing punctuation. *)
Definition re_trail : regex :=
  Plus (set [ch ","; ch ";"; ch "'"; CLit dq; ch ")"; ch "]"; ch "}"; ch ">"]) ;; Eol.

(** [/[,;'`)\]}>\/]+$/] : trailing punctuation and slashes. *)
Definition re_trail_slash : regex :=
  Plus (set [ch ","; ch ";"; ch "'"; CLit dq; ch ")"; ch "]"; ch "}"; ch ">"; ch "/"])
  ;; Eol.

(** [https?:\/\/] *)
Definition re_http : regex := Str "http" ;; Opt (L "s") ;; Str "://".

(** [/\b(?:FULL\s+URL|REQUEST\s+URL|ENDPOINT)\s*:\s*(https?:\/\/\S+)/i] *)
Definition re_labeled : regex :=
  WordB
  ;; alts [Str "FULL" ;; Plus sp ;; Str "URL";
           Str "REQUEST" ;; Plus sp ;; Str "URL";
           Str "ENDPOINT"]
  ;; Star sp ;; L ":" ;; Star sp ;; Group 1 (re_http ;; Plus nsp).

(** [/\bBASE\s+URL\s*:\s*(https?:\/\/\S+)/i] *)
Definition re_base : regex :=
  WordB ;; Str "BASE" ;; Plus sp ;; Str "URL" ;; Star sp ;; L ":" ;; Star sp
  ;; Group 1 (re_http ;; Plus nsp).

(** [/\bPATH\s*:\s*(\/\S* )/i] *)
Definition re_path_label : regex :=
  WordB ;; Str "PATH" ;; Star sp ;; L ":" ;; Star sp ;; Group 1 (L "/" ;; Star nsp).

(** [/https?:\/\/[a-zA-Z0-9\-._~:/?#\[\]@!$&'()*+,;=%]+/] *)
Definition re_full : regex :=
  re_http
  ;; Plus (set [rng "a" "z"; rng "A" "Z"; rng "0" "9"; ch "-"; ch "."; ch "_";
                ch "~"; ch ":"; ch "/"; ch "?"; ch "#"; ch "["; ch "]"; ch "@";
                ch "!"; ch "$"; ch "&"; ch "'"; ch "("; ch ")"; ch "*"; ch "+";
                ch ","; ch ";"; ch "="; ch "%"]).

(** [/\b(?:GET|POST|PUT|PATCH|DELETE|HEAD|OPTIONS)\s+(\/\S+)\s+HTTP/i] *)
Definition re_request_line : regex :=
  WordB
  ;; alts [Str "GET"; Str "POST"; Str "PUT"; Str "PATCH"; Str "DELETE";
           Str "HEAD"; Str "OPTIONS"]
  ;; Plus sp ;; Group 1 (L "/" ;; Plus nsp) ;; Plus sp ;; Str "HTTP".

(** [/\b(?:host|server_name|server)\s*[:=]\s*`?([a-zA-Z0-9\-._]+(?::\d+)?)`?/i] *)
Definition re_host : regex :=
  WordB
  ;; alts [Str "host"; Str "server_name"; Str "server"]
  ;; Star sp ;; set [ch ":"; ch "="] ;; Star sp ;; Opt (Lc dq)
  ;; Group 1 (Plus (set [rng "a" "z"; rng "A" "Z"; rng "0" "9"; ch "-"; ch "."; ch "_"])
              ;; Opt (L ":" ;; Plus dg))
  ;; Opt (Lc dq).

(** [/:\d*80$/] *)
Definition re_port80 : regex := L ":" ;; Star dg ;; Str "80" ;; Eol.

Definition extractUrl (text : str) : option str :=
  (* 0. labeled URL *)
  match exec flag_i re_labeled text with
  | Some labeledMatch =>
      Some (replace no_flags re_trail false [] (grp text 1 labeledMatch))
  | None =>
  (* 1. BASE URL + optional PATH *)
  match exec flag_i re_base text with
  | Some baseMatch =>
      let base := replace no_flags re_trail_slash false [] (grp text 1 baseMatch) in
      let path := match exec flag_i re_path_label text with
                  | Some pathMatch => replace no_flags re_trail false [] (grp text 1 pathMatch)
                  | None => []
                  end in
      Some (base ++ path)
  | None =>
  (* 2. first raw full URL *)
  match exec no_flags re_full text with
  | Some fullMatch => Some (replace no_flags re_trail false [] (matched text fullMatch))
  | None =>
  (* 3. reconstruct from request line + host *)
  let pathMatch := exec flag_i re_request_line text in
  let hostMatch := exec flag_i re_host text in
  match pathMatch, hostMatch with
  | Some pm, Some hm =>
      let path := grp text 1 pm in
      let host := grp text 1 hm in
      let scheme := if test no_flags re_port80 host then raw "http" else raw "https" in
      Some (scheme ++ raw "://" ++ host ++ path)
  | None, Some hm => Some (raw "https://" ++ grp text 1 hm)
  | _, None => None
  end
  end end end.

(* ================================================================== *)
(** ** extractors.ts: balanced-brace extraction *)
(* ================================================================== *)

Record TextBlock := {
  content : str;
  startIndex : nat;
  endIndex : nat;
  precedingText : str
}.

(** The local variables of the scanning loop.  [blockStart] is [-1] when no
    block is open; [stringChar] is the empty string until a quote is seen. *)
Record scan_state := {
  blocks : list TextBlock;
  depth : Z;
  blockStart : Z;
  inString : bool;
  stringChar : str
}.

Definition scan_init : scan_state :=
  {| blocks := []; depth := 0; blockStart := (-1); inString := false; stringChar := [] |}.

Definition is_quote (c : char) : bool := char_eqb c dq || char_eqb c (code "'").

Definition mk_block (text : str) (bs : Z) (i : nat) : TextBlock :=
  let lookback := Z.max 0 (bs - 300) in
  {| content := substring text (Z.to_nat bs) (i + 1);
     startIndex := Z.to_nat bs;
     endIndex := i;
     precedingText := substring text (Z.to_nat lookback) (Z.to_nat bs) |}.

(** The loop body for a character read outside a string. *)
Definition scan_outside (text : str) (i : nat) (ch : char) (s : scan_state) : scan_state :=
  if is_quote ch then
    {| blocks := blocks s; depth := depth s; blockStart := blockStart s;
       inString := true; stringChar := [ch] |}
  else if char_eqb ch (code "{") then
    {| blocks := blocks s; depth := depth s + 1;
       blockStart := if (depth s =? 0)%Z then Z.of_nat i else blockStart s;
       inString := inString s; stringChar := stringChar s |}
  else if char_eqb ch (code "}") then
    let d := (depth s - 1)%Z in
    let closes := (d =? 0)%Z && negb (blockStart s =? -1)%Z in
    {| blocks := if closes then blocks s ++ [mk_block text (blockStart s) i] else blocks s;
       depth := if (d <? 0)%Z then 0%Z else d;
       blockStart := if closes then (-1)%Z else blockStart s;
       inString := inString s; stringChar := stringChar s |}
  else s.

Definition close_string (s : scan_state) : scan_state :=
  {| blocks := blocks s; depth := depth s; blockStart := blockStart s;
     inString := false; stringChar := stringChar s |}.

(** The [for] loop from index [i], where [rest] is the text from [i] on.
    Inside a string a backslash advances [i] once more, past the next
    character. *)
Fixpoint scan (text : str) (rest : str) (i : nat) (s : scan_state) : scan_state :=
  match rest with
  | [] => s
  | ch :: rest' =>
      if inString s then
        if char_eqb ch bsl then
          match rest' with
          | [] => s
          | _ :: rest'' => scan text rest'' (i + 2) s
          end
        else if str_eqb [ch] (stringChar s) then scan text rest' (i + 1) (close_string s)
        else scan text rest' (i + 1) s
      else scan text rest' (i + 1) (scan_outside text i ch s)
  end.

Definition extractBalancedBlocks (text : str) : list TextBlock :=
  blocks (scan text text 0 scan_init).

(* ================================================================== *)
(** ** extractors.ts: scoring of candidate blocks *)
(* ================================================================== *)

Record ScoredBlock := {
  block : TextBlock;
  score : Z;
  reason : str
}.

(** [\s*[:=]\s*$] : the common tail of the marker patterns. *)
Definition re_marker_tail : regex :=
  Star sp ;; set [ch ":"; ch "="] ;; Star sp ;; Eol.

(** [[-_ ]?] *)
Definition re_sep3 : regex := Opt (set [ch "-"; ch "_"; ch " "]).

(** All with flag [i]. *)
Definition BODY_MARKERS : list regex :=
  [ (* /\bbody\s*[:=]\s*$/ *)
    WordB ;; Str "body" ;; re_marker_tail;
    (* /\brequest[-_ ]?body\s*[:=]\s*$/ *)
    WordB ;; Str "request" ;; re_sep3 ;; Str "body" ;; re_marker_tail;
    (* /\bbody\s*\/\s*data\s*[:=]\s*$/ *)
    WordB ;; Str "body" ;; Star sp ;; L "/" ;; Star sp ;; Str "data" ;; re_marker_tail;
    (* /\brequest[-_ ]?body\s*\/\s*data\s*[:=]\s*$/ *)
    WordB ;; Str "request" ;; re_sep3 ;; Str "body" ;; Star sp ;; L "/" ;; Star sp
    ;; Str "data" ;; re_marker_tail;
    (* /\bpayload\s*[:=]\s*$/ *)
    WordB ;; Str "payload" ;; re_marker_tail;
    (* /\bdata\s*[:=]\s*$/ *)
    WordB ;; Str "data" ;; re_marker_tail;
    (* /\bpost[-_ ]?data\s*[:=]\s*$/ *)
    WordB ;; Str "post" ;; re_sep3 ;; Str "data" ;; re_marker_tail;
    (* /\bparams\s*[:=]\s*$/ *)
    WordB ;; Str "params" ;; re_marker_tail;
    (* /\bDATA\s+in\s+\w+\s*$/ *)
    WordB ;; Str "DATA" ;; Plus sp ;; Str "in" ;; Plus sp ;; Plus wd ;; Star sp ;; Eol;
    (* /\b--data(?:-raw|-binary)?\s+['`]?$/ *)
    WordB ;; Str "--data" ;; Opt (Alt (Str "-raw") (Str "-binary")) ;; Plus sp
    ;; Opt (set [ch "'"; CLit dq]) ;; Eol;
    (* /\brequest\s*[:=]\s*$/ *)
    WordB ;; Str "request" ;; re_marker_tail ].

Definition HEADER_MARKERS : list regex :=
  [ (* /\bheaders?\s*[:=]\s*$/ *)
    WordB ;; Str "header" ;; Opt (L "s") ;; re_marker_tail;
    (* /\brequest[-_ ]?headers?\s*[:=]\s*$/ *)
    WordB ;; Str "request" ;; re_sep3 ;; Str "header" ;; Opt (L "s") ;; re_marker_tail;
    (* /\bresponse[-_ ]?headers?\s*[:=]\s*$/ *)
    WordB ;; Str "response" ;; re_sep3 ;; Str "header" ;; Opt (L "s") ;; re_marker_tail;
    (* /\bbaseOptions\.headers\s*[:=]\s*$/ *)
    WordB ;; Str "baseOptions.headers" ;; re_marker_tail ].

Definition META_MARKERS : list regex :=
  [ (* /\bconfig\s*[:=]\s*$/ *)
    WordB ;; Str "config" ;; re_marker_tail;
    (* /\boptions\s*[:=]\s*$/ *)
    WordB ;; Str "options" ;; re_marker_tail;
    (* /\bresponse\s*[:=]\s*$/ *)
    WordB ;; Str "response" ;; re_marker_tail;
    (* /\bextra\s*[:=]\s*$/ *)
    WordB ;; Str "extra" ;; re_marker_tail;
    (* /\bquery[-_ ]?parameters?\s*[:=]\s*$/ *)
    WordB ;; Str "query" ;; re_sep3 ;; Str "parameter" ;; Opt (L "s") ;; re_marker_tail ].

Definition HEADER_KEYS : list str :=
  map raw
  [ "authorization"; "content-type"; "accept"; "user-agent";
    "cache-control"; "x-requested-with"; "cookie"; "set-cookie";
    "host"; "connection"; "accept-encoding"; "accept-language";
    "content-length"; "origin"; "referer"; "x-csrf-token";
    "x-xsrf-token"; "x-forwarded-for"; "x-forwarded-proto";
    "pragma"; "expires"; "etag"; "if-none-match"; "if-modified-since";
    "access-control-allow-origin"; "access-control-allow-methods";
    "access-control-allow-headers"; "vary"; "transfer-encoding" ].

Definition META_KEYS : list str :=
  map raw
  [ "statuscode"; "statusmessage"; "responsetype"; "extra";
    "connecttimeout"; "receivetimeout"; "sendtimeout";
    "followredirects"; "maxredirects"; "baseurl";
    "validatestatus"; "httpclientadapter"; "listformat";
    "contenttype"; "responseheaders"; "isredirect" ].

(** [set.has(k)] / [array.includes(k)] on strings. *)
Definition has (l : list str) (k : str) : bool := existsb (str_eqb k) l.

(** [/(?:['`]?)([\w][\w\-.]* )(?:['`]?)\s*:/g] *)
Definition re_raw_key : regex :=
  Opt (set [CLit dq; ch "'"])
  ;; Group 1 (set [CWord] ;; Star (set [CWord; ch "-"; ch "."]))
  ;; Opt (set [CLit dq; ch "'"]) ;; Star sp ;; L ":".

(** The [while ((m = re.exec(block)) !== null)] loop: [lastIndex] moves to
    the end of each match; every match is at least two characters long. *)
Fixpoint raw_keys_loop (fuel : nat) (blk : str) (lastIndex : nat) (keys : list str)
  : list str :=
  match fuel with
  | O => keys
  | S fuel' =>
      match exec_from no_flags re_raw_key blk lastIndex with
      | None => keys
      | Some x =>
          let k := match group blk 1 x with Some g => g | None => [] end in
          raw_keys_loop fuel' blk (m_end x) (keys ++ [toLowerCase k])
      end
  end.

Definition extractRawKeys (blk : str) : list str :=
  raw_keys_loop (S (length blk)) blk 0 [].

Definition headerKeyCount (blk : str) : nat :=
  length (filter (has HEADER_KEYS) (extractRawKeys blk)).

Definition any_test (fl : flags) (res : list regex) (s : str) : bool :=
  existsb (fun r => test fl r s) res.

(** The two ratio tests divide small counts in floating point;
    [h / t > 0.5] holds exactly when [2h > t] and [m / t > 0.3] exactly
    when [10m > 3t] (the quotient 3/10 rounds to the very double that the
    literal 0.3 denotes), so they are written on integers. *)
Definition scoreBlock (b : TextBlock) : ScoredBlock :=
  let preceding := trimEnd (stripLogPrefixes (precedingText b)) in
  let keys := extractRawKeys (content b) in
  if length keys =? 0 then
    {| block := b; score := (-100); reason := raw "empty block" |}
  else
    let s0 := 0%Z in
    let r0 := @nil str in
    let '(s1, r1) := if any_test flag_i BODY_MARKERS preceding
                     then ((s0 + 50)%Z, r0 ++ [raw "body marker"]) else (s0, r0) in
    let '(s2, r2) := if any_test flag_i HEADER_MARKERS preceding
                     then ((s1 - 50)%Z, r1 ++ [raw "header marker"]) else (s1, r1) in
    let '(s3, r3) := if any_test flag_i META_MARKERS preceding
                     then ((s2 - 30)%Z, r2 ++ [raw "metadata marker"]) else (s2, r2) in
    let headerCount := length (filter (has HEADER_KEYS) keys) in
    let metaCount := length (filter (has META_KEYS) keys) in
    let total := length keys in
    let '(s4, r4) :=
      if (0 <? total) && (total <? 2 * headerCount)
      then ((s3 - 40)%Z, r3 ++ [raw "majority header keys"])
      else if (headerCount =? 0) && (metaCount =? 0)
      then ((s3 + 10)%Z, r3 ++ [raw "no header/meta keys"])
      else (s3, r3) in
    let '(s5, r5) :=
      if (0 <? total) && (3 * total <? 10 * metaCount)
      then ((s4 - 30)%Z, r4 ++ [raw "significant meta keys"]) else (s4, r4) in
    let '(s6, r6) :=
      if 3 <=? total then ((s5 + 5)%Z, r5 ++ [raw "multi-key"]) else (s5, r5) in
    {| block := b; score := s6;
       reason := match r6 with [] => raw "default" | _ => join (raw ", ") r6 end |}.

(* ================================================================== *)
(** ** extractors.ts: logfmt fast path *)
(* ================================================================== *)

(** [`(\{[^`]*\})`], ['(\{[^']*\})'] and [(\{[^\n]*\})]. *)
Definition re_val_dq : regex :=
  Lc dq ;; Group 1 (L "{" ;; Star (nset [CLit dq]) ;; L "}") ;; Lc dq.
Definition re_val_sq : regex :=
  L "'" ;; Group 1 (L "{" ;; Star (nset [ch "'"]) ;; L "}") ;; L "'".
Definition re_val_bare : regex :=
  Group 1 (L "{" ;; Star (nset [CLit nl]) ;; L "}").

(** [\s*=\s*] *)
Definition re_eq : regex := Star sp ;; L "=" ;; Star sp.

(** [[-_]?] *)
Definition re_sep2 : regex := Opt (set [ch "-"; ch "_"]).

(** All with flag [i]. *)
Definition LOGFMT_BODY_PATTERNS : list regex :=
  [ (* /\brequest[-_]?body\s*=\s*`(\{[^`]*\})`/ and its two siblings *)
    WordB ;; Str "request" ;; re_sep2 ;; Str "body" ;; re_eq ;; re_val_dq;
    WordB ;; Str "request" ;; re_sep2 ;; Str "body" ;; re_eq ;; re_val_sq;
    WordB ;; Str "request" ;; re_sep2 ;; Str "body" ;; re_eq ;; re_val_bare;
    (* /\bbody\s*=\s*`(\{[^`]*\})`/ and its two siblings *)
    WordB ;; Str "body" ;; re_eq ;; re_val_dq;
    WordB ;; Str "body" ;; re_eq ;; re_val_sq;
    WordB ;; Str "body" ;; re_eq ;; re_val_bare;
    (* /\bpayload\s*=\s*`(\{[^`]*\})`/ and the single-quoted one *)
    WordB ;; Str "payload" ;; re_eq ;; re_val_dq;
    WordB ;; Str "payload" ;; re_eq ;; re_val_sq;
    (* /\bdata\s*=\s*`(\{[^`]*\})`/ and the single-quoted one *)
    WordB ;; Str "data" ;; re_eq ;; re_val_dq;
    WordB ;; Str "data" ;; re_eq ;; re_val_sq;
    (* /\bpost[-_]?data\s*=\s*`(\{[^`]*\})`/ and the single-quoted one *)
    WordB ;; Str "post" ;; re_sep2 ;; Str "data" ;; re_eq ;; re_val_dq;
    WordB ;; Str "post" ;; re_sep2 ;; Str "data" ;; re_eq ;; re_val_sq ].

Fixpoint first_group (fl : flags) (res : list regex) (text : str) : option str :=
  match res with
  | [] => None
  | r :: res' =>
      match exec fl r text with
      | Some x => Some (grp text 1 x)
      | None => first_group fl res' text
      end
  end.

Definition extractBodyFromKeyValue (text : str) : option str :=
  first_group flag_i LOGFMT_BODY_PATTERNS text.

(* ================================================================== *)
(** ** extractors.ts: body selection *)
(* ================================================================== *)

(** [Array.prototype.sort] is stable; with the comparator
    [(a, b) => b.score - a.score] it orders by descending score and keeps
    blocks of equal score in their original order. *)
Fixpoint insert_desc (x : ScoredBlock) (l : list ScoredBlock) : list ScoredBlock :=
  match l with
  | [] => [x]
  | y :: l' => if (score x <? score y)%Z then y :: insert_desc x l' else x :: l
  end.

Definition sort_desc (l : list ScoredBlock) : list ScoredBlock :=
  fold_right insert_desc [] l.

(** The callback of [tied.reduce]. *)
Definition fewer_headers (prev curr : ScoredBlock) : ScoredBlock :=
  let prevH := headerKeyCount (content (block prev)) in
  let currH := headerKeyCount (content (block curr)) in
  if currH <? prevH then curr else prev.

(** A string is truthy when it is not empty. *)
Definition truthy (s : str) : bool := negb (length s =? 0).

(** [if (x)] on a value that is a string or [null]. *)
Definition truthy_opt (x : option str) : bool :=
  match x with Some s => truthy s | None => false end.

Definition extractBody (text : str) : option str :=
  (* 1. logfmt / key=value *)
  let kvBody := extractBodyFromKeyValue text in
  if truthy_opt kvBody then kvBody
  else
    (* 2. balanced-brace extraction + scoring *)
    let blocks := extractBalancedBlocks text in
    match blocks with
    | [] => None
    | [b] => Some (content b)
    | _ =>
        let scored := sort_desc (map scoreBlock blocks) in
        match scored with
        | s0 :: s1 :: _ =>
            if (score s1 <? score s0)%Z then Some (content (block s0))
            else
              let topScore := score s0 in
              let tied := filter (fun s => (score s =? topScore)%Z) scored in
              match tied with
              | t :: ts => Some (content (block (fold_left fewer_headers ts t)))
              | [] => None   (* not reached: [tied] holds [scored[0]] *)
              end
        | _ => None          (* not reached: [scored] is as long as [blocks] *)
        end
    end.

(* ================================================================== *)
(** ** JSON values *)
(* ================================================================== *)

(** A JavaScript number: an IEEE-754 double.  A finite non-zero double is
    [(-1)^neg * m * 2^e] with [m < 2^53]. *)
Inductive number :=
| NZero (neg : bool)
| NFin (neg : bool) (m : positive) (e : Z)
| NInf (neg : bool)
| NNaN.

(** The values [JSON.parse] produces.  An object is the list of its own
    properties in property order (the order of [Object.keys]). *)
Inductive value :=
| JNull
| JBool (b : bool)
| JNum (n : number)
| JStr (s : str)
| JArr (l : list value)
| JObj (l : list (str * value)).

(** [Object.keys(obj)] and [obj[key]]. *)
Definition object_keys (o : list (str * value)) : list str := map fst o.

Fixpoint get (o : list (str * value)) (k : str) : option value :=
  match o with
  | [] => None
  | (k', v) :: o' => if str_eqb k' k then Some v else get o' k
  end.

(* ================================================================== *)
(** ** extractors.ts: body unwrapping *)
(* ================================================================== *)

Definition CONFIG_INDICATORS : list str :=
  map raw ["method"; "url"; "baseurl"; "headers"; "timeout"; "responsetype"].

Definition BODY_KEYS : list str :=
  map raw ["body"; "data"; "payload"; "requestbody"; "request_body"].

(** [typeof v === 'object' && v !== null] *)
Definition is_object_like (v : option value) : bool :=
  match v with
  | Some (JArr _) | Some (JObj _) => true
  | _ => false
  end.

(** The [for (const bk of BODY_KEYS)] loop; [None] when it runs to its end. *)
Fixpoint find_body (o : list (str * value)) (bks : list str) : option value :=
  match bks with
  | [] => None
  | bk :: bks' =>
      match find (fun k => str_eqb (toLowerCase k) bk) (object_keys o) with
      | Some realKey =>
          if truthy realKey && is_object_like (get o realKey)
          then get o realKey
          else find_body o bks'
      | None => find_body o bks'
      end
  end.

Definition hasConfigShape (o : list (str * value)) : bool :=
  let lowerKeys := map toLowerCase (object_keys o) in
  2 <=? length (filter (fun ci => has lowerKeys ci) CONFIG_INDICATORS).

Definition unwrapBodyIfNeeded (parsed : value) : value :=
  match parsed with
  | JObj o =>
      if negb (hasConfigShape o) then parsed
      else match find_body o BODY_KEYS with
           | Some v => v
           | None => parsed
           end
  | _ => parsed
  end.

(* ================================================================== *)
(** ** extractors.ts: HTTP method *)
(* ================================================================== *)

(** [(GET|POST|PUT|PATCH|DELETE|HEAD|OPTIONS)] as group 1. *)
Definition re_verb : regex :=
  Group 1 (alts [Str "GET"; Str "POST"; Str "PUT"; Str "PATCH"; Str "DELETE";
                 Str "HEAD"; Str "OPTIONS"]).

(** [['`]?] *)
Definition re_optq : regex := Opt (set [CLit dq; ch "'"]).

Definition EXPLICIT_METHOD_PATTERNS : list (flags * regex) :=
  [ (* /\bmethod\s*[:=]\s*[`']?(GET|...)[`']?\b/i *)
    (flag_i, WordB ;; Str "method" ;; Star sp ;; set [ch ":"; ch "="] ;; Star sp
             ;; re_optq ;; re_verb ;; re_optq ;; WordB);
    (* /\b(GET|...)\s+\/\S+\s+HTTP/i *)
    (flag_i, WordB ;; re_verb ;; Plus sp ;; L "/" ;; Plus nsp ;; Plus sp ;; Str "HTTP");
    (* /^\s*(GET|...)\s+https?:\/\//im *)
    (flag_im, Bol ;; Star sp ;; re_verb ;; Plus sp ;; re_http);
    (* /\b(GET|...)\s+REQUEST\b/i *)
    (flag_i, WordB ;; re_verb ;; Plus sp ;; Str "REQUEST" ;; WordB) ].

(** [/\b<verb>[-_]?request\b/i] *)
Definition hint_request (verb : String.string) : regex :=
  WordB ;; Str verb ;; re_sep2 ;; Str "request" ;; WordB.

(** [/\b<call>\b/i] for a call such as [http\.post] or [Http::post]. *)
Definition hint_call (call : String.string) : regex :=
  WordB ;; Str call ;; WordB.

(** [/\bmethod\s*:\s*['`]<VERB>['`]/i] *)
Definition hint_fetch (verb : String.string) : regex :=
  WordB ;; Str "method" ;; Star sp ;; L ":" ;; Star sp
  ;; set [ch "'"; CLit dq] ;; Str verb ;; set [ch "'"; CLit dq].

(** [/\bDATA\s+in\s+<verb>/i] *)
Definition hint_data_in (verb : String.string) : regex :=
  WordB ;; Str "DATA" ;; Plus sp ;; Str "in" ;; Plus sp ;; Str verb.

(** All with flag [i]. *)
Definition FRAMEWORK_HINTS : list (regex * str) :=
  [ (hint_request "post", raw "POST");
    (hint_request "put", raw "PUT");
    (hint_request "patch", raw "PATCH");
    (hint_request "delete", raw "DELETE");
    (hint_request "get", raw "GET");
    (hint_call "http.post", raw "POST");
    (hint_call "http.put", raw "PUT");
    (hint_call "http.patch", raw "PATCH");
    (hint_call "http.delete", raw "DELETE");
    (hint_call "http.get", raw "GET");
    (hint_call "axios.post", raw "POST");
    (hint_call "axios.put", raw "PUT");
    (hint_call "axios.patch", raw "PATCH");
    (hint_call "axios.delete", raw "DELETE");
    (hint_call "axios.get", raw "GET");
    (hint_fetch "POST", raw "POST");
    (hint_fetch "PUT", raw "PUT");
    (hint_fetch "PATCH", raw "PATCH");
    (hint_fetch "DELETE", raw "DELETE");
    (hint_call "Http::post", raw "POST");
    (hint_call "Http::put", raw "PUT");
    (hint_call "Http::patch", raw "PATCH");
    (hint_call "Http::delete", raw "DELETE");
    (hint_call "Http::get", raw "GET");
    (hint_data_in "post", raw "POST");
    (hint_data_in "put", raw "PUT");
    (hint_data_in "patch", raw "PATCH");
    (hint_data_in "delete", raw "DELETE") ].

(** The first loop of [extractMethod]. *)
Fixpoint first_explicit (ps : list (flags * regex)) (text : str) : option str :=
  match ps with
  | [] => None
  | (fl, r) :: ps' =>
      match exec fl r text with
      | Some x => Some (toUpperCase (grp text 1 x))
      | None => first_explicit ps' text
      end
  end.

(** The second loop of [extractMethod]. *)
Fixpoint first_hint (hs : list (regex * str)) (text : str) : option str :=
  match hs with
  | [] => None
  | (r, method) :: hs' =>
      if test flag_i r text then Some method else first_hint hs' text
  end.

Definition extractMethod (text : str) : option str :=
  match first_explicit EXPLICIT_METHOD_PATTERNS text with
  | Some v => Some v
  | None => first_hint FRAMEWORK_HINTS text
  end.

(* ================================================================== *)
(** ** extractors.ts: token *)
(* ================================================================== *)

(** [([^\s,;'`}\]]+)] and [([a-zA-Z0-9|._\-/+=]{10,})] as group 1. *)
Definition re_tok_loose : regex :=
  Group 1 (Plus (nset [CSpace; ch ","; ch ";"; ch "'"; CLit dq; ch "}"; ch "]"])).

Definition re_tok_strict : regex :=
  Group 1 (AtLeast 10 (set [rng "a" "z"; rng "A" "Z"; rng "0" "9"; ch "|"; ch ".";
                            ch "_"; ch "-"; ch "/"; ch "+"; ch "="])).

(** [['`]?] *)
Definition re_optq' : regex := Opt (set [ch "'"; CLit dq]).

Definition TOKEN_PATTERNS : list (flags * regex) :=
  [ (* /authorization\s*[:=]\s*['`]?bearer\s+([^\s,;'`}\]]+)/i *)
    (flag_i, Str "authorization" ;; Star sp ;; set [ch ":"; ch "="] ;; Star sp
             ;; re_optq' ;; Str "bearer" ;; Plus sp ;; re_tok_loose);
    (* /\buser\s+token\s+([^\s,;'`}\]]+)/i *)
    (flag_i, WordB ;; Str "user" ;; Plus sp ;; Str "token" ;; Plus sp ;; re_tok_loose);
    (* /\btoken\s*[:=]\s*['`]?([a-zA-Z0-9|._\-/+=]{10,})['`]?/i *)
    (flag_i, WordB ;; Str "token" ;; Star sp ;; set [ch ":"; ch "="] ;; Star sp
             ;; re_optq' ;; re_tok_strict ;; re_optq');
    (* /\baccess[-_]?token\s*[:=]\s*['`]?([a-zA-Z0-9|._\-/+=]{10,})['`]?/i *)
    (flag_i, WordB ;; Str "access" ;; re_sep2 ;; Str "token" ;; Star sp
             ;; set [ch ":"; ch "="] ;; Star sp ;; re_optq' ;; re_tok_strict ;; re_optq');
    (* /\bBearer\s+([a-zA-Z0-9|._\-/+=]{10,})/ *)
    (no_flags, WordB ;; Str "Bearer" ;; Plus sp ;; re_tok_strict) ].

Fixpoint first_token (ps : list (flags * regex)) (text : str) : option str :=
  match ps with
  | [] => None
  | (fl, r) :: ps' =>
      match exec fl r text with
      | Some x => Some (grp text 1 x)
      | None => first_token ps' text
      end
  end.

Definition extractToken (text : str) : option str := first_token TOKEN_PATTERNS text.

(* ================================================================== *)
(** ** extractors.ts: custom headers *)
(* ================================================================== *)

(** The fields [key] and [value] of the source. *)
Record CustomHeader := {
  hkey : str;
  hvalue : str
}.

(** [/^[\u2500-\u257F\-=*_~+\s]+$/] *)
Definition re_separator : regex :=
  Bol ;; Plus (set [CRange 9472 9599; ch "-"; ch "="; ch "*"; ch "_"; ch "~";
                    ch "+"; CSpace]) ;; Eol.

Definition isSeparatorLine (line : str) : bool :=
  let stripped := trim line in
  if negb (truthy stripped) then true
  else test no_flags re_separator stripped.

(** [/HEADERS?\s*:\s*$/i] *)
Definition re_headers_label : regex :=
  Str "HEADER" ;; Opt (L "S") ;; Star sp ;; L ":" ;; Star sp ;; Eol.

(** [/^[\w\-]+$/] *)
Definition re_header_key : regex := Bol ;; Plus (set [CWord; ch "-"]) ;; Eol.

(** [s.indexOf(c)], [None] for [-1]. *)
Fixpoint indexOf (c : char) (s : str) : option nat :=
  match s with
  | [] => None
  | x :: s' => if char_eqb x c then Some 0
               else match indexOf c s' with Some i => Some (S i) | None => None end
  end.

(** The first loop: the lines from [sectionStart] on, or [None] when
    [sectionStart] stays [-1]. *)
Fixpoint find_section (lines : list str) : option (list str) :=
  match lines with
  | [] => None
  | l :: ls =>
      let cleaned := trim (stripLogPrefixes l) in
      if test flag_i re_headers_label cleaned then Some ls else find_section ls
  end.

(** The second loop. *)
Fixpoint read_headers (lines : list str) (headers : list CustomHeader)
  : list CustomHeader :=
  match lines with
  | [] => headers
  | l :: ls =>
      let cleaned := trim (stripLogPrefixes l) in
      if isSeparatorLine cleaned then headers
      else match indexOf (code ":") cleaned with
           | None => headers
           | Some O => headers
           | Some colonIdx =>
               let key := trim (substring cleaned 0 colonIdx) in
               let value := trim (skipn (colonIdx + 1) cleaned) in
               if test no_flags re_header_key key
               then read_headers ls (headers ++ [{| hkey := key; hvalue := value |}])
               else headers
           end
  end.

Definition extractCustomHeaders (text : str) : list CustomHeader :=
  match find_section (split nl text) with
  | None => []
  | Some ls => read_headers ls []
  end.

(* ================================================================== *)
(** ** curlBuilder.ts *)
(* ================================================================== *)

Record CurlComponents := {
  url : str;
  method : str;
  token : option str;
  body : option str;
  customHeaders : option (list CustomHeader)
}.

(** [lines[lines.length - 1] += s] *)
Fixpoint append_last (lines : list str) (s : str) : list str :=
  match lines with
  | [] => []
  | [l] => [l ++ s]
  | l :: ls => l :: append_last ls s
  end.

(** One more line: the line before gets the continuation mark. *)
Definition push_line (lines : list str) (l : str) : list str :=
  append_last lines (lit " \") ++ [l].

Definition header_line (h : CustomHeader) : str :=
  lit "  --header `" ++ hkey h ++ lit ": " ++ hvalue h ++ lit "`".

Definition allHeaders (c : CurlComponents) : list CustomHeader :=
  let custom := match customHeaders c with Some l => l | None => [] end in
  let customLower := map (fun h => toLowerCase (hkey h)) custom in
  (if negb (has customLower (raw "accept"))
   then [{| hkey := raw "Accept"; hvalue := raw "application/json" |}] else [])
  ++ (if negb (has customLower (raw "content-type"))
      then [{| hkey := raw "Content-Type"; hvalue := raw "application/json" |}] else [])
  ++ custom
  ++ (match token c with
      | Some t =>
          if truthy t && negb (has customLower (raw "authorization"))
          then [{| hkey := raw "Authorization"; hvalue := raw "Bearer " ++ t |}] else []
      | None => []
      end).

(** The array [lines] at the end of [buildCurl]. *)
Definition curl_lines (c : CurlComponents) : list str :=
  let lines0 := [ lit "curl --location `" ++ url c ++ lit "` \";
                  lit "  --request " ++ method c ] in
  let lines1 := fold_left (fun lines h => push_line lines (header_line h))
                          (allHeaders c) lines0 in
  if truthy_opt (body c)
  then push_line lines1 (lit "  --data '" ++ match body c with Some b => b | None => [] end
                         ++ lit "'")
  else lines1.

Definition buildCurl (c : CurlComponents) : str := join [nl] (curl_lines c).

(* ================================================================== *)
(** ** normalizer.ts: quote swapping *)
(* ================================================================== *)

(** The two nested loops of [swapSingleToDoubleQuotes] as one recursion:
    [inq] tells whether the inner loop (inside a single-quoted string) is
    running.  At the end of the text an open string is closed. *)
Fixpoint swap_quotes (inq : bool) (text : str) : str :=
  match text with
  | [] => if inq then [dq] else []
  | c :: rest =>
      if inq then
        if char_eqb c (code "'") then dq :: swap_quotes false rest
        else if char_eqb c bsl then
          match rest with
          | c2 :: rest' => bsl :: c2 :: swap_quotes true rest'
          | [] => [bsl; dq]
          end
        else if char_eqb c dq then bsl :: dq :: swap_quotes true rest
        else c :: swap_quotes true rest
      else
        if char_eqb c (code "'") then dq :: swap_quotes true rest
        else c :: swap_quotes false rest
  end.

Definition swapSingleToDoubleQuotes (text : str) : str := swap_quotes false text.

(* ================================================================== *)
(** ** normalizer.ts: the recursive-descent parser [LogBodyParser] *)
(* ================================================================== *)

(** The constructor: the lines that are purely comments are dropped. *)
Definition is_comment_line (l : str) : bool :=
  let t := trimStart l in
  startsWith (raw "//") t || startsWith (raw "#") t.

Definition parser_text (text : str) : str :=
  join [nl] (filter (fun l => negb (is_comment_line l)) (split nl text)).

(** What a method of the parser does from a position: it returns a value
    and leaves the position at [pos], it throws an [Error], or it is still
    running when the fuel is used up.  Only the recursive methods and their
    [while] loops take fuel. *)
Inductive outcome (A : Type) : Type :=
| Returns (a : A) (pos : nat)
| Throws
| Running.

Arguments Returns {A} a pos.
Arguments Throws {A}.
Arguments Running {A}.

(** [this.text[this.pos] ?? ''], with [None] for the empty string. *)
Definition peek (text : str) (pos : nat) : option char := nth_error text pos.

(** [this.peek() === c] *)
Definition at_char (text : str) (pos : nat) (c : char) : bool :=
  match peek text pos with Some x => char_eqb x c | None => false end.

Definition eof (text : str) (pos : nat) : bool := length text <=? pos.

Definition expect (text : str) (pos : nat) (c : char) : outcome unit :=
  if at_char text pos c then Returns tt (pos + 1) else Throws.

(** The number of white-space characters at the start of [rest]. *)
Fixpoint ws_len (rest : str) : nat :=
  match rest with
  | c :: rest' => if is_space c then S (ws_len rest') else 0
  | [] => 0
  end.

(** The position after [skipWhitespace()]. *)
Definition skipWhitespace (text : str) (pos : nat) : nat :=
  pos + ws_len (skipn pos text).

(** The loop of [parseDoubleQuotedString] on the text after the opening
    quote: the content collected and the number of characters read. *)
Fixpoint dq_loop (rest : str) : str * nat :=
  match rest with
  | [] => ([], 0)
  | c :: rest' =>
      if char_eqb c dq then ([], 0)
      else if char_eqb c bsl then
        match rest' with
        | [] => ([], 1)
        | esc :: rest'' =>
            let '(content, n) := dq_loop rest'' in
            ((if existsb (char_eqb esc) (lit "`\/bfnrt") then [bsl; esc]
              else if char_eqb esc (code "u") then [bsl; code "u"]
              else [esc]) ++ content, 2 + n)
        end
      else let '(content, n) := dq_loop rest' in (c :: content, 1 + n)
  end.

Definition parseDoubleQuotedString (text : str) (pos : nat) : outcome str :=
  match expect text pos dq with
  | Returns _ p =>
      let '(content, n) := dq_loop (skipn p text) in
      let p' := p + n in
      Returns (dq :: content ++ [dq]) (if eof text p' then p' else p' + 1)
  | Throws => Throws
  | Running => Running
  end.

(** The loop of [parseSingleQuotedString]. *)
Fixpoint sq_loop (rest : str) : str * nat :=
  match rest with
  | [] => ([], 0)
  | c :: rest' =>
      if char_eqb c (code "'") then ([], 0)
      else if char_eqb c bsl then
        match rest' with
        | [] => ([], 1)
        | esc :: rest'' =>
            let '(content, n) := sq_loop rest'' in (esc :: content, 2 + n)
        end
      else
        let '(content, n) := sq_loop rest' in
        ((if char_eqb c dq then [bsl; dq] else [c]) ++ content, 1 + n)
  end.

Definition parseSingleQuotedString (text : str) (pos : nat) : outcome str :=
  match expect text pos (code "'") with
  | Returns _ p =>
      let '(content, n) := sq_loop (skipn p text) in
      let p' := p + n in
      Returns (dq :: content ++ [dq]) (if eof text p' then p' else p' + 1)
  | Throws => Throws
  | Running => Running
  end.

(** [/[\w\-.$]/] on one character. *)
Definition is_key_char (c : char) : bool :=
  is_word c || char_eqb c (code "-") || char_eqb c (code ".") || char_eqb c (code "$").

Fixpoint key_len (rest : str) : nat :=
  match rest with
  | c :: rest' => if is_key_char c then S (key_len rest') else 0
  | [] => 0
  end.

Definition parseKey (text : str) (pos : nat) : outcome str :=
  let pos := skipWhitespace text pos in
  if at_char text pos dq then parseDoubleQuotedString text pos
  else if at_char text pos (code "'") then parseSingleQuotedString text pos
  else
    let p' := pos + key_len (skipn pos text) in
    let key := substring text pos p' in
    if negb (truthy key) then Throws
    else Returns (dq :: key ++ [dq]) p'.

(** [/^null\b/i], [/^None\b/], [/^(null|None)/i] and their siblings. *)
Definition re_word (w : String.string) : regex := Bol ;; Str w ;; WordB.
Definition re_either (a b : String.string) : regex :=
  Bol ;; Group 1 (Alt (Str a) (Str b)).

(** [/^-?(?:0|[1-9]\d* )(?:\.\d+)?(?:[eE][+-]?\d+)?(?=[,\s}\]\n]|$)/] *)
Definition re_number : regex :=
  Bol ;; Opt (L "-") ;; Alt (L "0") (set [rng "1" "9"] ;; Star dg)
  ;; Opt (L "." ;; Plus dg)
  ;; Opt (set [ch "e"; ch "E"] ;; Opt (set [ch "+"; ch "-"]) ;; Plus dg)
  ;; Ahead (Alt (set [ch ","; CSpace; ch "}"; ch "]"; CLit nl]) Eol).

(** [/^[\w`'][\w\-.$]*[`']?\s*:/] and [/^[}\]]/] *)
Definition re_new_key : regex :=
  Bol ;; set [CWord; CLit dq; ch "'"] ;; Star (set [CWord; ch "-"; ch "."; ch "$"])
  ;; Opt (set [CLit dq; ch "'"]) ;; Star sp ;; L ":".
Definition re_closing : regex := Bol ;; set [ch "}"; ch "]"].

(** The loop that reads an unquoted string: the number of characters up
    to the stop. *)
Fixpoint unquoted_len (rest : str) : nat :=
  match rest with
  | [] => 0
  | c :: rest' =>
      if char_eqb c (code ",") || char_eqb c (code "}") || char_eqb c (code "]") then 0
      else if char_eqb c nl &&
              (let ahead := trimStart rest' in
               test no_flags re_new_key ahead || test no_flags re_closing ahead)
      then 0
      else S (unquoted_len rest')
  end.

(** The five [replace] calls that escape an unquoted string. *)
Definition escape_unquoted (s : str) : str :=
  replace no_flags (Lc 9) true [bsl; code "t"]
    (replace no_flags (Lc 13) true [bsl; code "r"]
      (replace no_flags (Lc nl) true [bsl; code "n"]
        (replace no_flags (Lc dq) true [bsl; dq]
          (replace no_flags (Lc bsl) true [bsl; bsl] s)))).

(** [pos += rest.match(re)![0].length; return word]; the [!] on a failed
    match is a [TypeError]. *)
Definition keyword (re : regex) (rest : str) (pos : nat) (word : str) : outcome str :=
  match exec flag_i re rest with
  | Some x => Returns word (pos + length (matched rest x))
  | None => Throws
  end.

Definition parseUnquotedValue (text : str) (pos : nat) : outcome str :=
  let pos := skipWhitespace text pos in
  let rest := skipn pos text in
  if test flag_i (re_word "null") rest || test no_flags (re_word "None") rest
  then keyword (re_either "null" "None") rest pos (raw "null")
  else if test flag_i (re_word "true") rest || test no_flags (re_word "True") rest
  then keyword (re_either "true" "True") rest pos (raw "true")
  else if test flag_i (re_word "false") rest || test no_flags (re_word "False") rest
  then keyword (re_either "false" "False") rest pos (raw "false")
  else
    match exec no_flags re_number rest with
    | Some numMatch =>
        Returns (matched rest numMatch) (pos + length (matched rest numMatch))
    | None =>
        let p' := pos + unquoted_len rest in
        let raw_value := trim (substring text pos p') in
        if negb (truthy raw_value) then Returns (raw "null") p'
        else Returns (dq :: escape_unquoted raw_value ++ [dq]) p'
    end.

(** What follows the two loops: [if (!this.eof()) { this.expect(c); }] and
    the [return]. *)
Definition finish (text : str) (pos : nat) (close : char) (result : str) : outcome str :=
  if eof text pos then Returns result pos
  else match expect text pos close with
       | Returns _ p => Returns result p
       | Throws => Throws
       | Running => Running
       end.

(** The separator step at the head of both loops, taken when something
    was read already: the position after it, and whether the loop
    [break]s. *)
Definition separator (text : str) (pos : nat) (close : char) : nat * bool :=
  let p1 := if at_char text pos (code ",") then pos + 1 else pos in
  let p2 := skipWhitespace text p1 in
  (p2, at_char text p2 close).

(** [parseValue], [parseObject] and [parseArray] with the two [while]
    loops; every call and every turn of a loop takes one unit of fuel. *)
Fixpoint parseValue (text : str) (fuel : nat) (pos : nat) {struct fuel} : outcome str :=
  match fuel with
  | O => Running
  | S fuel' =>
      let pos := skipWhitespace text pos in
      if at_char text pos (code "{") then parseObject text fuel' pos
      else if at_char text pos (code "[") then parseArray text fuel' pos
      else if at_char text pos dq then parseDoubleQuotedString text pos
      else if at_char text pos (code "'") then parseSingleQuotedString text pos
      else parseUnquotedValue text pos
  end

with parseObject (text : str) (fuel : nat) (pos : nat) {struct fuel} : outcome str :=
  match fuel with
  | O => Running
  | S fuel' =>
      match expect text pos (code "{") with
      | Returns _ p => object_loop text fuel' [] (skipWhitespace text p)
      | Throws => Throws
      | Running => Running
      end
  end

with object_loop (text : str) (fuel : nat) (entries : list str) (pos : nat)
       {struct fuel} : outcome str :=
  match fuel with
  | O => Running
  | S fuel' =>
      let done := fun p => finish text p (code "}")
                             (code "{" :: join (raw ", ") entries ++ [code "}"]) in
      if negb (at_char text pos (code "}")) && negb (eof text pos) then
        let '(p0, brk) := if 0 <? length entries then separator text pos (code "}")
                          else (pos, false) in
        if brk then done p0
        else
          match parseKey text p0 with
          | Returns key p1 =>
              match expect text (skipWhitespace text p1) (code ":") with
              | Returns _ p2 =>
                  let p3 := skipWhitespace text p2 in
                  let value :=
                    if at_char text p3 (code ",") || at_char text p3 (code "}")
                    then Returns (raw "null") p3
                    else parseValue text fuel' p3 in
                  match value with
                  | Returns v p4 =>
                      object_loop text fuel' (entries ++ [key ++ raw ": " ++ v])
                                  (skipWhitespace text p4)
                  | Throws => Throws
                  | Running => Running
                  end
              | Throws => Throws
              | Running => Running
              end
          | Throws => Throws
          | Running => Running
          end
      else done pos
  end

with parseArray (text : str) (fuel : nat) (pos : nat) {struct fuel} : outcome str :=
  match fuel with
  | O => Running
  | S fuel' =>
      match expect text pos (code "[") with
      | Returns _ p => array_loop text fuel' [] (skipWhitespace text p)
      | Throws => Throws
      | Running => Running
      end
  end

with array_loop (text : str) (fuel : nat) (elements : list str) (pos : nat)
       {struct fuel} : outcome str :=
  match fuel with
  | O => Running
  | S fuel' =>
      let done := fun p => finish text p (code "]")
                             (code "[" :: join (raw ", ") elements ++ [code "]"]) in
      if negb (at_char text pos (code "]")) && negb (eof text pos) then
        let '(p0, brk) := if 0 <? length elements then separator text pos (code "]")
                          else (pos, false) in
        if brk then done p0
        else
          match parseValue text fuel' p0 with
          | Returns v p1 =>
              array_loop text fuel' (elements ++ [v]) (skipWhitespace text p1)
          | Throws => Throws
          | Running => Running
          end
      else done pos
  end.

(** [parse()] *)
Definition parse (text : str) (fuel : nat) : outcome str :=
  parseValue text fuel (skipWhitespace text 0).

(** [new LogBodyParser(text).parse()] *)
Definition LogBodyParser_parse (text : str) (fuel : nat) : outcome str :=
  parse (parser_text text) fuel.

(* ================================================================== *)
(** ** Vocabulary of the properties *)
(* ================================================================== *)

(** No recognised prefix starts the line: none of the six patterns matches. *)
Definition no_prefix (line : str) : Prop :=
  exec flag_i re_flutter line = None /\
  exec no_flags re_logcat line = None /\
  exec no_flags re_laravel line = None /\
  exec no_flags re_iso line = None /\
  exec no_flags re_nest line = None /\
  exec no_flags re_prompt line = None.

(** The name [name] is among the keys of [o], compared case-insensitively. *)
Definition key_present (o : list (str * value)) (name : str) : Prop :=
  exists k, In k (object_keys o) /\ toLowerCase k = name.

(** At least two different names of [names] are among the keys of [o]. *)
Definition two_present (names : list str) (o : list (str * value)) : Prop :=
  exists a b, In a names /\ In b names /\ a <> b /\
              key_present o a /\ key_present o b.

(** The value of the first property of [o], in key order, whose key is
    [name] up to case. *)
Fixpoint first_binding (o : list (str * value)) (name : str) : option value :=
  match o with
  | [] => None
  | (k, v) :: o' =>
      if str_eqb (toLowerCase k) name then Some v else first_binding o' name
  end.

(** Score and number of header-vocabulary keys of a block. *)
Definition sc (b : TextBlock) : Z := score (scoreBlock b).
Definition hc (b : TextBlock) : nat := headerKeyCount (content b).

(** *** What a pattern matches

    A place in the input is the code unit before it and the input after it.
    [matches fl r p q] says that [r] can match from place [p] to place [q];
    it ignores the order in which the matcher tries the alternatives. *)
Definition place : Type := option char * str.

Definition here (st : cursor) : place := (prev st, rest st).

Definition bol_at (fl : flags) (p : place) : bool :=
  match fst p with
  | None => true
  | Some c => multiline fl && is_line_terminator c
  end.

Definition eol_at (fl : flags) (p : place) : bool :=
  match snd p with
  | [] => true
  | c :: _ => multiline fl && is_line_terminator c
  end.

Definition boundary_at (p : place) : bool :=
  xorb (match fst p with Some c => is_word c | None => false end)
       (match snd p with c :: _ => is_word c | [] => false end).

Inductive matches (fl : flags) : regex -> place -> place -> Prop :=
| M_Eps p : matches fl Eps p p
| M_Chars neg items pv c tl :
    xorb neg (class_mem fl items c) = true ->
    matches fl (Chars neg items) (pv, c :: tl) (Some c, tl)
| M_Seq r1 r2 p q t :
    matches fl r1 p q -> matches fl r2 q t -> matches fl (Seq r1 r2) p t
| M_AltL r1 r2 p q : matches fl r1 p q -> matches fl (Alt r1 r2) p q
| M_AltR r1 r2 p q : matches fl r2 p q -> matches fl (Alt r1 r2) p q
| M_Star0 r p : matches fl (Star r) p p
| M_StarS r p q t :
    matches fl r p q -> length (snd q) < length (snd p) ->
    matches fl (Star r) q t -> matches fl (Star r) p t
| M_Group i r p q : matches fl r p q -> matches fl (Group i r) p q
| M_Bol p : bol_at fl p = true -> matches fl Bol p p
| M_Eol p : eol_at fl p = true -> matches fl Eol p p
| M_WordB p : boundary_at p = true -> matches fl WordB p p
| M_Ahead r p q : matches fl r p q -> matches fl (Ahead r) p p.

(** The matcher moves forward only, and counts what it reads. *)
Definition aligned (st st' : cursor) : Prop :=
  pos st <= pos st' /\ pos st' + length (rest st') = pos st + length (rest st).

(** The host carries a port whose digits end in 80: it is [p : d 8 0] with
    [d] a run of digits. *)
Definition port_ends_80 (host : str) : Prop :=
  exists p d, host = p ++ [code ":"] ++ d ++ raw "80"
              /\ Forall (fun c => is_digit c = true) d.

(** The code unit before the place reached after reading [a] from a place
    with [pv] before it. *)
Definition before (pv : option char) (a : str) : option char :=
  fold_left (fun _ c => Some c) a pv.

(** The entries of a given score. *)
Definition has_score (t : Z) (s : ScoredBlock) : bool := (score s =? t)%Z.

(** The head of the sorted list has the highest score. *)
Definition head_max (l : list ScoredBlock) : Prop :=
  match l with
  | [] => True
  | x :: l' => forall y, In y l' -> (score y <= score x)%Z
  end.

Fixpoint descending (l : list ScoredBlock) : Prop :=
  match l with
  | [] => True
  | x :: l' => head_max l /\ descending l'
  end.

(** *** Braces outside quoted regions

    Reading a text quote-aware: outside a string, inside a string opened by
    the quote [q], or inside it just after a backslash. *)
Inductive qstate :=
| QOut
| QIn (q : char)
| QEsc (q : char).

Definition qstep (st : qstate) (c : char) : qstate :=
  match st with
  | QOut => if is_quote c then QIn c else QOut
  | QIn q => if char_eqb c bsl then QEsc q
             else if char_eqb c q then QOut else QIn q
  | QEsc q => QIn q
  end.

(** Occurrences of [b] in [s] outside the quoted regions, reading from
    state [st]. *)
Fixpoint count_outside_from (st : qstate) (b : char) (s : str) : nat :=
  match s with
  | [] => 0
  | c :: s' =>
      (match st with
       | QOut => if char_eqb c b then 1 else 0
       | _ => 0
       end) + count_outside_from (qstep st c) b s'
  end.

Definition count_outside (b : char) (s : str) : nat := count_outside_from QOut b s.

Definition opens (s : str) : nat := count_outside (code "{") s.
Definition closes (s : str) : nat := count_outside (code "}") s.

(** A block: it starts with an opening brace and ends with a closing one,
    has as many opening as closing braces outside quoted regions, and its
    last brace is the one that matches the first: before the end, more
    braces are open than closed. *)
Definition balanced_block (c : str) : Prop :=
  (exists body, c = code "{" :: body ++ [code "}"]) /\
  opens c = closes c /\
  (forall n, 0 < n < length c -> closes (firstn n c) < opens (firstn n c)).

(** The scanner read one character at a time: the state of the loop, the
    flag [esc] set when the character just read was a backslash inside a
    string (so that the next one is skipped), and the index. *)
Definition cstate : Type := scan_state * bool * nat.

Definition cstep (text : str) (x : cstate) (ch : char) : cstate :=
  let '(s, esc, i) := x in
  if esc then (s, false, i + 1)
  else if inString s then
    if char_eqb ch bsl then (s, true, i + 1)
    else if str_eqb [ch] (stringChar s) then (close_string s, false, i + 1)
    else (s, false, i + 1)
  else (scan_outside text i ch s, false, i + 1).

Definition crun (text : str) (p : str) (x : cstate) : cstate :=
  fold_left (cstep text) p x.

(** The quote-aware state that the scanner's variables stand for. *)
Definition qof (s : scan_state) (esc : bool) : qstate :=
  if inString s then
    match stringChar s with
    | q :: _ => if esc then QEsc q else QIn q
    | [] => QOut
    end
  else QOut.

(** What holds of the scanner after it has read the prefix [p] of the
    text. *)
Definition block_ok (text : str) (b : TextBlock) : Prop :=
  content b = substring text (startIndex b) (endIndex b + 1) /\
  startIndex b < endIndex b /\
  endIndex b < length text /\
  balanced_block (content b).

(** The block that is open after reading [p]: it started at index [bs],
    [d] more braces were opened than closed in it so far, and the reading
    is in state [q]. *)
Definition open_ok (p : str) (bs d : Z) (q : qstate) : Prop :=
  (0 <= bs)%Z /\
  Z.to_nat bs < length p /\
  (exists w', skipn (Z.to_nat bs) p = code "{" :: w') /\
  fold_left qstep (skipn (Z.to_nat bs) p) QOut = q /\
  (Z.of_nat (opens (skipn (Z.to_nat bs) p))
   - Z.of_nat (closes (skipn (Z.to_nat bs) p)) = d)%Z /\
  (forall n, 0 < n <= length (skipn (Z.to_nat bs) p) ->
             closes (firstn n (skipn (Z.to_nat bs) p))
             < opens (firstn n (skipn (Z.to_nat bs) p))).

Definition scan_inv (text p : str) (x : cstate) : Prop :=
  let '(s, esc, i) := x in
  i = length p /\
  (0 <= depth s)%Z /\
  (depth s = 0%Z <-> blockStart s = (-1)%Z) /\
  (inString s = true -> exists q, stringChar s = [q]) /\
  (esc = true -> inString s = true) /\
  Forall (fun b => block_ok text b /\ endIndex b < length p) (blocks s) /\
  ((0 < depth s)%Z -> open_ok p (blockStart s) (depth s) (qof s esc)).

(** *** Scanning a text and a shifted copy of it

    [agree k lo hi t t'] : from index [lo] up to index [hi], [t'] reads as
    [t] does [k] places further. *)
Definition agree (k lo hi : nat) (t t' : str) : Prop :=
  forall a n, lo <= a -> a + n <= hi ->
              firstn n (skipn (a + k) t) = firstn n (skipn a t').

(** Two states of the scanner that differ by the shift [k] only: the same
    depth and string state, blocks of the same contents, and the open block
    (if any) started [k] places apart, not before [lo]. *)
Definition sim (k lo : nat) (x x' : cstate) : Prop :=
  let '(s, e, i) := x in
  let '(s', e', i') := x' in
  e = e' /\ i = i' + k /\ lo <= i' /\
  depth s = depth s' /\ inString s = inString s' /\ stringChar s = stringChar s' /\
  map content (blocks s) = map content (blocks s') /\
  ((blockStart s = (-1)%Z /\ blockStart s' = (-1)%Z) \/
   ((Z.of_nat lo <= blockStart s')%Z /\
    blockStart s = (blockStart s' + Z.of_nat k)%Z)).

(** The change of depth when [c] is read in state [q]. *)
Definition delta (q : qstate) (c : char) : Z :=
  match q with
  | QOut => if char_eqb c (code "{") then 1
            else if char_eqb c (code "}") then -1 else 0
  | _ => 0
  end.

(** *** How the matcher runs

    [run fl r st st'] : the pattern [r] takes the matcher from the state
    [st] to the state [st'], captures included. *)
Inductive run (fl : flags) : regex -> cursor -> cursor -> Prop :=
| R_Eps st : run fl Eps st st
| R_Chars neg items st c tl :
    rest st = c :: tl -> xorb neg (class_mem fl items c) = true ->
    run fl (Chars neg items) st (step c tl st)
| R_Seq r1 r2 st st1 st2 :
    run fl r1 st st1 -> run fl r2 st1 st2 -> run fl (Seq r1 r2) st st2
| R_AltL r1 r2 st st1 : run fl r1 st st1 -> run fl (Alt r1 r2) st st1
| R_AltR r1 r2 st st1 : run fl r2 st st1 -> run fl (Alt r1 r2) st st1
| R_Star0 r st : run fl (Star r) st st
| R_StarS r st st1 st2 :
    run fl r st st1 -> pos st1 <> pos st -> run fl (Star r) st1 st2 ->
    run fl (Star r) st st2
| R_Group i r st st1 :
    run fl r st st1 -> run fl (Group i r) st (add_cap i (pos st) st1)
| R_Bol st : at_bol fl st = true -> run fl Bol st st
| R_Eol st : at_eol fl st = true -> run fl Eol st st
| R_WordB st : xorb (word_before st) (word_after st) = true -> run fl WordB st st
| R_Ahead r st st1 :
    run fl r st st1 -> run fl (Ahead r) st (with_caps (caps st1) st).

(** [st1] is reached from [st] by reading [w]. *)
Definition reads (st : cursor) (w : str) (st1 : cursor) : Prop :=
  rest st = w ++ rest st1 /\ pos st1 = pos st + length w /\
  prev st1 = before (prev st) w.

(** A pattern without capturing group. *)
Fixpoint groupless (r : regex) : bool :=
  match r with
  | Eps | Chars _ _ | Bol | Eol | WordB => true
  | Seq a b | Alt a b => groupless a && groupless b
  | Star a | Ahead a => groupless a
  | Group _ _ => false
  end.

(** The body of group [i] in a pattern that is a sequence with that one
    group in it, its other parts and the body itself without group. *)
Fixpoint group_body (i : nat) (r : regex) : option regex :=
  match r with
  | Group j g => if (i =? j) && groupless g then Some g else None
  | Seq a b =>
      if groupless b then group_body i a
      else if groupless a then group_body i b else None
  | _ => None
  end.

(** *** Vocabulary for the extractors *)

Definition VERBS : list str :=
  map raw ["GET"; "POST"; "PUT"; "PATCH"; "DELETE"; "HEAD"; "OPTIONS"].

(** A character that can occur in an extracted token: no white space, and
    none of [, ; ' ` } ]] (with the backtick for the double quote). *)
Definition token_char (c : char) : bool :=
  negb (is_space c || char_eqb c (code ",") || char_eqb c (code ";")
        || char_eqb c (code "'") || char_eqb c dq || char_eqb c (code "}")
        || char_eqb c (code "]")).

(** The code unit [c] is in the class, as [Chars neg items] tests it. *)
Definition in_class (fl : flags) (neg : bool) (items : list citem) (c : char) : bool :=
  xorb neg (class_mem fl items c).

(** A text without white space at either end. *)
Definition no_outer_space (s : str) : Prop :=
  (forall c r, s = c :: r -> is_space c = false) /\
  (forall c p, s = p ++ [c] -> is_space c = false).

(** The lines of the command as they read before the continuation marks
    are added. *)
Definition plain_lines (c : CurlComponents) : list str :=
  [lit "curl --location `" ++ url c ++ lit "`"; lit "  --request " ++ method c]
  ++ map header_line (allHeaders c)
  ++ match body c with
     | Some b => if truthy b then [lit "  --data '" ++ b ++ lit "'"] else []
     | None => []
     end.

(** How many headers of [l] are named [name], whatever the case of their
    letters. *)
Definition header_count (name : str) (l : list CustomHeader) : nat :=
  length (filter (fun h => str_eqb name (toLowerCase (hkey h))) l).

Definition custom_of (c : CurlComponents) : list CustomHeader :=
  match customHeaders c with Some l => l | None => [] end.

(** A single quote becomes a double quote. *)
Definition swap_char (c : char) : char := if char_eqb c (code "'") then dq else c.

Definition count_char (c : char) (s : str) : nat := length (filter (char_eqb c) s).

(** The context kept with a block: the (at most 300) characters right
    before it. *)
Definition context_ok (text : str) (b : TextBlock) : Prop :=
  precedingText b = substring text (startIndex b - 300) (startIndex b).

(** [b2] starts after the end of [b1]. *)
Definition starts_after (b1 b2 : TextBlock) : Prop := endIndex b1 < startIndex b2.

(** What holds of the blocks found after reading the prefix [p]: they are
    in text order, each with its context, and all end before the block
    that is open (if one is). *)
Definition order_inv (text p : str) (x : cstate) : Prop :=
  let '(s, esc, i) := x in
  StronglySorted starts_after (blocks s) /\
  Forall (context_ok text) (blocks s) /\
  Forall (fun b => endIndex b < length p /\
                   ((0 < depth s)%Z -> (Z.of_nat (endIndex b) < blockStart s)%Z))
         (blocks s).

(** The start of an absolute HTTP URL, in any case of the letters. *)
Definition http_scheme (h : str) : Prop :=
  toUpperCase h = raw "HTTP:" \/ toUpperCase h = raw "HTTPS:".

(** The punctuation that is cut off the end of a URL (the backtick stands
    for the double quote). *)
Definition TRAILING : str := lit ",;'`)]}>".

Definition trail_items : list citem :=
  [ch ","; ch ";"; ch "'"; CLit dq; ch ")"; ch "]"; ch "}"; ch ">"].

(** The pattern reads at least one character whenever it matches. *)
Fixpoint consumes (r : regex) : bool :=
  match r with
  | Chars _ _ => true
  | Seq a b => consumes a || consumes b
  | Alt a b => consumes a && consumes b
  | Group _ g => consumes g
  | _ => false
  end.

(** [f] leaves a text alone when [A] holds of it and makes it shorter
    otherwise. *)
Definition shrinks (f : str -> str) (A : str -> Prop) : Prop :=
  forall s, (A s /\ f s = s) \/ length (f s) < length s.

(** *** What a pattern can do in front of a given character

    [only_empty fl r c] : from a place whose next character is [c], the
    pattern [r] can only match without reading anything.
    [rejects fl r c] : from such a place [r] cannot match at all. *)
Fixpoint only_empty (fl : flags) (r : regex) (c : char) : bool :=
  match r with
  | Chars neg items => negb (xorb neg (class_mem fl items c))
  | Seq a b => only_empty fl a c && only_empty fl b c
  | Alt a b => only_empty fl a c && only_empty fl b c
  | Star a => only_empty fl a c
  | Group _ g => only_empty fl g c
  | _ => true
  end.

Fixpoint rejects (fl : flags) (r : regex) (c : char) : bool :=
  match r with
  | Chars neg items => negb (xorb neg (class_mem fl items c))
  | Seq a b => rejects fl a c || (only_empty fl a c && rejects fl b c)
  | Alt a b => rejects fl a c && rejects fl b c
  | Group _ g => rejects fl g c
  | _ => false
  end.

(** The method has come to an end, and did not move backwards: it threw,
    or it returned at a position not before [pos]. *)
Definition settles (o : outcome str) (pos : nat) : Prop :=
  match o with
  | Returns _ p => pos <= p
  | Throws => True
  | Running => False
  end.


(* ================================================================== *)
(** * Properties *)
(* ================================================================== *)

(* ------------------------------------------------------------------ *)
(** ** Strings *)

Lemma char_eqb_eq (a b : char) : char_eqb a b = true <-> a = b.
Proof. unfold char_eqb. apply N.eqb_eq. Qed.

Lemma str_eqb_eq (a b : str) : str_eqb a b = true <-> a = b.
Proof.
  revert b. induction a as [|x a IH]; intros [|y b]; simpl; split; intro H;
    try reflexivity; try discriminate.
  - apply andb_true_iff in H. destruct H as [H1 H2].
    apply char_eqb_eq in H1. apply IH in H2. congruence.
  - injection H as -> ->. apply andb_true_iff. split.
    + now apply char_eqb_eq.
    + now apply IH.
Qed.

Lemma str_eqb_refl (a : str) : str_eqb a a = true.
Proof. now apply str_eqb_eq. Qed.

Lemma split_nonempty (sep : char) (s : str) : split sep s <> [].
Proof.
  destruct s as [|c s]; simpl; [discriminate|].
  destruct (char_eqb c sep); [discriminate|].
  destruct (split sep s); discriminate.
Qed.

Lemma join_split (sep : char) (s : str) : join [sep] (split sep s) = s.
Proof.
  induction s as [|c s IH]; simpl; [reflexivity|].
  destruct (char_eqb c sep) eqn:E.
  - apply char_eqb_eq in E. subst c.
    destruct (split sep s) as [|p ps] eqn:S; [now apply split_nonempty in S|].
    simpl in *. now rewrite IH.
  - destruct (split sep s) as [|p ps] eqn:S; [now apply split_nonempty in S|].
    destruct ps; simpl in *; now rewrite <- IH.
Qed.

(* ------------------------------------------------------------------ *)
(** ** Prefix stripping *)

Lemma replace_no_match (fl : flags) (r : regex) (g : bool) (repl s : str) :
  exec fl r s = None -> replace fl r g repl s = s.
Proof.
  unfold replace, exec. intro H. simpl. now rewrite H.
Qed.

Lemma stripLine_no_prefix (line : str) : no_prefix line -> stripLine line = line.
Proof.
  intros (H1 & H2 & H3 & H4 & H5 & H6). unfold stripLine.
  rewrite (@replace_no_match _ _ false [] _ H1), (@replace_no_match _ _ true [] _ H2),
          (@replace_no_match _ _ true [] _ H3), (@replace_no_match _ _ true [] _ H4),
          (@replace_no_match _ _ true [] _ H5), (@replace_no_match _ _ true [] _ H6).
  reflexivity.
Qed.

(** C1 (as stated) fails: the six removals run once each in a fixed order,
    and removing the shell prompt uncovers a [flutter:] tag that only a
    second pass removes. *)
Lemma C1_not_idempotent :
  stripLogPrefixes (stripLogPrefixes (lit "> flutter: x"))
  <> stripLogPrefixes (lit "> flutter: x").
Proof. vm_compute. discriminate. Qed.

(* ------------------------------------------------------------------ *)
(** ** Body selection: the shortcuts *)

(** C3.  When the logfmt fast path finds nothing, a text with exactly one
    top-level block yields that block's content, whatever its score, and a
    text with no block yields [null]. *)
Theorem C3_single_block_shortcut (text : str) :
  extractBodyFromKeyValue text = None ->
  (forall b, extractBalancedBlocks text = [b] ->
             extractBody text = Some (content b)) /\
  (extractBalancedBlocks text = [] -> extractBody text = None).
Proof.
  intro Hkv. unfold extractBody. rewrite Hkv. simpl.
  split.
  - intros b Hb. now rewrite Hb.
  - intros Hb. now rewrite Hb.
Qed.

Lemma C3_single_block_shortcut_witness :
  extractBody (lit "Authorization: {authorization: x}") = Some (lit "{authorization: x}")
  /\ score (scoreBlock (hd (Build_TextBlock [] 0 0 [])
                           (extractBalancedBlocks (lit "Authorization: {authorization: x}"))))
     = (-40)%Z
  /\ extractBody (lit "no braces here }") = None.
Proof.
  split; [|split].
  - refine (proj1 (C3_single_block_shortcut (lit "Authorization: {authorization: x}") _)
                   (Build_TextBlock (lit "{authorization: x}") 15 32 (lit "Authorization: ")) _);
      vm_compute; reflexivity.
  - vm_compute. reflexivity.
  - refine (proj2 (C3_single_block_shortcut (lit "no braces here }") _) _);
      vm_compute; reflexivity.
Defined.

(* ------------------------------------------------------------------ *)
(** ** The logfmt fast path *)

(** C6.  The pattern list has a bare-value pattern for [request_body=] and
    [body=] only: a bare block after [payload=], [data=] or [post_data=]
    is not matched by the fast path, although the same text after [body=]
    is, and although the quoted forms of all five labels are. *)
Theorem C6_bare_value_only_for_body :
  extractBodyFromKeyValue (lit "payload={`id`:1}") = None /\
  extractBodyFromKeyValue (lit "data={`id`:1}") = None /\
  extractBodyFromKeyValue (lit "post_data={`id`:1}") = None /\
  extractBodyFromKeyValue (lit "body={`id`:1}") = Some (lit "{`id`:1}") /\
  extractBodyFromKeyValue (lit "request_body={`id`:1}") = Some (lit "{`id`:1}") /\
  extractBodyFromKeyValue (lit "payload='{`id`:1}'") = Some (lit "{`id`:1}") /\
  extractBodyFromKeyValue (lit "data=`{id:1}`") = Some (lit "{id:1}") /\
  extractBodyFromKeyValue (lit "post_data=`{id:1}`") = Some (lit "{id:1}").
Proof. vm_compute. repeat split. Qed.

(* ------------------------------------------------------------------ *)
(** ** The block scanner: escapes *)

Lemma scan_cons (text : str) (ch : char) (rest : str) (i : nat) (s : scan_state) :
  scan text (ch :: rest) i s =
  if inString s then
    if char_eqb ch bsl then
      match rest with
      | [] => s
      | _ :: rest'' => scan text rest'' (i + 2) s
      end
    else if str_eqb [ch] (stringChar s) then scan text rest (i + 1) (close_string s)
    else scan text rest (i + 1) s
  else scan text rest (i + 1) (scan_outside text i ch s).
Proof. reflexivity. Qed.

Lemma scan_outside_bsl (text : str) (i : nat) (s : scan_state) :
  scan_outside text i bsl s = s.
Proof. reflexivity. Qed.

(** C9 (as amended).  Inside a quoted string a backslash and the character
    after it are skipped together and leave the scanner's state as it was,
    so an escaped quote or brace inside a string changes neither the depth
    nor the string state.  Outside a string a backslash is an ordinary
    character: it is skipped alone and the character after it is read as
    usual. *)
Theorem C9_escape_inside_string_only (text rest : str) (i : nat) (c : char) (s : scan_state) :
  (inString s = true ->
   scan text (bsl :: c :: rest) i s = scan text rest (i + 2) s) /\
  (inString s = false ->
   scan text (bsl :: c :: rest) i s = scan text (c :: rest) (i + 1) s).
Proof.
  split; intro H; rewrite scan_cons, H.
  - reflexivity.
  - now rewrite scan_outside_bsl.
Qed.

Lemma C9_escape_inside_string_only_witness :
  let s := scan (lit "{`a") (lit "{`a") 0 scan_init in
  inString s = true /\ depth s = 1%Z /\
  scan (lit "{`a\}`}") (lit "\}`}") 3 s = scan (lit "{`a\}`}") (lit "`}") 5 s /\
  map content (extractBalancedBlocks (lit "{`a\}`}")) = [lit "{`a\}`}"] /\
  scan (lit "\{") (lit "\{") 0 scan_init = scan (lit "\{") (lit "{") 1 scan_init.
Proof.
  cbv zeta. split; [reflexivity|]. split; [reflexivity|]. split; [|split].
  - apply (proj1 (C9_escape_inside_string_only (lit "{`a\}`}") (lit "`}") 3 (code "}")
                    (scan (lit "{`a") (lit "{`a") 0 scan_init))).
    reflexivity.
  - vm_compute. reflexivity.
  - apply (proj2 (C9_escape_inside_string_only (lit "\{") [] 0 (code "{") scan_init)).
    reflexivity.
Defined.

(** C9 (as stated) fails outside a string: the brace after a backslash
    opens a block and raises the depth, and the quote after a backslash
    opens a string. *)
Lemma C9_escaped_brace_outside_string :
  depth (scan (lit "\{") (lit "\{") 0 scan_init) = 1%Z /\
  map content (extractBalancedBlocks (lit "\{a}")) = [lit "{a}"] /\
  inString (scan (lit "\`") (lit "\`") 0 scan_init) = true /\
  ~ (forall text rest i c s,
       scan text (bsl :: c :: rest) i s = scan text rest (i + 2) s).
Proof.
  split; [reflexivity|]. split; [vm_compute; reflexivity|]. split; [reflexivity|].
  intro H. specialize (H (lit "\{") [] 0 (code "{") scan_init).
  vm_compute in H. discriminate.
Qed.

(* ------------------------------------------------------------------ *)
(** ** Body unwrapping *)

Lemma has_spec (l : list str) (k : str) : has l k = true <-> In k l.
Proof.
  unfold has. rewrite existsb_exists. split.
  - intros (x & Hx & E). apply str_eqb_eq in E. now subst.
  - intro H. exists k. split; [assumption | apply str_eqb_refl].
Qed.

Lemma has_lower_keys (o : list (str * value)) (name : str) :
  has (map toLowerCase (object_keys o)) name = true <-> key_present o name.
Proof.
  rewrite has_spec, in_map_iff. unfold key_present. split.
  - intros (k & E & Hk). now exists k.
  - intros (k & Hk & E). now exists k.
Qed.

Lemma filter_two (p : str -> bool) (l : list str) :
  NoDup l ->
  (2 <= length (filter p l) <->
   exists a b, In a l /\ In b l /\ a <> b /\ p a = true /\ p b = true).
Proof.
  intro ND. split.
  - intro H. destruct (filter p l) as [|a [|b t]] eqn:E; simpl in H; try lia.
    assert (Ha : In a (filter p l)) by (rewrite E; now left).
    assert (Hb : In b (filter p l)) by (rewrite E; right; now left).
    apply filter_In in Ha, Hb. exists a, b. repeat split; try tauto.
    intro Hab. subst b.
    assert (ND' : NoDup (filter p l)) by now apply NoDup_filter.
    rewrite E in ND'. inversion ND' as [|? ? Hn _]. apply Hn. now left.
  - intros (a & b & Ha & Hb & Hab & Pa & Pb).
    assert (Ia : In a (filter p l)) by now apply filter_In.
    assert (Ib : In b (filter p l)) by now apply filter_In.
    destruct (filter p l) as [|x [|y t]]; simpl in *; try lia; try tauto.
    destruct Ia as [->|[]]. destruct Ib as [->|[]]. congruence.
Qed.

Lemma CONFIG_INDICATORS_NoDup : NoDup CONFIG_INDICATORS.
Proof.
  unfold CONFIG_INDICATORS. simpl.
  repeat (constructor; [simpl; intuition discriminate|]). constructor.
Qed.

Lemma hasConfigShape_spec (o : list (str * value)) :
  hasConfigShape o = true <-> two_present CONFIG_INDICATORS o.
Proof.
  unfold hasConfigShape, two_present.
  rewrite Nat.leb_le, (filter_two _ _ CONFIG_INDICATORS_NoDup).
  split; intros (a & b & Ha & Hb & Hab & Pa & Pb); exists a, b;
    repeat split; try assumption; now apply has_lower_keys.
Qed.

(** The key that [find] returns and the value [get] reads from it are the
    first property whose key has the wanted lower-case form. *)
Lemma find_get_first_binding (o : list (str * value)) (bk : str) :
  match find (fun k => str_eqb (toLowerCase k) bk) (object_keys o) with
  | Some rk => toLowerCase rk = bk /\ get o rk = first_binding o bk
  | None => first_binding o bk = None
  end.
Proof.
  induction o as [|[k v] o IH]; simpl; [reflexivity|].
  destruct (str_eqb (toLowerCase k) bk) eqn:E.
  - apply str_eqb_eq in E. now rewrite str_eqb_refl.
  - destruct (find _ (object_keys o)) as [rk|]; [|assumption].
    destruct IH as [L G]. split; [assumption|].
    destruct (str_eqb k rk) eqn:K; [|assumption].
    apply str_eqb_eq in K. subst rk. rewrite L, str_eqb_refl in E. discriminate.
Qed.

Lemma truthy_lower (k name : str) :
  toLowerCase k = name -> name <> [] -> truthy k = true.
Proof. intros <- H. destruct k; [now elim H | reflexivity]. Qed.

(** What the loop over the body-like names returns. *)
Lemma find_body_spec (o : list (str * value)) (bks : list str) :
  ~ In [] bks ->
  (forall pre bk post v,
      bks = pre ++ bk :: post ->
      (forall bk', In bk' pre -> is_object_like (first_binding o bk') = false) ->
      first_binding o bk = Some v -> is_object_like (Some v) = true ->
      find_body o bks = Some v) /\
  ((forall bk, In bk bks -> is_object_like (first_binding o bk) = false) ->
   find_body o bks = None).
Proof.
  induction bks as [|b bks IH]; intro NE.
  - split; [|reflexivity]. intros [|? ?] ? ? ? E; discriminate.
  - assert (NE' : ~ In [] bks) by (intro; apply NE; now right).
    assert (Hb : b <> []) by (intro; apply NE; now left).
    specialize (IH NE'). destruct IH as [IH1 IH2].
    pose proof (find_get_first_binding o b) as F. cbn [find_body].
    split.
    + intros pre bk post v E Hpre Hv Ho. destruct pre as [|p pre].
      * simpl in E. injection E as -> ->.
        destruct (find _ (object_keys o)) as [rk|]; [|congruence].
        destruct F as [L G]. rewrite (truthy_lower _ _ L Hb), G, Hv, Ho. reflexivity.
      * simpl in E. injection E as -> ->.
        assert (Hp : is_object_like (first_binding o p) = false) by (apply Hpre; now left).
        assert (T : find_body o (pre ++ bk :: post) = Some v).
        { apply (IH1 pre bk post v eq_refl); [|assumption|assumption].
          intros bk' H'. apply Hpre. now right. }
        destruct (find _ (object_keys o)) as [rk|]; [|assumption].
        destruct F as [L G]. rewrite G, Hp, andb_false_r. assumption.
    + intro H.
      assert (Hp : is_object_like (first_binding o b) = false) by (apply H; now left).
      assert (T : find_body o bks = None) by (apply IH2; intros; apply H; now right).
      destruct (find _ (object_keys o)) as [rk|]; [|assumption].
      destruct F as [L G]. rewrite G, Hp, andb_false_r. assumption.
Qed.

Lemma BODY_KEYS_nonempty : ~ In [] BODY_KEYS.
Proof. unfold BODY_KEYS. simpl. intuition discriminate. Qed.

(** C7 (as amended).  Anything but an object comes back unchanged.  An
    object comes back unchanged unless two different names among [method],
    [url], [baseurl], [headers], [timeout], [responsetype] are keys of it
    up to case.  When two are, the body-like names [body], [data],
    [payload], [requestbody], [request_body] are tried in this order; for
    each, only the first key equal to it up to case is looked at, and the
    first such value that is an object or an array is returned; without
    one the object comes back unchanged. *)
Theorem C7_unwrap (parsed : value) :
  CONFIG_INDICATORS
    = map raw ["method"; "url"; "baseurl"; "headers"; "timeout"; "responsetype"] /\
  BODY_KEYS = map raw ["body"; "data"; "payload"; "requestbody"; "request_body"] /\
  ((forall o, parsed <> JObj o) -> unwrapBodyIfNeeded parsed = parsed) /\
  (forall o, parsed = JObj o ->
     (~ two_present CONFIG_INDICATORS o -> unwrapBodyIfNeeded parsed = parsed) /\
     (two_present CONFIG_INDICATORS o ->
        (forall pre bk post v,
            BODY_KEYS = pre ++ bk :: post ->
            (forall bk', In bk' pre -> is_object_like (first_binding o bk') = false) ->
            first_binding o bk = Some v -> is_object_like (Some v) = true ->
            unwrapBodyIfNeeded parsed = v) /\
        ((forall bk, In bk BODY_KEYS -> is_object_like (first_binding o bk) = false) ->
         unwrapBodyIfNeeded parsed = parsed))).
Proof.
  split; [reflexivity|]. split; [reflexivity|]. split.
  - intro H. destruct parsed; try reflexivity. now elim (H l).
  - intros o ->. unfold unwrapBodyIfNeeded. split.
    + intro H. destruct (hasConfigShape o) eqn:E; [|reflexivity].
      apply hasConfigShape_spec in E. contradiction.
    + intro H. apply hasConfigShape_spec in H. rewrite H. cbn [negb].
      destruct (find_body_spec o BODY_KEYS BODY_KEYS_nonempty) as [F1 F2]. split.
      * intros pre bk post v E Hpre Hv Ho.
        now rewrite (F1 pre bk post v E Hpre Hv Ho).
      * intro Hn. now rewrite (F2 Hn).
Qed.

Lemma C7_unwrap_witness :
  let nested := JObj [(raw "a", JNum (NFin false 1 0))] in
  let wrapper := [(raw "Method", JStr (raw "POST")); (raw "url", JStr (raw "/x"));
                  (raw "headers", JObj []); (raw "body", JStr (raw "text"));
                  (raw "Data", nested)] in
  let single := [(raw "method", JStr (raw "POST")); (raw "data", nested)] in
  unwrapBodyIfNeeded (JArr [nested]) = JArr [nested] /\
  unwrapBodyIfNeeded (JObj wrapper) = nested /\
  unwrapBodyIfNeeded (JObj single) = JObj single.
Proof.
  intros nested wrapper single. split; [|split].
  - apply (proj1 (proj2 (proj2 (C7_unwrap (JArr [nested]))))). intros o; discriminate.
  - destruct (C7_unwrap (JObj wrapper)) as (_ & _ & _ & H).
    destruct (H wrapper eq_refl) as [_ H2].
    assert (T : two_present CONFIG_INDICATORS wrapper).
    { exists (raw "method"), (raw "url"). repeat split.
      - simpl; tauto.
      - simpl; tauto.
      - discriminate.
      - exists (raw "Method"). split; [simpl; tauto | reflexivity].
      - exists (raw "url"). split; [simpl; tauto | reflexivity]. }
    destruct (H2 T) as [H3 _].
    apply (H3 [raw "body"] (raw "data") (map raw ["payload"; "requestbody"; "request_body"])
              nested eq_refl).
    + intros bk' [<-|[]]. reflexivity.
    + reflexivity.
    + reflexivity.
  - destruct (C7_unwrap (JObj single)) as (_ & _ & _ & H).
    destruct (H single eq_refl) as [H1 _]. apply H1.
    intros (a & b & Ha & Hb & Hab & (ka & Ia & Ea) & (kb & Ib & Eb)).
    simpl in Ia, Ib.
    destruct Ia as [<-|[<-|[]]]; destruct Ib as [<-|[<-|[]]]; subst a b;
      simpl in Ha, Hb; try (now elim Hab);
      repeat (destruct Ha as [Ha|Ha]; try discriminate Ha);
      repeat (destruct Hb as [Hb|Hb]; try discriminate Hb); try contradiction.
Defined.

(** C7 (as stated) fails on the names: the code counts [baseurl] and
    [responsetype], not [base-url] and [response-type].  An object with the
    keys [method] and [base-url] has two of the names the claim lists, and
    its [data] is an object, yet it comes back unchanged. *)
Lemma C7_claimed_names_counterexample :
  let claimed := map raw ["method"; "url"; "base-url"; "headers"; "timeout";
                          "response-type"] in
  let nested := JObj [(raw "a", JNum (NFin false 1 0))] in
  let o := [(raw "method", JStr (raw "POST")); (raw "base-url", JStr (raw "/x"));
            (raw "data", nested)] in
  two_present claimed o /\
  first_binding o (raw "data") = Some nested /\
  is_object_like (Some nested) = true /\
  unwrapBodyIfNeeded (JObj o) = JObj o /\
  unwrapBodyIfNeeded (JObj o) <> nested.
Proof.
  intros claimed nested o. split; [|split; [|split; [|split]]].
  - exists (raw "method"), (raw "base-url"). repeat split.
    + simpl; tauto.
    + simpl; tauto.
    + discriminate.
    + exists (raw "method"). split; [simpl; tauto | reflexivity].
    + exists (raw "base-url"). split; [simpl; tauto | reflexivity].
  - reflexivity.
  - reflexivity.
  - vm_compute. reflexivity.
  - vm_compute. discriminate.
Qed.

Lemma first_binding_absent (o : list (str * value)) (name : str) :
  ~ key_present o name -> first_binding o name = None.
Proof.
  induction o as [|[k v] o IH]; intro H; simpl; [reflexivity|].
  destruct (str_eqb (toLowerCase k) name) eqn:E.
  - apply str_eqb_eq in E. elim H. exists k. split; [now left | assumption].
  - apply IH. intros (k' & I & L). apply H. exists k'. split; [now right | assumption].
Qed.

(** C10.  In an object with two config-indicator keys, when the first
    body-like name that is a key at all is bound to an array, that array
    is returned: the check [typeof v === 'object' && v !== null] accepts
    arrays. *)
Theorem C10_unwrap_returns_array
        (o : list (str * value)) (pre post : list str) (bk : str) (a : list value) :
  two_present CONFIG_INDICATORS o ->
  BODY_KEYS = pre ++ bk :: post ->
  (forall bk', In bk' pre -> ~ key_present o bk') ->
  first_binding o bk = Some (JArr a) ->
  unwrapBodyIfNeeded (JObj o) = JArr a.
Proof.
  intros T E Hpre Hv. unfold unwrapBodyIfNeeded.
  apply hasConfigShape_spec in T. rewrite T. cbn [negb].
  destruct (find_body_spec o BODY_KEYS BODY_KEYS_nonempty) as [F _].
  rewrite (F pre bk post (JArr a) E); [reflexivity| |assumption|reflexivity].
  intros bk' I. now rewrite (first_binding_absent o bk' (Hpre bk' I)).
Qed.

Lemma C10_unwrap_returns_array_witness :
  let o := [(raw "method", JStr (raw "POST")); (raw "url", JStr (raw "/x"));
            (raw "data", JArr [JBool true; JNull])] in
  unwrapBodyIfNeeded (JObj o) = JArr [JBool true; JNull].
Proof.
  intro o.
  apply (C10_unwrap_returns_array o [raw "body"] (map raw ["payload"; "requestbody"; "request_body"])
           (raw "data") [JBool true; JNull]).
  - exists (raw "method"), (raw "url"). repeat split.
    + simpl; tauto.
    + simpl; tauto.
    + discriminate.
    + exists (raw "method"). split; [simpl; tauto | reflexivity].
    + exists (raw "url"). split; [simpl; tauto | reflexivity].
  - reflexivity.
  - intros bk' [<-|[]] (k & I & L). simpl in I.
    destruct I as [<-|[<-|[<-|[]]]]; discriminate L.
  - reflexivity.
Defined.

(* ------------------------------------------------------------------ *)
(** ** Body selection: ties *)

Lemma block_scoreBlock (b : TextBlock) : block (scoreBlock b) = b.
Proof.
  unfold scoreBlock.
  repeat match goal with
         | |- context [if ?c then _ else _] => destruct c
         end; reflexivity.
Qed.

Lemma insert_desc_In (x y : ScoredBlock) (l : list ScoredBlock) :
  In y (insert_desc x l) <-> y = x \/ In y l.
Proof.
  induction l as [|z l IH]; simpl.
  - intuition.
  - destruct (score x <? score z)%Z; simpl; rewrite ?IH; intuition.
Qed.

Lemma sort_desc_In (y : ScoredBlock) (l : list ScoredBlock) :
  In y (sort_desc l) <-> In y l.
Proof.
  induction l as [|x l IH]; simpl; [tauto|].
  rewrite insert_desc_In, IH. intuition.
Qed.

Lemma insert_desc_length (x : ScoredBlock) (l : list ScoredBlock) :
  length (insert_desc x l) = S (length l).
Proof.
  induction l as [|z l IH]; simpl; [reflexivity|].
  destruct (score x <? score z)%Z; simpl; now rewrite ?IH.
Qed.

Lemma sort_desc_length (l : list ScoredBlock) : length (sort_desc l) = length l.
Proof.
  induction l as [|x l IH]; simpl; [reflexivity|].
  now rewrite insert_desc_length, IH.
Qed.

Lemma insert_desc_descending (x : ScoredBlock) (l : list ScoredBlock) :
  descending l -> descending (insert_desc x l).
Proof.
  induction l as [|z l IH]; intro D; simpl.
  - split; [intros y []|exact I].
  - destruct D as [Hz D]. destruct (score x <? score z)%Z eqn:E.
    + split; [|now apply IH].
      simpl. intros y Hy. apply insert_desc_In in Hy. destruct Hy as [->|Hy].
      * apply Z.ltb_lt in E. lia.
      * now apply Hz.
    + apply Z.ltb_ge in E. split; [|split; assumption].
      simpl. intros y [<-|Hy]; [assumption|].
      specialize (Hz y Hy). lia.
Qed.

Lemma sort_desc_descending (l : list ScoredBlock) : descending (sort_desc l).
Proof.
  induction l as [|x l IH]; simpl; [exact I|]. now apply insert_desc_descending.
Qed.

(** Stability: blocks of one score keep their order. *)
Lemma insert_desc_filter (t : Z) (x : ScoredBlock) (l : list ScoredBlock) :
  filter (has_score t) (insert_desc x l) = filter (has_score t) (x :: l).
Proof.
  induction l as [|z l IH]; simpl; [reflexivity|].
  destruct (score x <? score z)%Z eqn:E; [|reflexivity].
  simpl. rewrite IH. simpl. unfold has_score.
  destruct (score x =? t)%Z eqn:X; destruct (score z =? t)%Z eqn:Y; try reflexivity.
  apply Z.eqb_eq in X, Y. apply Z.ltb_lt in E. lia.
Qed.

Lemma sort_desc_filter (t : Z) (l : list ScoredBlock) :
  filter (has_score t) (sort_desc l) = filter (has_score t) l.
Proof.
  induction l as [|x l IH]; simpl; [reflexivity|].
  rewrite insert_desc_filter. simpl. now rewrite IH.
Qed.


(** [reduce] with [fewer_headers] returns the first of the entries with the
    fewest header keys. *)
Lemma fold_fewer_headers (ts pre post0 : list ScoredBlock) (acc : ScoredBlock) :
  let h s := headerKeyCount (content (block s)) in
  (forall x, In x pre -> h acc < h x) ->
  (forall x, In x post0 -> h acc <= h x) ->
  exists pre' post',
    pre ++ acc :: post0 ++ ts = pre' ++ fold_left fewer_headers ts acc :: post' /\
    (forall x, In x pre' -> h (fold_left fewer_headers ts acc) < h x) /\
    (forall x, In x post' -> h (fold_left fewer_headers ts acc) <= h x).
Proof.
  intro h. revert pre post0 acc.
  induction ts as [|c ts IH]; intros pre post0 acc Hpre Hpost.
  - exists pre, post0. rewrite app_nil_r. simpl. auto.
  - simpl. unfold fewer_headers at 2 4 6. fold (h c). fold (h acc).
    destruct (h c <? h acc) eqn:E.
    + apply Nat.ltb_lt in E.
      destruct (IH (pre ++ acc :: post0) [] c) as (pre' & post' & Eq & P1 & P2).
      * intros x Hx. apply in_app_or in Hx. destruct Hx as [Hx|[<-|Hx]].
        -- specialize (Hpre x Hx). lia.
        -- assumption.
        -- specialize (Hpost x Hx). lia.
      * intros x [].
      * exists pre', post'. split; [|split; assumption].
        rewrite <- Eq. simpl. rewrite <- app_assoc. reflexivity.
    + apply Nat.ltb_ge in E.
      destruct (IH pre (post0 ++ [c]) acc) as (pre' & post' & Eq & P1 & P2).
      * assumption.
      * intros x Hx. apply in_app_or in Hx. destruct Hx as [Hx|[<-|[]]].
        -- now apply Hpost.
        -- assumption.
      * exists pre', post'. split; [|split; assumption].
        rewrite <- Eq. rewrite <- app_assoc. reflexivity.
Qed.

Lemma filter_eq_app_cons (A : Type) (p : A -> bool) (l l1 l2 : list A) (x : A) :
  filter p l = l1 ++ x :: l2 ->
  exists m1 m2, l = m1 ++ x :: m2 /\ filter p m1 = l1 /\ filter p m2 = l2.
Proof.
  revert l1. induction l as [|y l IH]; intros l1 E; simpl in E.
  - destruct l1; discriminate.
  - destruct (p y) eqn:Py.
    + destruct l1 as [|z l1]; simpl in E.
      * injection E as -> E. exists [], l. simpl. auto.
      * injection E as -> E. destruct (IH l1 E) as (m1 & m2 & -> & F1 & F2).
        exists (z :: m1), m2. simpl. rewrite Py, F1. auto.
    + destruct (IH l1 E) as (m1 & m2 & -> & F1 & F2).
      exists (y :: m1), m2. simpl. rewrite Py. auto.
Qed.

Lemma filter_map_scoreBlock (t : Z) (bs : list TextBlock) :
  filter (fun s => (score s =? t)%Z) (map scoreBlock bs)
  = map scoreBlock (filter (fun b => (sc b =? t)%Z) bs).
Proof.
  induction bs as [|b bs IH]; simpl; [reflexivity|].
  unfold sc at 1. destruct (score (scoreBlock b) =? t)%Z; simpl; now rewrite IH.
Qed.

(** With two blocks or more, the choice is made on the sorted scores. *)
Lemma extractBody_many (text : str) :
  extractBodyFromKeyValue text = None ->
  2 <= length (extractBalancedBlocks text) ->
  extractBody text =
  match sort_desc (map scoreBlock (extractBalancedBlocks text)) with
  | s0 :: s1 :: _ =>
      if (score s1 <? score s0)%Z then Some (content (block s0))
      else
        match filter (fun s => (score s =? score s0)%Z)
                     (sort_desc (map scoreBlock (extractBalancedBlocks text))) with
        | t :: ts => Some (content (block (fold_left fewer_headers ts t)))
        | [] => None
        end
  | _ => None
  end.
Proof.
  intros Hkv Hlen. unfold extractBody. rewrite Hkv. cbn [truthy_opt].
  destruct (extractBalancedBlocks text) as [|x0 [|x1 bs]]; simpl in Hlen; try lia.
  reflexivity.
Qed.

(** The choice made among the blocks when two of them share the top score. *)
Lemma extractBody_tie (text : str) (top : Z) (l1 l2 l3 : list TextBlock)
      (b1 b2 : TextBlock) :
  extractBodyFromKeyValue text = None ->
  extractBalancedBlocks text = l1 ++ b1 :: l2 ++ b2 :: l3 ->
  sc b1 = top -> sc b2 = top ->
  (forall b, In b (extractBalancedBlocks text) -> (sc b <= top)%Z) ->
  exists pre b post,
    extractBalancedBlocks text = pre ++ b :: post /\ sc b = top /\
    extractBody text = Some (content b) /\
    (forall x, In x pre -> sc x = top -> hc b < hc x) /\
    (forall x, In x post -> sc x = top -> hc b <= hc x).
Proof.
  intros Hkv Hbs H1 H2 Hmax.
  assert (Hbs2 : 2 <= length (extractBalancedBlocks text)).
  { rewrite Hbs, length_app. simpl. rewrite length_app. simpl. lia. }
  rewrite (extractBody_many text Hkv Hbs2).
  remember (extractBalancedBlocks text) as bs eqn:Ebs.
  set (p := fun s : ScoredBlock => (score s =? top)%Z).
  set (q := fun b : TextBlock => (sc b =? top)%Z).
  assert (Hfilter : filter p (sort_desc (map scoreBlock bs)) = map scoreBlock (filter q bs)).
  { unfold p. rewrite (sort_desc_filter top). apply filter_map_scoreBlock. }
  assert (Htwo : 2 <= length (filter p (sort_desc (map scoreBlock bs)))).
  { rewrite Hfilter, length_map, Hbs, filter_app. simpl. unfold q at 2.
    rewrite H1, Z.eqb_refl, filter_app. simpl. unfold q at 3. rewrite H2, Z.eqb_refl.
    rewrite length_app. simpl. rewrite length_app. simpl. lia. }
  assert (Hlen : length (sort_desc (map scoreBlock bs)) = length bs)
    by now rewrite sort_desc_length, length_map.
  assert (Hin : forall s, In s (sort_desc (map scoreBlock bs)) -> (score s <= top)%Z).
  { intros s Hs. apply sort_desc_In, in_map_iff in Hs.
    destruct Hs as (b & <- & Hb). now apply Hmax. }
  pose proof (sort_desc_descending (map scoreBlock bs)) as Hdesc.
  destruct (sort_desc (map scoreBlock bs)) as [|s0 [|s1 srest]] eqn:Es;
    try (simpl in Hlen; lia).
  (* both heads have the top score *)
  assert (T0 : score s0 = top).
  { destruct (filter p (s0 :: s1 :: srest)) as [|y ys] eqn:F; [simpl in Htwo; lia|].
    assert (Hy : In y (filter p (s0 :: s1 :: srest))) by (rewrite F; now left).
    apply filter_In in Hy. destruct Hy as [Iy Py]. unfold p in Py. apply Z.eqb_eq in Py.
    assert (score s0 <= top)%Z by (apply Hin; now left).
    destruct Hdesc as [Hd _]. simpl in Hd.
    destruct Iy as [<-|Iy]; [assumption|]. specialize (Hd y Iy). lia. }
  assert (T1 : score s1 = top).
  { simpl in Htwo. unfold p at 1 in Htwo. rewrite T0, Z.eqb_refl in Htwo.
    destruct (p s1) eqn:P1; [unfold p in P1; now apply Z.eqb_eq in P1|].
    destruct (filter p srest) as [|y ys] eqn:F; [simpl in Htwo; lia|].
    assert (Hy : In y (filter p srest)) by (rewrite F; now left).
    apply filter_In in Hy. destruct Hy as [Iy Py]. unfold p in Py. apply Z.eqb_eq in Py.
    assert (score s1 <= top)%Z by (apply Hin; right; now left).
    destruct Hdesc as [_ [Hd _]]. simpl in Hd. specialize (Hd y Iy). lia. }
  replace (score s1 <? score s0)%Z with false by (symmetry; apply Z.ltb_ge; lia).
  rewrite T0. fold p. rewrite Hfilter.
  destruct (map scoreBlock (filter q bs)) as [|t ts] eqn:Et.
  { rewrite Hfilter in Htwo. simpl in Htwo. lia. }
  destruct (fold_fewer_headers ts [] [] t) as (pre' & post' & Eq & P1 & P2);
    try (intros ? []).
  simpl in Eq. rewrite <- Et in Eq.
  remember (fold_left fewer_headers ts t) as r eqn:Er.
  apply map_eq_app in Eq. destruct Eq as (fpre & frest & Ef & Epre & Erest).
  destruct frest as [|b fpost]; [discriminate|]. simpl in Erest.
  injection Erest as Eb Epost.
  assert (Ib : In b (filter q bs)) by (rewrite Ef; apply in_elt).
  apply filter_eq_app_cons in Ef. destruct Ef as (m1 & m2 & Em & F1 & F2).
  exists m1, b, m2.
  assert (Rb : block r = b) by (rewrite <- Eb; apply block_scoreBlock).
  split; [assumption|]. split.
  { apply filter_In in Ib. destruct Ib as [_ Ib]. unfold q in Ib. now apply Z.eqb_eq in Ib. }
  split; [now rewrite Rb|].
  split.
  - intros x Hx Sx.
    assert (Ix : In (scoreBlock x) pre').
    { rewrite <- Epre. apply in_map. rewrite <- F1. apply filter_In.
      split; [assumption|]. unfold q. now apply Z.eqb_eq. }
    specialize (P1 _ Ix). rewrite Rb, block_scoreBlock in P1. exact P1.
  - intros x Hx Sx.
    assert (Ix : In (scoreBlock x) post').
    { rewrite <- Epost. apply in_map. rewrite <- F2. apply filter_In.
      split; [assumption|]. unfold q. now apply Z.eqb_eq. }
    specialize (P2 _ Ix). rewrite Rb, block_scoreBlock in P2. exact P2.
Qed.

(** C8.  When the fast path finds nothing and two or more blocks share the
    top score, the content returned is that of a tied block [b] such that
    every tied block found before [b] has more header-vocabulary keys and
    every tied block found after [b] has at least as many: the fewest
    header keys win, and among equals the first found.  In particular, of
    two same-scoring blocks with 3 and 0 header keys, the one with 0 is
    returned, in either order. *)
Theorem C8_tie_break (text : str) (top : Z) (l1 l2 l3 : list TextBlock)
        (b1 b2 : TextBlock) :
  extractBodyFromKeyValue text = None ->
  extractBalancedBlocks text = l1 ++ b1 :: l2 ++ b2 :: l3 ->
  sc b1 = top -> sc b2 = top ->
  (forall b, In b (extractBalancedBlocks text) -> (sc b <= top)%Z) ->
  (exists pre b post,
      extractBalancedBlocks text = pre ++ b :: post /\ sc b = top /\
      extractBody text = Some (content b) /\
      (forall x, In x pre -> sc x = top -> hc b < hc x) /\
      (forall x, In x post -> sc x = top -> hc b <= hc x)) /\
  (l1 = [] -> l2 = [] -> l3 = [] ->
   (hc b1 = 3 -> hc b2 = 0 -> extractBody text = Some (content b2)) /\
   (hc b1 = 0 -> hc b2 = 3 -> extractBody text = Some (content b1))).
Proof.
  intros Hkv Hbs H1 H2 Hmax.
  pose proof (extractBody_tie text top l1 l2 l3 b1 b2 Hkv Hbs H1 H2 Hmax) as T.
  split; [exact T|].
  intros -> -> ->. simpl in Hbs.
  destruct T as (pre & b & post & E & Sb & R & P1 & P2).
  rewrite Hbs in E.
  assert (C : (pre = [] /\ b = b1 /\ post = [b2]) \/ (pre = [b1] /\ b = b2 /\ post = [])).
  { destruct pre as [|x [|y pre]]; simpl in E.
    - inversion E; subst. now left.
    - inversion E; subst. now right.
    - inversion E as [[E1 E2 E3]]. destruct pre; discriminate. }
  destruct C as [(-> & -> & ->)|(-> & -> & ->)]; split; intros A B.
  - specialize (P2 b2 (or_introl eq_refl) H2). lia.
  - assumption.
  - assumption.
  - specialize (P1 b1 (or_introl eq_refl) H1). lia.
Qed.

Lemma C8_tie_break_witness :
  let text := lit "body: {authorization: x, accept: y, host: z, a: 1, b: 2, c: 3, d: 4}|body: {extra: 1, a: 2, b: 3, c: 4}" in
  let b1 := nth 0 (extractBalancedBlocks text) (Build_TextBlock [] 0 0 []) in
  let b2 := nth 1 (extractBalancedBlocks text) (Build_TextBlock [] 0 0 []) in
  sc b1 = 55%Z /\ sc b2 = 55%Z /\ hc b1 = 3 /\ hc b2 = 0 /\
  extractBody text = Some (lit "{extra: 1, a: 2, b: 3, c: 4}").
Proof.
  intros text b1 b2.
  assert (Hbs : extractBalancedBlocks text = [] ++ b1 :: [] ++ b2 :: [])
    by (vm_compute; reflexivity).
  assert (S1 : sc b1 = 55%Z) by (vm_compute; reflexivity).
  assert (S2 : sc b2 = 55%Z) by (vm_compute; reflexivity).
  assert (C1 : hc b1 = 3) by (vm_compute; reflexivity).
  assert (C2 : hc b2 = 0) by (vm_compute; reflexivity).
  repeat (split; [assumption|]).
  assert (Hkv : extractBodyFromKeyValue text = None) by (vm_compute; reflexivity).
  assert (Hmax : forall b, In b (extractBalancedBlocks text) -> (sc b <= 55)%Z).
  { intros b Hb. rewrite Hbs in Hb. simpl in Hb.
    destruct Hb as [<-|[<-|[]]]; [rewrite S1|rewrite S2]; lia. }
  exact (proj1 (proj2 (C8_tie_break text 55 [] [] [] b1 b2 Hkv Hbs S1 S2 Hmax)
                  eq_refl eq_refl eq_refl) C1 C2).
Defined.

(* ------------------------------------------------------------------ *)
(** ** The matcher and what a pattern matches *)

Lemma aligned_refl (st : cursor) : aligned st st.
Proof. unfold aligned. lia. Qed.

Lemma aligned_trans (a b c : cursor) : aligned a b -> aligned b c -> aligned a c.
Proof. unfold aligned. lia. Qed.

(** Every result of the matcher comes from a match that the continuation
    accepted. *)
Lemma star_loop_sound (fl : flags) (r : regex) :
  (forall st k x, m fl r st k = Some x ->
     exists st', matches fl r (here st) (here st') /\ aligned st st' /\ k st' = Some x) ->
  forall n st k x, star_loop (m fl r) k n st = Some x ->
     exists st', matches fl (Star r) (here st) (here st') /\ aligned st st' /\ k st' = Some x.
Proof.
  intros IH n. induction n as [|n IHn]; intros st k x H; simpl in H.
  - exists st. split; [constructor|]. split; [apply aligned_refl|assumption].
  - destruct (m fl r st _) as [y|] eqn:E.
    + injection H as ->. apply IH in E. destruct E as (st1 & M1 & A1 & K1).
      destruct (pos st1 =? pos st) eqn:P; [discriminate|].
      apply Nat.eqb_neq in P. apply IHn in K1.
      destruct K1 as (st' & M2 & A2 & K2). exists st'.
      split; [|split; [eapply aligned_trans; eassumption|assumption]].
      eapply M_StarS; [exact M1| |exact M2].
      unfold aligned in A1. simpl. lia.
    + exists st. split; [constructor|]. split; [apply aligned_refl|assumption].
Qed.

Lemma m_sound (fl : flags) (r : regex) :
  forall st k x, m fl r st k = Some x ->
    exists st', matches fl r (here st) (here st') /\ aligned st st' /\ k st' = Some x.
Proof.
  induction r as [|neg items|r1 IH1 r2 IH2|r1 IH1 r2 IH2|r IH|i r IH| | | |r IH];
    intros st k x H; simpl in H.
  - exists st. split; [constructor|]. split; [apply aligned_refl|assumption].
  - destruct st as [pv rs ps cs]. simpl in H. destruct rs as [|c tl]; [discriminate|].
    destruct (xorb neg (class_mem fl items c)) eqn:E; [|discriminate].
    exists (step c tl (Build_cursor pv (c :: tl) ps cs)). split; [|split].
    + unfold here. simpl. now constructor.
    + unfold aligned. simpl. lia.
    + assumption.
  - apply IH1 in H. destruct H as (st1 & M1 & A1 & H).
    apply IH2 in H. destruct H as (st2 & M2 & A2 & H).
    exists st2. split; [econstructor; eassumption|].
    split; [eapply aligned_trans; eassumption|assumption].
  - destruct (m fl r1 st k) as [y|] eqn:E.
    + injection H as ->. apply IH1 in E. destruct E as (st1 & M1 & A1 & K1).
      exists st1. split; [now apply M_AltL|]. now split.
    + apply IH2 in H. destruct H as (st1 & M1 & A1 & K1).
      exists st1. split; [now apply M_AltR|]. now split.
  - eapply star_loop_sound; eassumption.
  - apply IH in H. destruct H as (st1 & M1 & A1 & K1).
    exists (add_cap i (pos st) st1). split; [|split].
    + now constructor.
    + exact A1.
    + assumption.
  - destruct (at_bol fl st) eqn:E; [|discriminate].
    exists st. split; [now constructor|]. split; [apply aligned_refl|assumption].
  - destruct (at_eol fl st) eqn:E; [|discriminate].
    exists st. split; [now constructor|]. split; [apply aligned_refl|assumption].
  - destruct (xorb (word_before st) (word_after st)) eqn:E; [|discriminate].
    exists st. split; [now constructor|]. split; [apply aligned_refl|assumption].
  - destruct (m fl r st (fun st' => Some st')) as [st1|] eqn:E; [|discriminate].
    apply IH in E. destruct E as (st2 & M2 & _ & _).
    exists (with_caps (caps st1) st). split; [|split].
    + apply M_Ahead with (q := here st2). exact M2.
    + unfold aligned. simpl. lia.
    + assumption.
Qed.

(** Every match that the continuation would accept makes the matcher
    succeed. *)
Lemma m_complete (fl : flags) (r : regex) (p q : place) :
  matches fl r p q ->
  forall st k,
    here st = p ->
    (forall st', here st' = q -> aligned st st' -> exists y, k st' = Some y) ->
    (exists y, m fl r st k = Some y) /\
    (forall r1 n, r = Star r1 -> length (rest st) <= n ->
                  exists y, star_loop (m fl r1) k n st = Some y).
Proof.
  induction 1 as [p|neg items pv c tl E|r1 r2 p q t M1 IH1 M2 IH2|r1 r2 p q M1 IH1
                  |r1 r2 p q M2 IH2|r p|r p q t M1 IH1 L M2 IH2|i r p q M1 IH1
                  |p E|p E|p E|r p q M1 IH1];
    intros st k Hst Hk; (split; [|try solve [intros ? ? [=]]]).
  - simpl. apply Hk; [assumption|apply aligned_refl].
  - destruct st as [pv' rs ps cs]. unfold here in Hst. simpl in Hst.
    injection Hst as -> ->. simpl. rewrite E. apply Hk.
    + reflexivity.
    + unfold aligned. simpl. lia.
  - simpl. apply (IH1 st _ Hst). intros st1 H1 A1.
    apply (IH2 st1 k H1). intros st2 H2 A2. apply Hk; [assumption|].
    eapply aligned_trans; eassumption.
  - simpl. destruct (proj1 (IH1 st k Hst Hk)) as [y ->]. now exists y.
  - simpl. destruct (m fl r1 st k) as [y|]; [now exists y|].
    apply (IH2 st k Hst Hk).
  - simpl. destruct (length (rest st)); simpl.
    + apply Hk; [assumption|apply aligned_refl].
    + destruct (m fl r st _) as [y|]; [now exists y|].
      apply Hk; [assumption|apply aligned_refl].
  - intros r1 n [= <-] Hn. destruct n; simpl.
    + apply Hk; [assumption|apply aligned_refl].
    + destruct (m fl r st _) as [y|]; [now exists y|].
      apply Hk; [assumption|apply aligned_refl].
  - assert (G : forall n, length (rest st) <= n ->
                          exists y, star_loop (m fl r) k n st = Some y).
    { intros n Hn. subst p. unfold here in L. simpl in L.
      destruct n as [|n]; [lia|]. simpl.
      assert (C : forall st1, here st1 = q -> aligned st st1 ->
                  exists y, (if pos st1 =? pos st then None
                             else star_loop (m fl r) k n st1) = Some y).
      { intros st1 H1 A1. subst q. simpl in L.
        replace (pos st1 =? pos st) with false
          by (symmetry; apply Nat.eqb_neq; unfold aligned in A1; lia).
        apply (proj2 (IH2 st1 k eq_refl
                 (fun st' H' A' => Hk st' H' (aligned_trans _ _ _ A1 A'))) r n eq_refl).
        unfold aligned in A1. lia. }
      destruct (proj1 (IH1 st _ eq_refl C)) as [y Hy].
      rewrite Hy. now exists y. }
    simpl. apply G. lia.
  - intros r1 n [= <-] Hn.
    subst p. unfold here in L. simpl in L.
    destruct n as [|n]; [lia|]. simpl.
    assert (C : forall st1, here st1 = q -> aligned st st1 ->
                exists y, (if pos st1 =? pos st then None
                           else star_loop (m fl r) k n st1) = Some y).
    { intros st1 H1 A1. subst q. simpl in L.
      replace (pos st1 =? pos st) with false
        by (symmetry; apply Nat.eqb_neq; unfold aligned in A1; lia).
      apply (proj2 (IH2 st1 k eq_refl
               (fun st' H' A' => Hk st' H' (aligned_trans _ _ _ A1 A'))) r n eq_refl).
      unfold aligned in A1. lia. }
    destruct (proj1 (IH1 st _ eq_refl C)) as [y Hy].
    rewrite Hy. now exists y.
  - simpl. apply (IH1 st _ Hst). intros st1 H1 A1. apply Hk; [exact H1|exact A1].
  - simpl. subst p. change (at_bol fl st) with (bol_at fl (here st)). rewrite E.
    apply Hk; [reflexivity|apply aligned_refl].
  - simpl. subst p. change (at_eol fl st) with (eol_at fl (here st)). rewrite E.
    apply Hk; [reflexivity|apply aligned_refl].
  - simpl. subst p.
    change (xorb (word_before st) (word_after st)) with (boundary_at (here st)).
    rewrite E. apply Hk; [reflexivity|apply aligned_refl].
  - simpl. destruct (proj1 (IH1 st (fun st' => Some st') Hst
                              (fun st' _ _ => ex_intro _ st' eq_refl))) as [y ->].
    apply Hk; [assumption|unfold aligned; simpl; lia].
Qed.

Lemma search_spec (fl : flags) (r : regex) (s : str) :
  forall pv p,
    search fl r pv s p <> None <->
    exists a b q, s = a ++ b /\ matches fl r (before pv a, b) q.
Proof.
  induction s as [|c s IH]; intros pv p; simpl.
  - destruct (m fl r _ _) as [st'|] eqn:E.
    + split; [intros _|discriminate].
      apply m_sound in E. destruct E as (st1 & M1 & _ & _).
      exists [], [], (here st1). split; [reflexivity|exact M1].
    + split; [intro H; now elim H|].
      intros (a & b & q & Eab & M1). destruct a; [|discriminate]. simpl in Eab. subst b.
      destruct (proj1 (m_complete fl r _ _ M1 (Build_cursor pv [] p []) (fun st => Some st)
                         eq_refl (fun st' _ _ => ex_intro _ st' eq_refl))) as [y Hy].
      simpl in Hy. congruence.
  - destruct (m fl r _ _) as [st'|] eqn:E.
    + split; [intros _|discriminate].
      apply m_sound in E. destruct E as (st1 & M1 & _ & _).
      exists [], (c :: s), (here st1). split; [reflexivity|exact M1].
    + rewrite IH. split.
      * intros (a & b & q & -> & M1). exists (c :: a), b, q. split; [reflexivity|exact M1].
      * intros (a & b & q & Eab & M1). destruct a as [|c' a].
        -- simpl in Eab. subst b.
           destruct (proj1 (m_complete fl r _ _ M1 (Build_cursor pv (c :: s) p [])
                              (fun st => Some st) eq_refl
                              (fun st' _ _ => ex_intro _ st' eq_refl))) as [y Hy].
           simpl in Hy. congruence.
        -- injection Eab as -> ->. exists a, b, q. split; [reflexivity|exact M1].
Qed.

(** [re.test(s)] holds exactly when the pattern matches from some place of
    [s]. *)
Lemma test_spec (fl : flags) (r : regex) (s : str) :
  test fl r s = true <->
  exists a b q, s = a ++ b /\ matches fl r (before None a, b) q.
Proof.
  rewrite <- (search_spec fl r s None 0).
  unfold test, exec, exec_from. simpl.
  destruct (search fl r None s 0); split; intro H; try reflexivity; try discriminate.
  now elim H.
Qed.

Lemma matches_lit (fl : flags) (x : char) (p q : place) :
  ignoreCase fl = false ->
  matches fl (Chars false [CLit x]) p q -> snd p = x :: snd q.
Proof.
  intros I H. inversion H as [|? ? ? c ? E| | | | | | | | | |]; subst. simpl.
  unfold class_mem in E. rewrite I in E. simpl in E.
  rewrite !orb_false_r in E. apply char_eqb_eq in E. now subst.
Qed.

Lemma class_mem_digit (fl : flags) (c : char) :
  class_mem fl [CDigit] c = true -> is_digit c = true.
Proof.
  unfold class_mem. simpl. rewrite !orb_false_r.
  destruct (is_digit c) eqn:D; [reflexivity|]. simpl.
  destruct (ignoreCase fl); simpl; [|discriminate].
  unfold swapcase. destruct (is_upper c) eqn:U.
  - unfold is_upper, is_digit, between in *. intro H.
    apply andb_true_iff in U. destruct U as [U1 U2].
    apply andb_true_iff in H. destruct H as [V1 V2].
    apply N.leb_le in U1, U2, V1, V2. lia.
  - destruct (is_lower c) eqn:Lw; [|congruence].
    unfold is_lower, is_digit, between in *. intro H.
    apply andb_true_iff in Lw. destruct Lw as [U1 U2].
    apply andb_true_iff in H. destruct H as [V1 V2].
    apply N.leb_le in U1, U2, V1, V2. lia.
Qed.

Lemma matches_star_digits (fl : flags) (p q : place) :
  matches fl (Star (Chars false [CDigit])) p q ->
  exists d, snd p = d ++ snd q /\ Forall (fun c => is_digit c = true) d.
Proof.
  intro H. remember (Star (Chars false [CDigit])) as r eqn:Er.
  induction H; try discriminate.
  - exists []. split; [reflexivity|constructor].
  - injection Er as ->. destruct (IHmatches2 eq_refl) as (d & E & F).
    inversion H as [|? ? ? c ? Hc| | | | | | | | | |]; subst. simpl in *.
    exists (c :: d). split; [now rewrite E|].
    constructor; [|assumption]. now apply (class_mem_digit fl).
Qed.

Lemma star_digits_matches (fl : flags) (d : str) (pv : option char) (tl : str) :
  Forall (fun c => is_digit c = true) d ->
  matches fl (Star (Chars false [CDigit])) (pv, d ++ tl) (before pv d, tl).
Proof.
  intro F. revert pv. induction F as [|c d Hc F IH]; intro pv; simpl.
  - constructor.
  - eapply M_StarS; [| |apply IH].
    + constructor. unfold class_mem. simpl. now rewrite Hc.
    + simpl. lia.
Qed.

(** [/:\d*80$/] holds of a host exactly when its port ends in 80. *)
Lemma port80_spec (host : str) :
  test no_flags re_port80 host = true <-> port_ends_80 host.
Proof.
  rewrite test_spec. unfold port_ends_80, re_port80. split.
  - intros (a & b & q & -> & M).
    inversion M as [| |? ? ? q1 ? M1 M2| | | | | | | | |]; subst.
    inversion M2 as [| |? ? ? q2 ? M3 M4| | | | | | | | |]; subst.
    inversion M4 as [| |? ? ? q3 ? M5 M6| | | | | | | | |]; subst.
    inversion M6; subst.
    unfold Str in M5. simpl in M5.
    inversion M5 as [| |? ? ? q4 ? M7 M8| | | | | | | | |]; subst.
    apply matches_star_digits in M3. destruct M3 as (d & E & F).
    apply (matches_lit no_flags _ _ _ eq_refl) in M1.
    apply (matches_lit no_flags _ _ _ eq_refl) in M7.
    apply (matches_lit no_flags _ _ _ eq_refl) in M8.
    rename M1 into E1, M7 into E7, M8 into E8.
    simpl in *. unfold eol_at in *. simpl in *.
    destruct q as [qp [|? ?]]; [|discriminate]. simpl in *.
    exists a, d. split; [|assumption].
    rewrite E1, E, E7, E8. reflexivity.
  - intros (p & d & -> & F).
    exists p, ([code ":"] ++ d ++ raw "80"), (Some (code "0"), []).
    split; [reflexivity|].
    eapply M_Seq; [constructor; reflexivity|].
    eapply M_Seq; [apply star_digits_matches; exact F|].
    eapply M_Seq; [|constructor; reflexivity].
    unfold Str. simpl.
    eapply M_Seq; constructor; reflexivity.
Qed.

(* ------------------------------------------------------------------ *)
(** ** URL reconstruction *)

(** C5 (as amended).  When no labeled URL, no base URL and no raw
    [http(s)://] token is found and a host field is, the URL is rebuilt:
    with a request-line path it is [scheme://host+path], where the scheme is
    [http] exactly when the host is [..:d80] with [d] a possibly empty run
    of digits (port 80, but also 8080 or 180) and [https] otherwise;
    without a request-line path it is [https://host]. *)
Theorem C5_reconstruct (text : str) (hm : rmatch) :
  exec flag_i re_labeled text = None ->
  exec flag_i re_base text = None ->
  exec no_flags re_full text = None ->
  exec flag_i re_host text = Some hm ->
  let host := grp text 1 hm in
  (forall pm, exec flag_i re_request_line text = Some pm ->
     let path := grp text 1 pm in
     (port_ends_80 host -> extractUrl text = Some (raw "http://" ++ host ++ path)) /\
     (~ port_ends_80 host -> extractUrl text = Some (raw "https://" ++ host ++ path))) /\
  (exec flag_i re_request_line text = None ->
   extractUrl text = Some (raw "https://" ++ host)).
Proof.
  intros H0 H1 H2 Hh host. split.
  - intros pm Hp path. unfold extractUrl. rewrite H0, H1, H2, Hh, Hp.
    fold host. fold path.
    destruct (test no_flags re_port80 host) eqn:T; split; intro P.
    + reflexivity.
    + apply port80_spec in T. contradiction.
    + apply port80_spec in P. congruence.
    + reflexivity.
  - intros Hp. unfold extractUrl. rewrite H0, H1, H2, Hh, Hp. reflexivity.
Qed.

Lemma port_ends_80_8080 : port_ends_80 (raw "a.com:8080").
Proof.
  exists (raw "a.com"), (raw "80"). split; [reflexivity|].
  repeat constructor.
Qed.

Lemma C5_reconstruct_witness :
  extractUrl (lit "GET /x HTTP/1.1|host: a.com:8080") = Some (raw "http://a.com:8080/x") /\
  extractUrl (lit "host=api.svc.local request_body=`{id: 42}`") = Some (raw "https://api.svc.local").
Proof.
  split.
  - set (text := lit "GET /x HTTP/1.1|host: a.com:8080").
    assert (Hh : exec flag_i re_host text
                 = Some (Build_rmatch 16 32 [(1, (22, 32))])) by (vm_compute; reflexivity).
    assert (Hp : exec flag_i re_request_line text
                 = Some (Build_rmatch 0 11 [(1, (4, 6))])) by (vm_compute; reflexivity).
    refine (proj1 (proj1 (C5_reconstruct text _ _ _ _ Hh) _ Hp) port_ends_80_8080);
      vm_compute; reflexivity.
  - set (text := lit "host=api.svc.local request_body=`{id: 42}`").
    assert (Hh : exec flag_i re_host text
                 = Some (Build_rmatch 0 18 [(1, (5, 18))])) by (vm_compute; reflexivity).
    refine (proj2 (C5_reconstruct text _ _ _ _ Hh) _); vm_compute; reflexivity.
Defined.

(** C5 (as stated) fails: the host [a.com:8080] does not end with [:80],
    yet the reconstructed URL gets the scheme [http]. *)
Lemma C5_port_8080_counterexample :
  let text := lit "GET /x HTTP/1.1|host: a.com:8080" in
  exec flag_i re_labeled text = None /\
  exec flag_i re_base text = None /\
  exec no_flags re_full text = None /\
  option_map (grp text 1) (exec flag_i re_request_line text) = Some (raw "/x") /\
  option_map (grp text 1) (exec flag_i re_host text) = Some (raw "a.com:8080") /\
  (forall p, raw "a.com:8080" <> p ++ raw ":80") /\
  extractUrl text = Some (raw "http://a.com:8080/x").
Proof.
  intro text. repeat split; try (vm_compute; reflexivity).
  intros p H. apply (f_equal (@rev char)) in H. rewrite rev_app_distr in H.
  vm_compute in H. discriminate.
Qed.

(* ------------------------------------------------------------------ *)
(** ** The block scanner *)

(** The loop, which jumps over the character after a backslash, and the
    reading one character at a time with the flag [esc] agree. *)
Lemma scan_crun_le (text : str) (n : nat) :
  forall rest i s, length rest <= n ->
    scan text rest i s = fst (fst (crun text rest (s, false, i))).
Proof.
  induction n as [|n IH]; intros rest i s Hn.
  - destruct rest; [reflexivity|simpl in Hn; lia].
  - destruct rest as [|ch rest]; [reflexivity|].
    rewrite scan_cons.
    change (crun text (ch :: rest) (s, false, i))
      with (crun text rest (cstep text (s, false, i) ch)).
    unfold cstep. simpl in Hn. destruct (inString s) eqn:I.
    + destruct (char_eqb ch bsl).
      * destruct rest as [|c2 rest]; [reflexivity|].
        change (crun text (c2 :: rest) (s, true, i + 1))
          with (crun text rest (s, false, i + 1 + 1)).
        rewrite IH by (simpl in Hn; lia).
        now replace (i + 1 + 1) with (i + 2) by lia.
      * destruct (str_eqb [ch] (stringChar s)); apply IH; lia.
    + apply IH. lia.
Qed.

Lemma scan_crun (text rest : str) (i : nat) (s : scan_state) :
  scan text rest i s = fst (fst (crun text rest (s, false, i))).
Proof. now apply (scan_crun_le text (length rest)). Qed.

Lemma crun_snoc (text p : str) (c : char) (x : cstate) :
  crun text (p ++ [c]) x = cstep text (crun text p x) c.
Proof. unfold crun. now rewrite fold_left_app. Qed.

Lemma crun_app (text a b : str) (x : cstate) :
  crun text (a ++ b) x = crun text b (crun text a x).
Proof. unfold crun. apply fold_left_app. Qed.

Lemma count_from_app (b : char) (w v : str) :
  forall st, count_outside_from st b (w ++ v)
             = count_outside_from st b w
               + count_outside_from (fold_left qstep w st) b v.
Proof.
  induction w as [|c w IH]; intro st; simpl; [reflexivity|].
  rewrite IH. lia.
Qed.

Lemma count_snoc (b c : char) (w : str) :
  count_outside b (w ++ [c])
  = count_outside b w
    + match fold_left qstep w QOut with
      | QOut => if char_eqb c b then 1 else 0
      | _ => 0
      end.
Proof.
  unfold count_outside. rewrite count_from_app. simpl.
  destruct (fold_left qstep w QOut); lia.
Qed.

Lemma skipn_snoc (A : Type) (n : nat) (p : list A) (c : A) :
  n <= length p -> skipn n (p ++ [c]) = skipn n p ++ [c].
Proof.
  intro H. rewrite skipn_app. replace (n - length p) with 0 by lia. reflexivity.
Qed.

Lemma firstn_snoc_le (A : Type) (n : nat) (w : list A) (c : A) :
  n <= length w -> firstn n (w ++ [c]) = firstn n w.
Proof.
  intro H. rewrite firstn_app. replace (n - length w) with 0 by lia.
  simpl. apply app_nil_r.
Qed.

(** The open block after one more character [c], read in state [q]. *)
Lemma open_ok_snoc (p : str) (bs d d' : Z) (q : qstate) (c : char) :
  open_ok p bs d q ->
  (d' = d + match q with
            | QOut => if char_eqb c (code "{") then 1
                      else if char_eqb c (code "}") then -1 else 0
            | _ => 0
            end)%Z ->
  (0 < d')%Z ->
  open_ok (p ++ [c]) bs d' (qstep q c).
Proof.
  intros (B0 & B1 & (w' & Hw) & Hq & Hd & Hpre) Ed Pd.
  set (w := skipn (Z.to_nat bs) p) in *.
  assert (E : skipn (Z.to_nat bs) (p ++ [c]) = w ++ [c])
    by (apply skipn_snoc; lia).
  assert (Ho : (Z.of_nat (opens (w ++ [c])) - Z.of_nat (closes (w ++ [c])) = d')%Z).
  { unfold opens, closes in *. rewrite !count_snoc, Hq, Ed.
    destruct q; try lia.
    destruct (char_eqb c (code "{")) eqn:C1; destruct (char_eqb c (code "}")) eqn:C2; try lia.
    apply char_eqb_eq in C1, C2. subst c. discriminate. }
  unfold open_ok. rewrite E. repeat split.
  - assumption.
  - rewrite length_app. simpl. lia.
  - exists (w' ++ [c]). now rewrite Hw.
  - now rewrite fold_left_app, Hq.
  - assumption.
  - intros n [N0 N1]. rewrite length_app in N1. simpl in N1.
    destruct (Nat.eq_dec n (length w + 1)) as [->|Hn].
    + replace (length w + 1) with (length (w ++ [c])) by (rewrite length_app; simpl; lia).
      rewrite firstn_all. lia.
    + rewrite firstn_snoc_le by lia. apply Hpre. lia.
Qed.

Lemma open_ok_step (p : str) (bs d d' : Z) (q q' : qstate) (c : char) :
  open_ok p bs d q ->
  q' = qstep q c ->
  (d' = d + match q with
            | QOut => if char_eqb c (code "{") then 1
                      else if char_eqb c (code "}") then -1 else 0
            | _ => 0
            end)%Z ->
  (0 < d')%Z ->
  open_ok (p ++ [c]) bs d' q'.
Proof. intros H ->. now apply open_ok_snoc. Qed.

Lemma open_ok_new (p : str) :
  open_ok (p ++ [code "{"]) (Z.of_nat (length p)) 1 QOut.
Proof.
  unfold open_ok. rewrite Nat2Z.id.
  assert (E : skipn (length p) (p ++ [code "{"]) = [code "{"]).
  { rewrite skipn_app, skipn_all, Nat.sub_diag. reflexivity. }
  rewrite E. repeat split.
  - lia.
  - rewrite length_app. simpl. lia.
  - now exists [].
  - intros n [N0 N1]. simpl in N1. assert (n = 1) as -> by lia. vm_compute. lia.
Qed.

(** Closing the open block at depth 1 yields a balanced block. *)
Lemma open_ok_close (p : str) (bs : Z) :
  open_ok p bs 1 QOut ->
  balanced_block (skipn (Z.to_nat bs) p ++ [code "}"]).
Proof.
  intros (B0 & B1 & (w' & Hw) & Hq & Hd & Hpre).
  set (w := skipn (Z.to_nat bs) p) in *.
  unfold balanced_block. split; [|split].
  - exists w'. now rewrite Hw.
  - unfold opens, closes in *. rewrite !count_snoc, Hq.
    replace (char_eqb (code "}") (code "{")) with false by reflexivity.
    replace (char_eqb (code "}") (code "}")) with true by reflexivity.
    lia.
  - intros n [N0 N1]. rewrite length_app in N1. simpl in N1.
    rewrite firstn_snoc_le by lia. apply Hpre. lia.
Qed.

Lemma substring_upto (p rest : str) (c : char) (b : nat) :
  b <= length p ->
  substring (p ++ c :: rest) b (length p + 1) = skipn b p ++ [c].
Proof.
  intro H. unfold substring. rewrite skipn_app, firstn_app.
  replace (b - length p) with 0 by lia. simpl skipn.
  rewrite length_skipn.
  replace (length p + 1 - b - (length p - b)) with 1 by lia.
  rewrite firstn_all2 by (rewrite length_skipn; lia). reflexivity.
Qed.

Lemma qof_out (s : scan_state) (esc : bool) : inString s = false -> qof s esc = QOut.
Proof. unfold qof. now intros ->. Qed.

Lemma qof_in (s : scan_state) (esc : bool) (q : char) :
  inString s = true -> stringChar s = [q] ->
  qof s esc = if esc then QEsc q else QIn q.
Proof. unfold qof. now intros -> ->. Qed.

Ltac split_inv :=
  unfold scan_inv;
  cbn [depth blocks blockStart inString stringChar close_string];
  split; [|split; [|split; [|split; [|split; [|split]]]]].

Ltac easy_inv :=
  try solve [assumption | lia | tauto | discriminate | intros; discriminate
            | intros; congruence].

(** Reading one more character keeps the invariant. *)
Lemma scan_inv_step (text p rest : str) (c : char) (x : cstate) :
  text = p ++ c :: rest ->
  scan_inv text p x -> scan_inv text (p ++ [c]) (cstep text x c).
Proof.
  intros Et. destruct x as [[s esc] i].
  intros (Hi & Hd & Hbs & Hstr & Hesc & Hbl & Hopen).
  assert (Hlen : length (p ++ [c]) = length p + 1) by (rewrite length_app; simpl; lia).
  assert (Hbl' : Forall (fun b => block_ok text b /\ endIndex b < length (p ++ [c])) (blocks s)).
  { eapply Forall_impl; [|exact Hbl]. intros b [B1 B2]. split; [assumption|lia]. }
  unfold cstep. destruct esc.
  - (* the character after a backslash *)
    specialize (Hesc eq_refl). destruct (Hstr Hesc) as [q Hq].
    split_inv; easy_inv.
    intro P. specialize (Hopen P).
    rewrite (qof_in s true q Hesc Hq) in Hopen. rewrite (qof_in s false q Hesc Hq).
    apply (open_ok_step p _ _ _ _ _ c Hopen); [reflexivity|lia|assumption].
  - destruct (inString s) eqn:I.
    + destruct (Hstr eq_refl) as [q Hq].
      destruct (char_eqb c bsl) eqn:Cb; [|destruct (str_eqb [c] (stringChar s)) eqn:Cq].
      * split_inv; easy_inv.
        intro P. specialize (Hopen P).
        rewrite (qof_in s false q I Hq) in Hopen. rewrite (qof_in s true q I Hq).
        apply (open_ok_step p _ _ _ _ _ c Hopen); [|lia|assumption].
        simpl. now rewrite Cb.
      * rewrite Hq in Cq. simpl in Cq. rewrite andb_true_r in Cq.
        split_inv; easy_inv.
        intro P. specialize (Hopen P).
        rewrite (qof_in s false q I Hq) in Hopen.
        apply (open_ok_step p _ _ _ _ _ c Hopen); [|lia|assumption].
        simpl. now rewrite Cb, Cq.
      * rewrite Hq in Cq. simpl in Cq. rewrite andb_true_r in Cq.
        split_inv; easy_inv.
        intro P. specialize (Hopen P).
        rewrite (qof_in s false q I Hq) in *.
        apply (open_ok_step p _ _ _ _ _ c Hopen); [|lia|assumption].
        simpl. now rewrite Cb, Cq.
    + (* outside a string *)
      assert (Qo : forall e, qof s e = QOut) by (intro; now apply qof_out).
      unfold scan_outside. destruct (is_quote c) eqn:Cq.
      * split_inv; easy_inv.
        -- intros _. now exists c.
        -- intro P. specialize (Hopen P). rewrite Qo in Hopen.
           apply (open_ok_step p _ _ _ _ _ c Hopen); [| |assumption].
           ++ simpl. now rewrite Cq.
           ++ destruct (char_eqb c (code "{")) eqn:C1;
                [apply char_eqb_eq in C1; subst c; discriminate|].
              destruct (char_eqb c (code "}")) eqn:C2;
                [apply char_eqb_eq in C2; subst c; discriminate|]. lia.
      * destruct (char_eqb c (code "{")) eqn:C1;
          [|destruct (char_eqb c (code "}")) eqn:C2].
        -- (* opening brace *)
           apply char_eqb_eq in C1. subst c.
           destruct (depth s =? 0)%Z eqn:D0.
           ++ apply Z.eqb_eq in D0. split_inv; easy_inv.
              intros _. rewrite D0, Hi. unfold qof. simpl. rewrite I.
              apply open_ok_new.
           ++ apply Z.eqb_neq in D0.
              assert (P : (0 < depth s)%Z) by lia. specialize (Hopen P).
              split_inv; easy_inv;
                try solve [split; [lia|]; intro E; apply Hbs in E; lia].
              intros _. rewrite Qo in Hopen.
              apply (open_ok_step p _ _ _ _ _ _ Hopen); [| |lia].
              ** unfold qof. simpl. now rewrite I.
              ** simpl. lia.
        -- (* closing brace *)
           apply char_eqb_eq in C2. subst c.
           destruct (depth s - 1 =? 0)%Z eqn:D1.
           ++ apply Z.eqb_eq in D1.
              assert (P : (0 < depth s)%Z) by lia. specialize (Hopen P).
              assert (Hb : (blockStart s =? -1)%Z = false).
              { apply Z.eqb_neq. intro E. apply Hbs in E. lia. }
              rewrite Hb. cbn [negb andb].
              replace (depth s - 1 <? 0)%Z with false by (symmetry; apply Z.ltb_ge; lia).
              split_inv; easy_inv.
              apply Forall_app. split; [assumption|]. constructor; [|constructor].
              rewrite Qo in Hopen. replace (depth s) with 1%Z in Hopen by lia.
              pose proof (open_ok_close p _ Hopen) as Bal.
              destruct Hopen as (B0 & B1 & _).
              assert (Ec : content (mk_block text (blockStart s) i)
                           = skipn (Z.to_nat (blockStart s)) p ++ [code "}"]).
              { unfold mk_block. simpl. rewrite Et, Hi. apply substring_upto. lia. }
              unfold block_ok. rewrite Ec.
              cbn [mk_block startIndex endIndex].
              split; [split; [|split; [|split]]|].
              ** rewrite <- Ec. reflexivity.
              ** lia.
              ** rewrite Et, length_app. simpl. lia.
              ** exact Bal.
              ** lia.
           ++ apply Z.eqb_neq in D1. cbn [andb].
              destruct (depth s - 1 <? 0)%Z eqn:D2.
              ** apply Z.ltb_lt in D2. assert (D0 : depth s = 0%Z) by lia.
                 split_inv; easy_inv.
              ** apply Z.ltb_ge in D2.
                 assert (P : (0 < depth s)%Z) by lia. specialize (Hopen P).
                 split_inv; easy_inv;
                   try solve [split; [lia|]; intro E; apply Hbs in E; lia].
                 intros _. rewrite Qo in Hopen.
                 apply (open_ok_step p _ _ _ _ _ _ Hopen); [| |lia].
                 --- unfold qof. simpl. now rewrite I.
                 --- simpl. lia.
        -- (* any other character *)
           split_inv; easy_inv.
           intro P. specialize (Hopen P). rewrite Qo in *.
           apply (open_ok_step p _ _ _ _ _ c Hopen); [| |assumption].
           ++ simpl. now rewrite Cq.
           ++ rewrite C1, C2. lia.
Qed.

Lemma scan_inv_prefix (p : str) :
  forall rest, scan_inv (p ++ rest) p (crun (p ++ rest) p (scan_init, false, 0)).
Proof.
  induction p as [|c p IH] using rev_ind; intro rest.
  - unfold crun, scan_inv. simpl. repeat split; try lia; try discriminate.
    constructor.
  - rewrite crun_snoc. rewrite <- app_assoc. simpl.
    apply (scan_inv_step (p ++ c :: rest) p rest c); [reflexivity|apply IH].
Qed.

Lemma scan_inv_final (text : str) :
  scan_inv text text (crun text text (scan_init, false, 0)).
Proof.
  pose proof (scan_inv_prefix text []) as H. now rewrite app_nil_r in H.
Qed.

(** Every block the scanner returns is a balanced block of the text. *)
Lemma extractBalancedBlocks_ok (text : str) :
  Forall (block_ok text) (extractBalancedBlocks text).
Proof.
  unfold extractBalancedBlocks. rewrite scan_crun.
  pose proof (scan_inv_final text) as H.
  destruct (crun text text (scan_init, false, 0)) as [[s esc] i].
  destruct H as (_ & _ & _ & _ & _ & Hb & _). simpl.
  eapply Forall_impl; [|exact Hb]. now intros b [H _].
Qed.

(** A closing brace read at depth 0 changes nothing: the depth, which
    would become [-1], is put back to 0. *)
Lemma spurious_close (text : str) (i : nat) (s : scan_state) :
  depth s = 0%Z -> scan_outside text i (code "}") s = s.
Proof.
  intro D. destruct s as [bl d bs ins sc]. simpl in D. subst d.
  unfold scan_outside. simpl. reflexivity.
Qed.

Lemma sim_step (k lo hi : nat) (t t' : str) (x x' : cstate) (c : char) :
  agree k lo hi t t' ->
  sim k lo x x' -> snd x' + 1 <= hi ->
  sim k lo (cstep t x c) (cstep t' x' c).
Proof.
  intros Ag. destruct x as [[s e] i], x' as [[s' e'] i'].
  intros (<- & -> & Hlo & Hd & Hi & Hs & Hc & Hb) Hhi. simpl in Hhi.
  unfold cstep. destruct e.
  - unfold sim. repeat split; try assumption; lia.
  - rewrite <- Hi, <- Hs. destruct (inString s) eqn:I.
    + destruct (char_eqb c bsl); [|destruct (str_eqb [c] (stringChar s))];
        unfold sim, close_string; cbn [depth blocks blockStart inString stringChar];
        repeat split; try assumption; try lia; try congruence.
    + unfold scan_outside. rewrite <- Hd.
      destruct (is_quote c); [|destruct (char_eqb c (code "{")); [|destruct (char_eqb c (code "}"))]];
        unfold sim; cbn [depth blocks blockStart inString stringChar].
      * repeat split; try assumption; try lia; try congruence.
      * repeat split; try assumption; try lia; try congruence.
        destruct (depth s =? 0)%Z; [right; lia|assumption].
      * assert (Eb : (blockStart s =? -1)%Z = (blockStart s' =? -1)%Z).
        { destruct Hb as [[-> ->]|[H1 ->]]; [reflexivity|].
          transitivity false; [|symmetry]; apply Z.eqb_neq; lia. }
        rewrite <- Eb.
        destruct ((depth s - 1 =? 0)%Z && negb (blockStart s =? -1)%Z) eqn:Cl.
        -- apply andb_true_iff in Cl. destruct Cl as [_ Cl].
           apply negb_true_iff, Z.eqb_neq in Cl.
           destruct Hb as [[? ?]|[H1 H2]]; [contradiction|].
           repeat split; try assumption; try lia; try (now left); try congruence.
           rewrite !map_app, Hc. f_equal. simpl. f_equal.
           unfold substring. rewrite H2.
           replace (Z.to_nat (blockStart s' + Z.of_nat k)) with (Z.to_nat (blockStart s') + k) by lia.
           replace (i' + k + 1 - (Z.to_nat (blockStart s') + k))
             with (i' + 1 - Z.to_nat (blockStart s')) by lia.
           destruct (Nat.le_gt_cases (Z.to_nat (blockStart s')) (i' + 1)) as [L|G].
           ++ apply Ag; lia.
           ++ replace (i' + 1 - Z.to_nat (blockStart s')) with 0 by lia. reflexivity.
        -- repeat split; try assumption; try lia; try congruence.
      * repeat split; try assumption; try lia; try congruence.
Qed.

Lemma crun_index (t l : str) :
  forall x, snd (crun t l x) = snd x + length l.
Proof.
  induction l as [|c l IH]; intro x; simpl; [lia|].
  unfold crun in *. simpl. rewrite IH.
  destruct x as [[s e] i]. unfold cstep.
  destruct e; [simpl; lia|]. destruct (inString s); [|simpl; lia].
  destruct (char_eqb c bsl); [simpl; lia|].
  destruct (str_eqb [c] (stringChar s)); simpl; lia.
Qed.

Lemma sim_run (k lo hi : nat) (t t' : str) (l : str) :
  agree k lo hi t t' ->
  forall x x', sim k lo x x' -> snd x' + length l <= hi ->
               sim k lo (crun t l x) (crun t' l x').
Proof.
  intro Ag. induction l as [|c l IH]; intros x x' S H; [exact S|].
  simpl in H. change (crun t (c :: l) x) with (crun t l (cstep t x c)).
  change (crun t' (c :: l) x') with (crun t' l (cstep t' x' c)).
  apply IH.
  - apply (sim_step k lo hi); [assumption|assumption|lia].
  - pose proof (crun_index t' [c] x') as E. unfold crun in E. simpl in E.
    rewrite E. lia.
Qed.

Lemma agree_prefix (pre X Y : str) : agree 0 0 (length pre) (pre ++ X) (pre ++ Y).
Proof.
  intros a n _ H. rewrite Nat.add_0_r, !skipn_app.
  replace (a - length pre) with 0 by lia. simpl.
  rewrite !firstn_app, length_skipn.
  replace (n - (length pre - a)) with 0 by lia. reflexivity.
Qed.

Lemma agree_shift (pre post : str) (c : char) (hi : nat) :
  agree 1 (length pre) hi (pre ++ c :: post) (pre ++ post).
Proof.
  intros a n H _. rewrite !skipn_app.
  replace (skipn (a + 1) pre) with (@nil char) by (symmetry; apply skipn_all2; lia).
  replace (skipn a pre) with (@nil char) by (symmetry; apply skipn_all2; lia).
  replace (a + 1 - length pre) with (S (a - length pre)) by lia. reflexivity.
Qed.

(** A closing brace met at depth 0 outside a string is ignored: the
    blocks found are those of the text without it. *)
Lemma spurious_close_ignored (pre post : str) :
  depth (scan pre pre 0 scan_init) = 0%Z ->
  inString (scan pre pre 0 scan_init) = false ->
  map content (extractBalancedBlocks (pre ++ code "}" :: post))
  = map content (extractBalancedBlocks (pre ++ post)).
Proof.
  unfold extractBalancedBlocks. rewrite !scan_crun.
  intros D I.
  rewrite (crun_app (pre ++ code "}" :: post) pre (code "}" :: post)).
  rewrite (crun_app (pre ++ post) pre post).
  set (x0 := (scan_init, false, 0)) in *.
  set (T := pre ++ code "}" :: post). set (T' := pre ++ post).
  change (crun T (code "}" :: post) (crun T pre x0))
    with (crun T post (cstep T (crun T pre x0) (code "}"))).
  assert (S0 : sim 0 0 x0 x0).
  { unfold sim, x0. simpl. repeat split; lia. }
  assert (S1 : sim 0 0 (crun T pre x0) (crun pre pre x0)).
  { apply (sim_run 0 0 (length pre)); [|exact S0|simpl; lia].
    pose proof (agree_prefix pre (code "}" :: post) []) as A.
    now rewrite app_nil_r in A. }
  assert (S2 : sim 0 0 (crun T' pre x0) (crun pre pre x0)).
  { apply (sim_run 0 0 (length pre)); [|exact S0|simpl; lia].
    pose proof (agree_prefix pre post []) as A.
    now rewrite app_nil_r in A. }
  pose proof (scan_inv_final pre) as Inv. fold x0 in Inv.
  destruct (crun pre pre x0) as [[sA eA] iA].
  destruct (crun T pre x0) as [[s e] i].
  destruct (crun T' pre x0) as [[s' e'] i'].
  simpl in D, I.
  destruct Inv as (Ei & _ & Hbs & _ & Hesc & _ & _).
  assert (EA : eA = false) by (destruct eA; [specialize (Hesc eq_refl); congruence|reflexivity]).
  assert (BA : blockStart sA = (-1)%Z) by now apply Hbs.
  destruct S1 as (E1 & I1 & _ & D1 & N1 & C1 & M1 & B1).
  destruct S2 as (E2 & I2 & _ & D2 & N2 & C2 & M2 & B2).
  assert (Bs : blockStart s = (-1)%Z) by (destruct B1 as [[? ?]|[? ?]]; lia).
  assert (Bs' : blockStart s' = (-1)%Z) by (destruct B2 as [[? ?]|[? ?]]; lia).
  assert (Step : cstep T (s, e, i) (code "}") = (s, false, i + 1)).
  { unfold cstep. rewrite E1, EA, N1, I. rewrite spurious_close by congruence. reflexivity. }
  rewrite Step.
  assert (S3 : sim 1 (length pre) (s, false, i + 1) (s', e', i')).
  { unfold sim. repeat split; try congruence; try lia. }
  pose proof (sim_run 1 (length pre) (length pre + length post) T T' post
                (agree_shift pre post (code "}") _) _ _ S3) as S4.
  simpl in S4. specialize (S4 ltac:(lia)).
  destruct (crun T post (s, false, i + 1)) as [[sf ef] jf].
  destruct (crun T' post (s', e', i')) as [[sf' ef'] jf'].
  simpl. destruct S4 as (_ & _ & _ & _ & _ & _ & M & _). exact M.
Qed.

(** After a prefix that leaves the scanner at depth 0 outside a string. *)
Lemma after_prefix_top (pre rest : str) :
  depth (scan pre pre 0 scan_init) = 0%Z ->
  inString (scan pre pre 0 scan_init) = false ->
  exists s, crun (pre ++ rest) pre (scan_init, false, 0) = (s, false, length pre) /\
            depth s = 0%Z /\ inString s = false /\ blockStart s = (-1)%Z.
Proof.
  rewrite !scan_crun. intros D I.
  set (x0 := (scan_init, false, 0)) in *.
  assert (S0 : sim 0 0 x0 x0).
  { unfold sim, x0. simpl. repeat split; lia. }
  assert (S1 : sim 0 0 (crun (pre ++ rest) pre x0) (crun pre pre x0)).
  { apply (sim_run 0 0 (length pre)); [|exact S0|simpl; lia].
    pose proof (agree_prefix pre rest []) as A.
    now rewrite app_nil_r in A. }
  pose proof (scan_inv_final pre) as Inv. fold x0 in Inv.
  destruct (crun pre pre x0) as [[sA eA] iA].
  destruct (crun (pre ++ rest) pre x0) as [[s e] i].
  simpl in D, I.
  destruct Inv as (Ei & _ & Hbs & _ & Hesc & _ & _).
  assert (EA : eA = false) by (destruct eA; [specialize (Hesc eq_refl); congruence|reflexivity]).
  assert (BA : blockStart sA = (-1)%Z) by now apply Hbs.
  destruct S1 as (E1 & I1 & _ & D1 & N1 & C1 & M1 & B1).
  exists s. repeat split; try congruence.
  - f_equal; [f_equal; congruence|lia].
  - destruct B1 as [[? ?]|[? ?]]; lia.
Qed.

Lemma count_delta (w : str) (c : char) :
  (Z.of_nat (opens (w ++ [c])) - Z.of_nat (closes (w ++ [c]))
   = Z.of_nat (opens w) - Z.of_nat (closes w) + delta (fold_left qstep w QOut) c)%Z.
Proof.
  unfold opens, closes, delta. rewrite !count_snoc.
  destruct (fold_left qstep w QOut); try lia.
  destruct (char_eqb c (code "{")) eqn:C1; destruct (char_eqb c (code "}")) eqn:C2; try lia.
  apply char_eqb_eq in C1, C2. subst c. discriminate.
Qed.

Ltac close_open :=
  repeat split; try assumption; try lia; try discriminate; try congruence;
  try solve [intros; eauto].

(** One step of the scanner inside an open block. *)
Lemma cstep_open (text : str) (s : scan_state) (e : bool) (i : nat) (c : char) :
  (0 < depth s)%Z ->
  (inString s = true -> exists q, stringChar s = [q]) ->
  (e = true -> inString s = true) ->
  exists s' e',
    cstep text (s, e, i) c = (s', e', i + 1) /\
    depth s' = (depth s + delta (qof s e) c)%Z /\
    qof s' e' = qstep (qof s e) c /\
    (inString s' = true -> exists q, stringChar s' = [q]) /\
    (e' = true -> inString s' = true) /\
    ((0 < depth s + delta (qof s e) c)%Z ->
     blockStart s' = blockStart s /\ blocks s' = blocks s) /\
    ((depth s + delta (qof s e) c = 0)%Z -> blockStart s <> (-1)%Z ->
     blocks s' = blocks s ++ [mk_block text (blockStart s) i]).
Proof.
  intros P Hstr Hesc. unfold cstep. destruct e.
  - specialize (Hesc eq_refl). destruct (Hstr Hesc) as [q Hq].
    exists s, false. rewrite (qof_in s true q Hesc Hq), (qof_in s false q Hesc Hq).
    simpl. close_open.
  - destruct (inString s) eqn:I.
    + destruct (Hstr eq_refl) as [q Hq]. rewrite (qof_in s false q I Hq).
      destruct (char_eqb c bsl) eqn:Cb; [|destruct (str_eqb [c] (stringChar s)) eqn:Cq].
      * exists s, true. rewrite (qof_in s true q I Hq). simpl. rewrite Cb.
        close_open.
      * rewrite Hq in Cq. simpl in Cq. rewrite andb_true_r in Cq.
        exists (close_string s), false. simpl. rewrite Cb, Cq.
        close_open.
      * rewrite Hq in Cq. simpl in Cq. rewrite andb_true_r in Cq.
        exists s, false. rewrite (qof_in s false q I Hq). simpl. rewrite Cb, Cq.
        close_open.
    + rewrite (qof_out s false I). unfold scan_outside, delta.
      destruct (is_quote c) eqn:Cq.
      * destruct (char_eqb c (code "{")) eqn:C1;
          [apply char_eqb_eq in C1; subst c; discriminate|].
        destruct (char_eqb c (code "}")) eqn:C2;
          [apply char_eqb_eq in C2; subst c; discriminate|].
        eexists _, false. split; [reflexivity|]. simpl. rewrite Cq.
        close_open.
      * destruct (char_eqb c (code "{")) eqn:C1;
          [|destruct (char_eqb c (code "}")) eqn:C2].
        -- eexists _, false. split; [reflexivity|].
           unfold qof. simpl. rewrite I, Cq.
           replace (depth s =? 0)%Z with false by (symmetry; apply Z.eqb_neq; lia).
           close_open.
        -- eexists _, false. split; [reflexivity|].
           unfold qof. simpl. rewrite I, Cq.
           repeat split; try discriminate; try congruence.
           ++ destruct (depth s - 1 <? 0)%Z eqn:D; [apply Z.ltb_lt in D|]; lia.
           ++ replace (depth s - 1 =? 0)%Z with false by (symmetry; apply Z.eqb_neq; lia).
              reflexivity.
           ++ replace (depth s - 1 =? 0)%Z with false by (symmetry; apply Z.eqb_neq; lia).
              reflexivity.
           ++ intros D0 B. replace (depth s - 1 =? 0)%Z with true by (symmetry; apply Z.eqb_eq; lia).
              replace (blockStart s =? -1)%Z with false by (symmetry; now apply Z.eqb_neq).
              reflexivity.
        -- exists s, false. rewrite (qof_out s false I). simpl. rewrite Cq.
           close_open.
Qed.

Lemma cstep_blocks_grow (text : str) (x : cstate) (c : char) :
  exists l, blocks (fst (fst (cstep text x c))) = blocks (fst (fst x)) ++ l.
Proof.
  destruct x as [[s e] i]. unfold cstep.
  destruct e; [exists []; simpl; now rewrite app_nil_r|].
  destruct (inString s).
  - destruct (char_eqb c bsl); [|destruct (str_eqb [c] (stringChar s))];
      exists []; simpl; now rewrite app_nil_r.
  - unfold scan_outside.
    destruct (is_quote c); [exists []; simpl; now rewrite app_nil_r|].
    destruct (char_eqb c (code "{")); [exists []; simpl; now rewrite app_nil_r|].
    destruct (char_eqb c (code "}")); [|exists []; simpl; now rewrite app_nil_r].
    simpl. destruct ((depth s - 1 =? 0)%Z && negb (blockStart s =? -1)%Z).
    + eexists. reflexivity.
    + exists []. now rewrite app_nil_r.
Qed.

Lemma crun_blocks_grow (text l : str) :
  forall x, exists bl, blocks (fst (fst (crun text l x))) = blocks (fst (fst x)) ++ bl.
Proof.
  induction l as [|c l IH]; intro x.
  - exists []. simpl. now rewrite app_nil_r.
  - change (crun text (c :: l) x) with (crun text l (cstep text x c)).
    destruct (IH (cstep text x c)) as [b1 E1].
    destruct (cstep_blocks_grow text x c) as [b2 E2].
    exists (b2 ++ b1). now rewrite E1, E2, app_assoc.
Qed.

(** Reading a balanced block from depth 0 outside a string: as long as the
    block is not finished the depth is the excess of opening braces, and
    no block is added. *)
Lemma read_block (text blk : str) (s : scan_state) (i0 : nat) :
  depth s = 0%Z -> inString s = false ->
  balanced_block blk ->
  forall w r, blk = w ++ r -> w <> [] -> r <> [] ->
    exists s' e',
      crun text w (s, false, i0) = (s', e', i0 + length w) /\
      depth s' = (Z.of_nat (opens w) - Z.of_nat (closes w))%Z /\
      qof s' e' = fold_left qstep w QOut /\
      (inString s' = true -> exists q, stringChar s' = [q]) /\
      (e' = true -> inString s' = true) /\
      blockStart s' = Z.of_nat i0 /\ blocks s' = blocks s.
Proof.
  intros D I ((body & Eb) & Bal & Pre) w.
  induction w as [|c w IH] using rev_ind; intros r E Hw Hr; [now elim Hw|].
  destruct w as [|c0 w0] eqn:Ww.
  - (* the opening brace *)
    simpl in E. rewrite Eb in E. injection E as <- _.
    unfold crun. simpl. rewrite I. unfold scan_outside. simpl. rewrite D. simpl.
    eexists _, false. split; [reflexivity|]. unfold qof. simpl. rewrite I.
    repeat split; try discriminate; try congruence.
  - assert (Nw : 0 < length w) by (rewrite Ww; simpl; lia).
    rewrite <- Ww in *. clear Ww c0 w0.
    rewrite <- app_assoc in E. simpl in E.
    destruct (IH (c :: r) E) as (s1 & e1 & R1 & D1 & Q1 & W1 & E1 & B1 & L1);
      try discriminate.
    { intro H. rewrite H in Nw. simpl in Nw. lia. }
    assert (Lw : length blk = length w + S (length r))
      by (rewrite E, length_app; reflexivity).
    assert (P1 : (0 < depth s1)%Z).
    { rewrite D1. assert (H : closes (firstn (length w) blk) < opens (firstn (length w) blk)).
      { apply Pre. lia. }
      rewrite E, firstn_app, Nat.sub_diag, firstn_all in H. simpl in H.
      rewrite app_nil_r in H. lia. }
    destruct (cstep_open text s1 e1 (i0 + length w) c P1 W1 E1)
      as (s2 & e2 & R2 & D2 & Q2 & W2 & E2 & K2 & _).
    assert (P2 : (0 < depth s1 + delta (qof s1 e1) c)%Z).
    { rewrite D1, Q1, <- count_delta.
      assert (H : closes (firstn (length (w ++ [c])) blk)
                  < opens (firstn (length (w ++ [c])) blk)).
      { apply Pre. rewrite length_app. simpl. destruct r; [now elim Hr|]. simpl in Lw. lia. }
      replace blk with ((w ++ [c]) ++ r) in H by (rewrite <- app_assoc; now rewrite E).
      rewrite firstn_app, Nat.sub_diag, firstn_all in H. simpl in H.
      rewrite app_nil_r in H. lia. }
    destruct (K2 P2) as [K3 K4].
    exists s2, e2. rewrite crun_snoc, R1, R2.
    repeat split; try assumption; try congruence.
    + f_equal. rewrite length_app. simpl. lia.
    + rewrite D2, D1, Q1. symmetry. apply count_delta.
    + rewrite Q2, Q1. now rewrite fold_left_app.
Qed.

(** A balanced block that follows a prefix leaving the scanner at depth 0
    outside a string (for instance a prefix ending in a spurious closing
    brace) is returned. *)
Lemma top_level_block_returned (pre blk post : str) :
  depth (scan pre pre 0 scan_init) = 0%Z ->
  inString (scan pre pre 0 scan_init) = false ->
  balanced_block blk ->
  In blk (map content (extractBalancedBlocks (pre ++ blk ++ post))).
Proof.
  intros D I Bal.
  destruct (after_prefix_top pre (blk ++ post) D I) as (s & R & Ds & Is & Bs).
  unfold extractBalancedBlocks. rewrite scan_crun.
  set (T := pre ++ blk ++ post) in *.
  unfold T at 2. rewrite !crun_app, R.
  destruct Bal as ((body & Eb) & Bal & Pre).
  assert (Bal' : balanced_block blk) by (split; [now exists body|now split]).
  destruct (read_block T blk s (length pre) Ds Is Bal' (code "{" :: body) [code "}"])
    as (s1 & e1 & R1 & D1 & Q1 & W1 & E1 & B1 & L1); try discriminate.
  { rewrite Eb. reflexivity. }
  remember (code "{" :: body) as w eqn:Hw.
  assert (Nw : 0 < length w) by (rewrite Hw; simpl; lia).
  assert (Ew : blk = w ++ [code "}"]) by (rewrite Eb, Hw; reflexivity).
  assert (P1 : (0 < depth s1)%Z).
  { rewrite D1. assert (H : closes (firstn (length w) blk) < opens (firstn (length w) blk)).
    { apply Pre. rewrite Ew, length_app. simpl. lia. }
    rewrite Ew, firstn_app, Nat.sub_diag, firstn_all, firstn_O, app_nil_r in H. lia. }
  destruct (cstep_open T s1 e1 (length pre + length w) (code "}") P1 W1 E1)
    as (s2 & e2 & R2 & D2 & Q2 & W2 & E2 & _ & K2).
  assert (Z2 : (depth s1 + delta (qof s1 e1) (code "}") = 0)%Z).
  { rewrite D1, Q1, <- count_delta, <- Ew. lia. }
  specialize (K2 Z2 ltac:(lia)).
  replace (crun T blk (s, false, length pre))
    with (crun T (w ++ [code "}"]) (s, false, length pre)) by (now rewrite <- Ew).
  rewrite crun_app, R1.
  change (crun T [code "}"] (s1, e1, length pre + length w))
    with (cstep T (s1, e1, length pre + length w) (code "}")).
  rewrite R2.
  destruct (crun_blocks_grow T post (s2, e2, length pre + length w + 1)) as [bl Ebl].
  simpl in Ebl. rewrite Ebl, K2, !map_app. apply in_or_app. left.
  apply in_or_app. right. simpl. left.
  rewrite B1, Nat2Z.id. unfold substring, T.
  rewrite skipn_app, skipn_all, Nat.sub_diag. simpl skipn.
  replace (length pre + length w + 1 - length pre) with (length blk)
    by (rewrite Ew, length_app; simpl; lia).
  simpl app. rewrite firstn_app, Nat.sub_diag, firstn_all, firstn_O. apply app_nil_r.
Qed.

(** C4.  Every block the scanner returns is cut out of the text between
    its two indices, with [startIndex < endIndex]; it starts with an
    opening brace and ends with the closing brace that matches it, and has
    as many opening as closing braces outside quoted regions.  The scan is
    total and its depth never goes below zero: a closing brace met at depth
    0 outside a string is ignored (the blocks found are those of the text
    without it), and a balanced block that starts where the scanner is at
    depth 0 outside a string is returned, whatever precedes or follows
    it. *)
Theorem C4_scanner_blocks (text : str) :
  (forall b, In b (extractBalancedBlocks text) ->
     content b = substring text (startIndex b) (endIndex b + 1) /\
     startIndex b < endIndex b /\ endIndex b < length text /\
     (exists body, content b = code "{" :: body ++ [code "}"]) /\
     count_outside (code "{") (content b) = count_outside (code "}") (content b) /\
     (forall n, 0 < n < length (content b) ->
        count_outside (code "}") (firstn n (content b))
        < count_outside (code "{") (firstn n (content b)))) /\
  (0 <= depth (scan text text 0 scan_init))%Z /\
  (forall pre post,
     text = pre ++ code "}" :: post ->
     depth (scan pre pre 0 scan_init) = 0%Z ->
     inString (scan pre pre 0 scan_init) = false ->
     map content (extractBalancedBlocks text)
     = map content (extractBalancedBlocks (pre ++ post))) /\
  (forall pre blk post,
     text = pre ++ blk ++ post ->
     depth (scan pre pre 0 scan_init) = 0%Z ->
     inString (scan pre pre 0 scan_init) = false ->
     balanced_block blk ->
     In blk (map content (extractBalancedBlocks text))).
Proof.
  split; [|split; [|split]].
  - intros b Hb. pose proof (extractBalancedBlocks_ok text) as H.
    rewrite Forall_forall in H. destruct (H b Hb) as (E & L & L' & B1 & B2 & B3).
    repeat split; assumption.
  - rewrite scan_crun. pose proof (scan_inv_final text) as H.
    destruct (crun _ _ (scan_init, false, 0)) as [[s e] i].
    simpl. now destruct H as (_ & H & _).
  - intros pre post -> D I. now apply spurious_close_ignored.
  - intros pre blk post -> D I B. now apply top_level_block_returned.
Qed.

Lemma C4_scanner_blocks_witness :
  let text := lit "junk } {a: `}{`, b: {c: '\''}} tail {" in
  let b := Build_TextBlock (lit "{a: `}{`, b: {c: '\''}}") 7 29 (lit "junk } ") in
  extractBalancedBlocks text = [b] /\
  count_outside (code "{") (content b) = count_outside (code "}") (content b) /\
  map content (extractBalancedBlocks text)
  = map content (extractBalancedBlocks (lit "junk  {a: `}{`, b: {c: '\''}} tail {")) /\
  In (lit "{a: `}{`, b: {c: '\''}}") (map content (extractBalancedBlocks text)).
Proof.
  intros text b.
  destruct (C4_scanner_blocks text) as (H1 & _ & H3 & H4).
  split; [vm_compute; reflexivity|]. split; [|split].
  - refine (proj1 (proj2 (proj2 (proj2 (proj2 (H1 b _)))))). vm_compute. now left.
  - apply (H3 (lit "junk ") (lit " {a: `}{`, b: {c: '\''}} tail {")); reflexivity.
  - apply (H4 (lit "junk } ") (lit "{a: `}{`, b: {c: '\''}}") (lit " tail {"));
      try reflexivity.
    split; [|split].
    + exists (lit "a: `}{`, b: {c: '\''}"). reflexivity.
    + reflexivity.
    + intros n [N1 N2]. simpl in N2.
      do 23 (destruct n as [|n]; [vm_compute; lia|]). lia.
Defined.


(* ------------------------------------------------------------------ *)
(** ** The matcher: captures *)

Lemma star_loop_run (fl : flags) (r : regex) :
  (forall st k x, m fl r st k = Some x ->
     exists st', run fl r st st' /\ k st' = Some x) ->
  forall n st k x, star_loop (m fl r) k n st = Some x ->
     exists st', run fl (Star r) st st' /\ k st' = Some x.
Proof.
  intros IH n. induction n as [|n IHn]; intros st k x H; simpl in H.
  - exists st. split; [constructor|assumption].
  - destruct (m fl r st _) as [y|] eqn:E.
    + injection H as ->. apply IH in E. destruct E as (st1 & M1 & K1).
      destruct (pos st1 =? pos st) eqn:P; [discriminate|].
      apply Nat.eqb_neq in P. apply IHn in K1.
      destruct K1 as (st' & M2 & K2). exists st'.
      split; [|assumption]. eapply R_StarS; eassumption.
    + exists st. split; [constructor|assumption].
Qed.

(** Every result of the matcher comes from a run that the continuation
    accepted. *)
Lemma m_run (fl : flags) (r : regex) :
  forall st k x, m fl r st k = Some x ->
    exists st', run fl r st st' /\ k st' = Some x.
Proof.
  induction r as [|neg items|r1 IH1 r2 IH2|r1 IH1 r2 IH2|r IH|i r IH| | | |r IH];
    intros st k x H; simpl in H.
  - exists st. split; [constructor|assumption].
  - destruct (rest st) as [|c tl] eqn:R; [discriminate|].
    destruct (xorb neg (class_mem fl items c)) eqn:E; [|discriminate].
    exists (step c tl st). split; [now constructor|assumption].
  - apply IH1 in H. destruct H as (st1 & M1 & H).
    apply IH2 in H. destruct H as (st2 & M2 & H).
    exists st2. split; [econstructor; eassumption|assumption].
  - destruct (m fl r1 st k) as [y|] eqn:E.
    + injection H as ->. apply IH1 in E. destruct E as (st1 & M1 & K1).
      exists st1. split; [now apply R_AltL|assumption].
    + apply IH2 in H. destruct H as (st1 & M1 & K1).
      exists st1. split; [now apply R_AltR|assumption].
  - eapply star_loop_run; eassumption.
  - apply IH in H. destruct H as (st1 & M1 & K1).
    exists (add_cap i (pos st) st1). split; [now constructor|assumption].
  - destruct (at_bol fl st) eqn:E; [|discriminate].
    exists st. split; [now constructor|assumption].
  - destruct (at_eol fl st) eqn:E; [|discriminate].
    exists st. split; [now constructor|assumption].
  - destruct (xorb (word_before st) (word_after st)) eqn:E; [|discriminate].
    exists st. split; [now constructor|assumption].
  - destruct (m fl r st (fun st' => Some st')) as [st1|] eqn:E; [|discriminate].
    apply IH in E. destruct E as (st2 & M2 & [= <-]).
    exists (with_caps (caps st2) st). split; [now constructor|assumption].
Qed.

Lemma reads_refl (st : cursor) : reads st [] st.
Proof. unfold reads. simpl. repeat split. lia. Qed.

Lemma reads_trans (a b c : cursor) (w v : str) :
  reads a w b -> reads b v c -> reads a (w ++ v) c.
Proof.
  intros (R1 & P1 & V1) (R2 & P2 & V2). unfold reads.
  rewrite R1, R2, P2, P1, V2, V1, length_app, <- app_assoc.
  unfold before. rewrite fold_left_app. repeat split. lia.
Qed.

(** A run reads a piece of the input, on from where it started. *)
Lemma run_reads (fl : flags) (r : regex) (st st' : cursor) :
  run fl r st st' -> exists w, reads st w st'.
Proof.
  induction 1 as [st|neg items st c tl Hr Hx|r1 r2 st st1 st2 H1 IH1 H2 IH2|r1 r2 st st1 H1 IH1|r1 r2 st st1 H1 IH1|r st|r st st1 st2 H1 IH1 Hp H2 IH2|i r st st1 H1 IH1|st Hb|st Hb|st Hb|r st st1 H1 IH1].
  - exists []. apply reads_refl.
  - exists [c]. unfold reads, step. simpl. rewrite Hr. repeat split. lia.
  - destruct IH1 as [w1 R1]. destruct IH2 as [w2 R2].
    exists (w1 ++ w2). eapply reads_trans; eassumption.
  - assumption.
  - assumption.
  - exists []. apply reads_refl.
  - destruct IH1 as [w1 R1]. destruct IH2 as [w2 R2].
    exists (w1 ++ w2). eapply reads_trans; eassumption.
  - destruct IH1 as [w Hw]. exists w. exact Hw.
  - exists []. apply reads_refl.
  - exists []. apply reads_refl.
  - exists []. apply reads_refl.
  - exists []. unfold reads, with_caps. simpl. repeat split. lia.
Qed.

Lemma run_matches (fl : flags) (r : regex) (st st' : cursor) :
  run fl r st st' -> matches fl r (here st) (here st').
Proof.
  induction 1 as [st|neg items st c tl Hr Hx|r1 r2 st st1 st2 H1 IH1 H2 IH2|r1 r2 st st1 H1 IH1|r1 r2 st st1 H1 IH1|r st|r st st1 st2 H1 IH1 Hp H2 IH2|i r st st1 H1 IH1|st Hb|st Hb|st Hb|r st st1 H1 IH1].
  - constructor.
  - unfold here, step. simpl. rewrite Hr. now constructor.
  - econstructor; eassumption.
  - now apply M_AltL.
  - now apply M_AltR.
  - constructor.
  - eapply M_StarS; [eassumption| |eassumption].
    destruct (run_reads _ _ _ _ H1) as (w & R & P & _). unfold here. simpl.
    rewrite R, length_app. destruct w; [simpl in P; lia|simpl; lia].
  - now constructor.
  - now constructor.
  - now constructor.
  - now constructor.
  - apply M_Ahead with (q := here st1). assumption.
Qed.

Lemma run_groupless (fl : flags) (r : regex) (st st' : cursor) :
  run fl r st st' -> groupless r = true -> caps st' = caps st.
Proof.
  induction 1 as [st|neg items st c tl Hr Hx|r1 r2 st st1 st2 H1 IH1 H2 IH2|r1 r2 st st1 H1 IH1|r1 r2 st st1 H1 IH1|r st|r st st1 st2 H1 IH1 Hp H2 IH2|i r st st1 H1 IH1|st Hb|st Hb|st Hb|r st st1 H1 IH1];
    simpl; intro G; try reflexivity; try discriminate.
  - apply andb_true_iff in G. destruct G as [G1 G2].
    now rewrite IH2, IH1.
  - apply andb_true_iff in G. now apply IH1.
  - apply andb_true_iff in G. now apply IH1.
  - now rewrite IH2, IH1.
  - now apply IH1.
Qed.

(** In a pattern with the single group [i], the capture is what the body
    of the group read. *)
Lemma run_group_body (fl : flags) (i : nat) (r g : regex) (st st' : cursor) :
  run fl r st st' -> group_body i r = Some g ->
  exists st1 st2 w0 w,
    reads st w0 st1 /\ run fl g st1 st2 /\ reads st1 w st2 /\
    caps st' = (i, (pos st1, pos st2)) :: caps st.
Proof.
  intro H. revert g.
  induction H as [st|neg items st c tl Hr Hx|r1 r2 st st1 st2 H1 IH1 H2 IH2|r1 r2 st st1 H1 IH1|r1 r2 st st1 H1 IH1|r st|r st st1 st2 H1 IH1 Hp H2 IH2|j r st st1 H1 IH1|st Hb|st Hb|st Hb|r st st1 H1 IH1];
    intros g G; simpl in G; try discriminate.
  - destruct (groupless r2) eqn:G2.
    + destruct (IH1 g G) as (a & b & w0 & w & R0 & Rg & Rw & C).
      exists a, b, w0, w. split; [assumption|]. split; [assumption|].
      split; [assumption|].
      now rewrite (run_groupless _ _ _ _ H2 G2).
    + destruct (groupless r1) eqn:G1; [|discriminate].
      destruct (IH2 g G) as (a & b & w0 & w & R0 & Rg & Rw & C).
      destruct (run_reads _ _ _ _ H1) as [v Rv].
      exists a, b, (v ++ w0), w.
      split; [eapply reads_trans; eassumption|]. split; [assumption|].
      split; [assumption|].
      now rewrite C, (run_groupless _ _ _ _ H1 G1).
  - destruct ((i =? j) && groupless r) eqn:E; [|discriminate].
    injection G as <-. apply andb_true_iff in E. destruct E as [E1 E2].
    apply Nat.eqb_eq in E1. subst j.
    destruct (run_reads _ _ _ _ H1) as [w Rw].
    exists st, st1, [], w. split; [apply reads_refl|]. split; [assumption|].
    split; [assumption|].
    unfold add_cap. simpl. now rewrite (run_groupless _ _ _ _ H1 E2).
Qed.

(** The first match found by the search: where it starts, the run that
    made it, and that no match starts earlier. *)
Lemma search_run (fl : flags) (r : regex) (s : str) :
  forall pv p x,
    search fl r pv s p = Some x ->
    exists a b st',
      s = a ++ b /\ m_start x = p + length a /\
      run fl r (Build_cursor (before pv a) b (p + length a) []) st' /\
      m_end x = pos st' /\ m_caps x = caps st' /\
      (forall a1 b1 q, s = a1 ++ b1 -> length a1 < length a ->
                       ~ matches fl r (before pv a1, b1) q).
Proof.
  induction s as [|c s IH]; intros pv p x H; simpl in H.
  - destruct (m fl r _ _) as [st'|] eqn:E; [|discriminate].
    injection H as <-. apply m_run in E. destruct E as (st1 & M1 & [= <-]).
    exists [], [], st1. simpl. rewrite Nat.add_0_r.
    repeat split; try assumption. intros a1 b1 q _ L. simpl in L. lia.
  - destruct (m fl r _ _) as [st'|] eqn:E.
    + injection H as <-. apply m_run in E. destruct E as (st1 & M1 & [= <-]).
      exists [], (c :: s), st1. simpl. rewrite Nat.add_0_r.
      repeat split; try assumption. intros a1 b1 q _ L. simpl in L. lia.
    + apply IH in H. destruct H as (a & b & st' & -> & Hs & Hr & He & Hc & Hmin).
      exists (c :: a), b, st'. simpl.
      replace (p + S (length a)) with (S p + length a) by lia.
      repeat split; try assumption.
      intros a1 b1 q Eq L M1. destruct a1 as [|c1 a1].
      * simpl in Eq. subst b1.
        destruct (proj1 (m_complete fl r _ _ M1 (Build_cursor pv (c :: a ++ b) p [])
                           (fun st => Some st) eq_refl
                           (fun st' _ _ => ex_intro _ st' eq_refl))) as [y Hy].
        simpl in Hy. congruence.
      * simpl in Eq. injection Eq as <- Eq. simpl in L.
        apply (Hmin a1 b1 q Eq); [lia|exact M1].
Qed.

Lemma exec_run (fl : flags) (r : regex) (s : str) (x : rmatch) :
  exec fl r s = Some x ->
  exists a b st',
    s = a ++ b /\ m_start x = length a /\
    run fl r (Build_cursor (before None a) b (length a) []) st' /\
    m_end x = pos st' /\ m_caps x = caps st' /\
    (forall a1 b1 q, s = a1 ++ b1 -> length a1 < length a ->
                     ~ matches fl r (before None a1, b1) q).
Proof.
  unfold exec, exec_from. simpl. intro H.
  apply search_run in H. simpl in H. exact H.
Qed.

Lemma reads_substring (text a : str) (st0 st1 st2 : cursor) (w0 w : str) :
  text = a ++ rest st0 -> pos st0 = length a ->
  reads st0 w0 st1 -> reads st1 w st2 ->
  substring text (pos st1) (pos st2) = w.
Proof.
  intros Et P0 (R1 & P1 & _) (R2 & P2 & _).
  unfold substring. rewrite P2, P1, P0, Et, R1, R2.
  replace (length a + length w0 + length w - (length a + length w0)) with (length w) by lia.
  rewrite app_assoc, skipn_app.
  replace (skipn (length a + length w0) (a ++ w0)) with (@nil char)
    by (symmetry; apply skipn_all2; rewrite length_app; lia).
  rewrite length_app, Nat.sub_diag. simpl.
  rewrite firstn_app, Nat.sub_diag, firstn_all, firstn_O. apply app_nil_r.
Qed.

(** What [m[1]] is, for a pattern with a single group: the text that the
    body of the group matched, between two places of the input. *)
Lemma exec_group (fl : flags) (r g : regex) (text : str) (x : rmatch) :
  exec fl r text = Some x -> group_body 1 r = Some g ->
  exists p q, matches fl g p q /\ snd p = grp text 1 x ++ snd q.
Proof.
  intros H G. apply exec_run in H.
  destruct H as (a & b & st' & Et & _ & R & _ & C & _).
  destruct (run_group_body _ _ _ _ _ _ R G) as (st1 & st2 & w0 & w & R0 & Rg & Rw & Cs).
  exists (here st1), (here st2). split; [now apply run_matches|].
  unfold grp, group. rewrite C, Cs. simpl.
  rewrite (reads_substring text a (Build_cursor (before None a) b (length a) [])
             st1 st2 w0 w Et eq_refl R0 Rw).
  destruct Rw as (Rw & _). exact Rw.
Qed.

(* ------------------------------------------------------------------ *)
(** ** What some shapes of pattern match *)

Lemma matches_class (fl : flags) (neg : bool) (items : list citem) (p q : place) :
  matches fl (Chars neg items) p q ->
  exists c, snd p = c :: snd q /\ in_class fl neg items c = true.
Proof.
  intro H. inversion H as [|? ? ? c ? E| | | | | | | | | |]; subst.
  exists c. now split.
Qed.

Lemma matches_star_class (fl : flags) (neg : bool) (items : list citem) (p q : place) :
  matches fl (Star (Chars neg items)) p q ->
  exists w, snd p = w ++ snd q /\ Forall (fun c => in_class fl neg items c = true) w.
Proof.
  intro H. remember (Star (Chars neg items)) as r eqn:Er.
  induction H; try discriminate.
  - exists []. split; [reflexivity|constructor].
  - injection Er as ->. destruct (IHmatches2 eq_refl) as (w & E & F).
    apply matches_class in H. destruct H as (c & Ec & Hc).
    exists (c :: w). split; [rewrite Ec, E; reflexivity|now constructor].
Qed.

Lemma matches_plus_class (fl : flags) (neg : bool) (items : list citem) (p q : place) :
  matches fl (Plus (Chars neg items)) p q ->
  exists c w, snd p = c :: w ++ snd q /\
              Forall (fun c => in_class fl neg items c = true) (c :: w).
Proof.
  intro H. unfold Plus in H.
  inversion H as [| |? ? ? q1 ? M1 M2| | | | | | | | |]; subst.
  apply matches_class in M1. destruct M1 as (c & Ec & Hc).
  apply matches_star_class in M2. destruct M2 as (w & Ew & Hw).
  exists c, w. split; [rewrite Ec, Ew; reflexivity|now constructor].
Qed.

Lemma matches_rep_class (fl : flags) (neg : bool) (items : list citem) (n : nat) :
  forall p q, matches fl (Rep n (Chars neg items)) p q ->
    exists w, snd p = w ++ snd q /\ length w = n /\
              Forall (fun c => in_class fl neg items c = true) w.
Proof.
  induction n as [|n IH]; intros p q H.
  - simpl in H. inversion H; subst. exists []. repeat split. constructor.
  - destruct n as [|n'].
    + simpl in H. apply matches_class in H. destruct H as (c & Ec & Hc).
      exists [c]. repeat split; [exact Ec|]. now constructor.
    + change (Rep (S (S n')) (Chars neg items))
        with (Seq (Chars neg items) (Rep (S n') (Chars neg items))) in H.
      inversion H as [| |? ? ? q1 ? M1 M2| | | | | | | | |]; subst.
      apply matches_class in M1. destruct M1 as (c & Ec & Hc).
      apply IH in M2. destruct M2 as (w & Ew & Lw & Hw).
      exists (c :: w). split; [rewrite Ec, Ew; reflexivity|].
      split; [simpl; now rewrite Lw|now constructor].
Qed.

Lemma swapcase_upper (c x : char) :
  c = x \/ swapcase c = x -> upper_char c = upper_char x.
Proof.
  intros [->|H]; [reflexivity|]. subst x. unfold swapcase, upper_char.
  destruct (is_upper c) eqn:U.
  - unfold is_upper, is_lower, between in *.
    apply andb_true_iff in U. destruct U as [U1 U2]. apply N.leb_le in U1, U2.
    replace ((97 <=? c) && (c <=? 122))%N with false
      by (symmetry; apply andb_false_iff; left; apply N.leb_gt; lia).
    replace ((97 <=? c + 32) && (c + 32 <=? 122))%N with true
      by (symmetry; apply andb_true_iff; split; apply N.leb_le; lia).
    lia.
  - destruct (is_lower c) eqn:Lw; [|now rewrite Lw].
    unfold is_lower, between in *.
    apply andb_true_iff in Lw. destruct Lw as [U1 U2]. apply N.leb_le in U1, U2.
    replace ((97 <=? c - 32) && (c - 32 <=? 122))%N with false
      by (symmetry; apply andb_false_iff; left; apply N.leb_gt; lia).
    reflexivity.
Qed.

Lemma class_lit_upper (fl : flags) (x c : char) :
  class_mem fl [CLit x] c = true -> upper_char c = upper_char x.
Proof.
  unfold class_mem. simpl. rewrite !orb_false_r. intro H.
  apply orb_true_iff in H. symmetry. apply swapcase_upper.
  destruct H as [H|H].
  - apply char_eqb_eq in H. now left.
  - apply andb_true_iff in H. destruct H as [_ H]. apply char_eqb_eq in H.
    right. subst x. unfold swapcase.
    destruct (is_upper c) eqn:U.
    + unfold is_upper, is_lower, between in *.
      apply andb_true_iff in U. destruct U as [U1 U2]. apply N.leb_le in U1, U2.
      replace ((65 <=? c + 32) && (c + 32 <=? 90))%N with false
        by (symmetry; apply andb_false_iff; right; apply N.leb_gt; lia).
      replace ((97 <=? c + 32) && (c + 32 <=? 122))%N with true
        by (symmetry; apply andb_true_iff; split; apply N.leb_le; lia).
      lia.
    + destruct (is_lower c) eqn:Lw; [|now rewrite U, Lw].
      unfold is_upper, is_lower, between in *.
      apply andb_true_iff in Lw. destruct Lw as [U1 U2]. apply N.leb_le in U1, U2.
      replace ((65 <=? c - 32) && (c - 32 <=? 90))%N with true
        by (symmetry; apply andb_true_iff; split; apply N.leb_le; lia).
      lia.
Qed.

(** A literal run of characters matches itself, up to case. *)
Lemma matches_chars_re (fl : flags) (l : list ascii) :
  forall p q, matches fl (chars_re l) p q ->
    exists w, snd p = w ++ snd q /\ toUpperCase w = toUpperCase (map code l).
Proof.
  induction l as [|a l IH]; intros p q H.
  - simpl in H. inversion H; subst. now exists [].
  - destruct l as [|b l'].
    + simpl in H. apply matches_class in H. destruct H as (c & Ec & Hc).
      exists [c]. split; [exact Ec|]. simpl. f_equal.
      now apply (class_lit_upper fl).
    + change (chars_re (a :: b :: l')) with (Seq (L a) (chars_re (b :: l'))) in H.
      inversion H as [| |? ? ? q1 ? M1 M2| | | | | | | | |]; subst.
      apply matches_class in M1. destruct M1 as (c & Ec & Hc).
      apply IH in M2. destruct M2 as (w & Ew & Hw).
      exists (c :: w). split; [rewrite Ec, Ew; reflexivity|].
      change (toUpperCase (c :: w)) with (upper_char c :: toUpperCase w).
      rewrite Hw. change (toUpperCase (map code (a :: b :: l')))
        with (upper_char (code a) :: toUpperCase (map code (b :: l'))).
      f_equal. now apply (class_lit_upper fl).
Qed.

Lemma matches_alts (fl : flags) (l : list regex) (p q : place) :
  l <> [] -> matches fl (alts l) p q -> exists r, In r l /\ matches fl r p q.
Proof.
  induction l as [|r l IH]; intros N H; [now elim N|].
  destruct l as [|r' l'].
  - exists r. split; [now left|exact H].
  - change (alts (r :: r' :: l')) with (Alt r (alts (r' :: l'))) in H.
    inversion H; subst.
    + exists r. split; [now left|assumption].
    + destruct (IH ltac:(discriminate) H4) as (r0 & I0 & M0).
      exists r0. split; [now right|assumption].
Qed.

(* ------------------------------------------------------------------ *)
(** ** Method and token *)

Lemma verbs_match (fl : flags) (p q : place) (w : str) :
  matches fl (alts [Str "GET"; Str "POST"; Str "PUT"; Str "PATCH"; Str "DELETE";
                    Str "HEAD"; Str "OPTIONS"]) p q ->
  snd p = w ++ snd q -> In (toUpperCase w) VERBS.
Proof.
  intros H E. apply matches_alts in H; [|discriminate].
  destruct H as (r & I & M).
  assert (U : exists v, In v VERBS /\ exists w', snd p = w' ++ snd q /\ toUpperCase w' = v).
  { simpl in I.
    repeat (destruct I as [<-|I];
            [apply matches_chars_re in M; destruct M as (w' & E' & U');
             eexists; split; [|exists w'; split; [exact E'|exact U']];
             vm_compute; tauto|]).
    destruct I. }
  destruct U as (v & Iv & w' & E' & <-).
  rewrite E in E'. apply app_inv_tail in E'. now subst w'.
Qed.

Lemma first_explicit_verbs (text : str) (ps : list (flags * regex)) (v : str) :
  Forall (fun fr => group_body 1 (snd fr)
                    = Some (alts [Str "GET"; Str "POST"; Str "PUT"; Str "PATCH";
                                  Str "DELETE"; Str "HEAD"; Str "OPTIONS"])) ps ->
  first_explicit ps text = Some v -> In v VERBS.
Proof.
  induction 1 as [|[fl r] ps G _ IH]; simpl; intro H; [discriminate|].
  destruct (exec fl r text) as [x|] eqn:E; [|now apply IH].
  injection H as <-. simpl in G.
  destruct (exec_group fl r _ text x E G) as (p & q & M & S).
  exact (verbs_match fl p q _ M S).
Qed.

Lemma first_hint_in (text : str) (hs : list (regex * str)) (v : str) :
  first_hint hs text = Some v -> In v (map snd hs).
Proof.
  induction hs as [|[r mth] hs IH]; simpl; intro H; [discriminate|].
  destruct (test flag_i r text); [injection H as <-; now left|right; now apply IH].
Qed.

(** X1.  Whatever [extractMethod] returns is one of the seven verbs GET,
    POST, PUT, PATCH, DELETE, HEAD, OPTIONS, in upper case, however the
    log spells it. *)
Theorem X1_method_is_a_verb (text v : str) :
  extractMethod text = Some v -> In v VERBS.
Proof.
  unfold extractMethod.
  destruct (first_explicit EXPLICIT_METHOD_PATTERNS text) as [u|] eqn:E.
  - intros [= <-]. apply (first_explicit_verbs text EXPLICIT_METHOD_PATTERNS); [|exact E].
    repeat constructor.
  - intro H. apply first_hint_in in H.
    assert (S : incl (map snd FRAMEWORK_HINTS) VERBS).
    { intros x Hx. vm_compute in Hx. vm_compute. tauto. }
    now apply S.
Qed.

Lemma X1_method_is_a_verb_witness :
  extractMethod (lit "I/flutter ( 12): method = 'pAtCh'") = Some (raw "PATCH") /\
  In (raw "PATCH") VERBS.
Proof.
  assert (H : extractMethod (lit "I/flutter ( 12): method = 'pAtCh'") = Some (raw "PATCH"))
    by (vm_compute; reflexivity).
  split; [exact H|]. exact (X1_method_is_a_verb _ _ H).
Defined.

Lemma is_space_cases (c : char) :
  is_space c = true ->
  c = 9%N \/ c = 10%N \/ c = 11%N \/ c = 12%N \/ c = 13%N \/ c = 32%N \/ c = 160%N \/
  c = 5760%N \/ c = 8192%N \/ c = 8193%N \/ c = 8194%N \/ c = 8195%N \/ c = 8196%N \/
  c = 8197%N \/ c = 8198%N \/ c = 8199%N \/ c = 8200%N \/ c = 8201%N \/ c = 8202%N \/
  c = 8232%N \/ c = 8233%N \/ c = 8239%N \/ c = 8287%N \/ c = 12288%N \/ c = 65279%N.
Proof.
  unfold is_space, between, char_eqb. intro H.
  repeat (apply orb_true_iff in H; destruct H as [H|H]);
    try (apply andb_true_iff in H; destruct H as [H1 H2]; apply N.leb_le in H1, H2);
    try apply N.eqb_eq in H; lia.
Qed.

Lemma token_char_cases (c : char) :
  token_char c = false ->
  is_space c = true \/ c = code "," \/ c = code ";" \/ c = code "'" \/ c = dq \/
  c = code "}" \/ c = code "]".
Proof.
  unfold token_char. intro H. apply negb_false_iff in H.
  remember (is_space c) as sp eqn:Esp. clear Esp.
  repeat (apply orb_true_iff in H; destruct H as [H|H]);
    try (apply char_eqb_eq in H); tauto.
Qed.

Lemma class_token_loose (fl : flags) (c : char) :
  in_class fl true [CSpace; ch ","; ch ";"; ch "'"; CLit dq; ch "}"; ch "]"] c = true ->
  token_char c = true.
Proof.
  intro H. destruct (token_char c) eqn:T; [reflexivity|exfalso].
  apply token_char_cases in T. unfold in_class, class_mem in H.
  apply negb_true_iff, orb_false_iff in H. destruct H as [H _].
  assert (K : forall it, In it [CSpace; ch ","; ch ";"; ch "'"; CLit dq; ch "}"; ch "]"] ->
                         item_mem it c = true -> False).
  { intros it I M.
    assert (E : existsb (fun it => item_mem it c)
                        [CSpace; ch ","; ch ";"; ch "'"; CLit dq; ch "}"; ch "]"] = true)
      by (apply existsb_exists; now exists it).
    congruence. }
  destruct T as [T|[T|[T|[T|[T|[T|T]]]]]].
  - apply (K CSpace); [simpl; tauto|exact T].
  - apply (K (ch ",")); [simpl; tauto|subst c; reflexivity].
  - apply (K (ch ";")); [simpl; tauto|subst c; reflexivity].
  - apply (K (ch "'")); [simpl; tauto|subst c; reflexivity].
  - apply (K (CLit dq)); [simpl; tauto|subst c; reflexivity].
  - apply (K (ch "}")); [simpl; tauto|subst c; reflexivity].
  - apply (K (ch "]")); [simpl; tauto|subst c; reflexivity].
Qed.

Lemma class_token_strict (fl : flags) (c : char) :
  in_class fl false [rng "a" "z"; rng "A" "Z"; rng "0" "9"; ch "|"; ch "."; ch "_";
                     ch "-"; ch "/"; ch "+"; ch "="] c = true ->
  token_char c = true.
Proof.
  intro H. destruct (token_char c) eqn:T; [reflexivity|exfalso].
  apply token_char_cases in T.
  assert (K : forall x, c = x ->
                in_class flag_i false
                  [rng "a" "z"; rng "A" "Z"; rng "0" "9"; ch "|"; ch "."; ch "_";
                   ch "-"; ch "/"; ch "+"; ch "="] x = false ->
                in_class no_flags false
                  [rng "a" "z"; rng "A" "Z"; rng "0" "9"; ch "|"; ch "."; ch "_";
                   ch "-"; ch "/"; ch "+"; ch "="] x = false -> False).
  { intros x -> K1 K2. unfold in_class, class_mem in *.
    destruct (ignoreCase fl); simpl in *; congruence. }
  destruct T as [T|T].
  - apply is_space_cases in T.
    repeat (destruct T as [T|T]; [apply (K _ T); reflexivity|]).
    apply (K _ T); reflexivity.
  - repeat (destruct T as [T|T]; [apply (K _ T); reflexivity|]).
    apply (K _ T); reflexivity.
Qed.

Lemma token_body_loose (fl : flags) (p q : place) (w : str) :
  matches fl (Plus (nset [CSpace; ch ","; ch ";"; ch "'"; CLit dq; ch "}"; ch "]"])) p q ->
  snd p = w ++ snd q ->
  w <> [] /\ Forall (fun c => token_char c = true) w.
Proof.
  intros H E. apply matches_plus_class in H. destruct H as (c & v & E' & F).
  rewrite E in E'. change (c :: v ++ snd q) with ((c :: v) ++ snd q) in E'.
  apply app_inv_tail in E'. subst w. split; [discriminate|].
  eapply Forall_impl; [|exact F]. intros a. apply class_token_loose.
Qed.

Lemma token_body_strict (fl : flags) (p q : place) (w : str) :
  matches fl (AtLeast 10 (set [rng "a" "z"; rng "A" "Z"; rng "0" "9"; ch "|"; ch ".";
                               ch "_"; ch "-"; ch "/"; ch "+"; ch "="])) p q ->
  snd p = w ++ snd q ->
  10 <= length w /\ Forall (fun c => token_char c = true) w.
Proof.
  intros H E. unfold AtLeast, set in H.
  inversion H as [| |? ? ? q1 ? M1 M2| | | | | | | | |]; subst.
  apply (matches_rep_class fl false _ 10) in M1. destruct M1 as (w1 & E1 & L1 & F1).
  apply matches_star_class in M2. destruct M2 as (w2 & E2 & F2).
  rewrite E2, app_assoc in E1. rewrite E in E1. apply app_inv_tail in E1. subst w.
  split; [rewrite length_app; lia|].
  apply Forall_app. split; (eapply Forall_impl; [|eassumption]);
    intros a; apply class_token_strict.
Qed.

(** X2.  Whatever [extractToken] returns is not empty and holds no white
    space, comma, semicolon, quote, closing brace or closing bracket. *)
Theorem X2_token_shape (text t : str) :
  extractToken text = Some t ->
  t <> [] /\ Forall (fun c => token_char c = true) t.
Proof.
  unfold extractToken, TOKEN_PATTERNS. simpl.
  repeat match goal with
         | |- match exec ?fl ?r text with _ => _ end = Some t -> _ =>
             let E := fresh "E" in
             destruct (exec fl r text) as [x|] eqn:E;
             [intros [= <-];
              destruct (exec_group fl r _ text x E eq_refl) as (p & q & M & S);
              first [ exact (token_body_loose fl p q _ M S)
                    | destruct (token_body_strict fl p q _ M S) as [L F];
                      split; [intro Z; rewrite Z in L; simpl in L; lia|exact F] ]
             |]
         end.
  discriminate.
Qed.

Lemma X2_token_shape_witness :
  extractToken (lit "authorization=`Bearer tok|1234/567=`, next") = Some (raw "tok") /\
  Forall (fun c => token_char c = true) (raw "tok").
Proof.
  assert (H : extractToken (lit "authorization=`Bearer tok|1234/567=`, next") = Some (raw "tok"))
    by (vm_compute; reflexivity).
  split; [exact H|]. exact (proj2 (X2_token_shape _ _ H)).
Defined.

(* ------------------------------------------------------------------ *)
(** ** Prefix stripping removes only the start of a line *)

Lemma before_some (c : char) (a : str) : before (Some c) a <> None.
Proof.
  unfold before. revert c. induction a as [|x a IH]; intro c; simpl; [discriminate|].
  apply IH.
Qed.

Lemma before_none (a : str) : before None a = None -> a = [].
Proof.
  destruct a as [|x a]; [reflexivity|]. unfold before. simpl. intro H.
  now apply before_some in H.
Qed.

(** A pattern anchored with [^] (without the [m] flag) matches at index 0
    only. *)
Lemma run_bol_prev (fl : flags) (r : regex) (st st' : cursor) :
  multiline fl = false -> run fl (Seq Bol r) st st' -> prev st = None.
Proof.
  intros Hm H. inversion H as [| |? ? ? st1 ? R1 R2| | | | | | | | |]; subst.
  inversion R1 as [| | | | | | | |? B| | |]; subst.
  unfold at_bol in B. rewrite Hm in B. destruct (prev st1); [discriminate|reflexivity].
Qed.

Lemma exec_bol_start (fl : flags) (r : regex) (s : str) (x : rmatch) :
  multiline fl = false -> exec fl (Seq Bol r) s = Some x -> m_start x = 0.
Proof.
  intros Hm H. apply exec_run in H.
  destruct H as (a & b & st' & _ & Hs & R & _).
  apply (run_bol_prev fl r _ _ Hm) in R. simpl in R.
  apply before_none in R. now subst a.
Qed.

Lemma exec_from_bol_later (fl : flags) (r : regex) (s : str) (from : nat) :
  multiline fl = false -> 0 < from -> exec_from fl (Seq Bol r) s from = None.
Proof.
  intros Hm Hf. unfold exec_from.
  destruct (length s <? from) eqn:L; [reflexivity|]. apply Nat.ltb_ge in L.
  destruct (search fl (Seq Bol r) (char_before s from) (skipn from s) from) as [x|] eqn:E;
    [|reflexivity].
  exfalso. apply search_run in E. destruct E as (a & b & st' & _ & _ & R & _).
  apply (run_bol_prev fl r _ _ Hm) in R. simpl in R.
  destruct from as [|k]; [lia|]. simpl in R.
  destruct (nth_error s k) as [c|] eqn:N.
  - now apply before_some in R.
  - apply nth_error_None in N. lia.
Qed.

Lemma replace_bol_suffix (fl : flags) (r : regex) (g : bool) (s : str) :
  multiline fl = false -> exists n, replace fl (Seq Bol r) g [] s = skipn n s.
Proof.
  intro Hm. unfold replace. cbn [replace_loop].
  change (exec_from fl (Seq Bol r) s 0) with (exec fl (Seq Bol r) s).
  destruct (exec fl (Seq Bol r) s) as [x|] eqn:E.
  - rewrite (exec_bol_start fl r s x Hm E).
    unfold substring. simpl firstn. simpl app.
    destruct g.
    + rewrite exec_from_bol_later; [now exists (m_end x)|assumption|].
      destruct (m_end x =? 0) eqn:Z; [lia|apply Nat.eqb_neq in Z; lia].
    + now exists (m_end x).
  - now exists 0.
Qed.

Lemma stripLine_suffix (line : str) : exists n, stripLine line = skipn n line.
Proof.
  unfold stripLine, re_prompt, re_nest, re_iso, re_laravel, re_logcat, re_flutter.
  repeat match goal with
         | |- context [replace ?fl (Seq Bol ?r) ?g [] ?s] =>
             let n := fresh "n" in
             let E := fresh "E" in
             destruct (replace_bol_suffix fl r g s eq_refl) as [n E];
             rewrite E; clear E
         end.
  rewrite !skipn_skipn. eexists. reflexivity.
Qed.

Lemma split_no_nl (sep : char) (s : str) :
  Forall (fun l => ~ In sep l) (split sep s).
Proof.
  induction s as [|c s IH]; simpl.
  - constructor; [tauto|constructor].
  - destruct (char_eqb c sep) eqn:E.
    + constructor; [tauto|assumption].
    + destruct (split sep s) as [|p ps]; [repeat constructor; simpl; intros [->|[]];
        rewrite (proj2 (char_eqb_eq sep sep) eq_refl) in E; discriminate|].
      inversion IH as [|? ? Hp Hps]; subst. constructor; [|assumption].
      simpl. intros [->|H]; [|contradiction].
      rewrite (proj2 (char_eqb_eq sep sep) eq_refl) in E. discriminate.
Qed.

Lemma split_app_sep (sep : char) (p rest : str) :
  ~ In sep p -> split sep (p ++ sep :: rest) = p :: split sep rest.
Proof.
  induction p as [|c p IH]; intro H; simpl.
  - now rewrite (proj2 (char_eqb_eq sep sep) eq_refl).
  - destruct (char_eqb c sep) eqn:E.
    + apply char_eqb_eq in E. elim H. now left.
    + rewrite IH; [reflexivity|]. intro I. apply H. now right.
Qed.

Lemma split_single (sep : char) (p : str) : ~ In sep p -> split sep p = [p].
Proof.
  induction p as [|c p IH]; intro H; simpl; [reflexivity|].
  destruct (char_eqb c sep) eqn:E.
  - apply char_eqb_eq in E. elim H. now left.
  - rewrite IH; [reflexivity|]. intro I. apply H. now right.
Qed.

Lemma split_join (sep : char) (ls : list str) :
  ls <> [] -> Forall (fun l => ~ In sep l) ls -> split sep (join [sep] ls) = ls.
Proof.
  induction ls as [|l ls IH]; intros N F; [now elim N|].
  inversion F as [|? ? Hl Hls]; subst.
  destruct ls as [|l2 ls'].
  - simpl. now apply split_single.
  - change (join [sep] (l :: l2 :: ls')) with (l ++ sep :: join [sep] (l2 :: ls')).
    rewrite split_app_sep by assumption. f_equal. apply IH; [discriminate|assumption].
Qed.

Lemma split_strip (x : str) :
  split nl (stripLogPrefixes x) = map stripLine (split nl x).
Proof.
  unfold stripLogPrefixes.
  assert (F : Forall (fun l => ~ In nl l) (map stripLine (split nl x))).
  { pose proof (split_no_nl nl x) as H. induction H as [|l ls Hl _ IH]; simpl.
    - constructor.
    - constructor; [|assumption]. destruct (stripLine_suffix l) as [n ->].
      intro I. apply Hl. revert I. clear. revert l.
      induction n as [|n IH]; intros l I; [exact I|].
      destruct l as [|c l]; [exact I|]. right. now apply IH. }
  apply split_join; [|exact F].
  pose proof (split_nonempty nl x). destruct (split nl x); [congruence|discriminate].
Qed.

(** A match never moves backwards, and a pattern that [consumes] reads at
    least one character. *)
Lemma matches_length (fl : flags) (r : regex) (p q : place) :
  matches fl r p q ->
  length (snd q) <= length (snd p) /\
  (consumes r = true -> length (snd q) < length (snd p)).
Proof.
  induction 1 as [p|neg items pv c tl Hc|r1 r2 p q t _ [L1 S1] _ [L2 S2]
                  |r1 r2 p q _ [L1 S1]|r1 r2 p q _ [L1 S1]|r p
                  |r p q t _ [L1 _] Hl _ [L2 _]|i r p q _ [L1 S1]
                  |p B|p E|p W|r p q _ _]; cbn [consumes snd];
    try (split; [lia|discriminate]).
  - split; simpl; lia.
  - split; [lia|]. intro C. apply orb_true_iff in C. destruct C as [C|C].
    + specialize (S1 C). lia.
    + specialize (S2 C). lia.
  - split; [lia|]. intro C. apply andb_true_iff in C. destruct C as [C _]. auto.
  - split; [lia|]. intro C. apply andb_true_iff in C. destruct C as [_ C]. auto.
  - split; [lia|]. exact S1.
Qed.

(** One removal of a prefix anchored at the start of the line: the line is
    left alone when the pattern does not match, and gets shorter when it
    does. *)
Lemma strip_step (fl : flags) (r : regex) (g : bool) (s : str) :
  multiline fl = false -> consumes r = true ->
  (exec fl (Seq Bol r) s = None /\ replace fl (Seq Bol r) g [] s = s) \/
  length (replace fl (Seq Bol r) g [] s) < length s.
Proof.
  intros Hm Hc. destruct (exec fl (Seq Bol r) s) as [x|] eqn:E.
  - right. pose proof (exec_bol_start fl r s x Hm E) as St.
    pose proof E as E'. apply exec_run in E'.
    destruct E' as (a & b & st' & Es & Ea & R & Ee & _).
    rewrite St in Ea. destruct a; [|discriminate]. simpl in Es. subst b.
    pose proof (run_matches _ _ _ _ R) as M.
    destruct (matches_length _ _ _ _ M) as [_ Lt].
    specialize (Lt ltac:(cbn [consumes]; rewrite Hc; apply orb_true_r)).
    destruct (run_reads _ _ _ _ R) as [w (Rw & Rp & _)].
    cbn [here snd rest pos prev] in Lt, Rw, Rp.
    assert (Lw : 0 < length w <= length s).
    { rewrite Rw in Lt |- *. rewrite length_app in *. lia. }
    assert (Res : replace fl (Seq Bol r) g [] s = skipn (m_end x) s).
    { unfold replace. cbn [replace_loop].
      change (exec_from fl (Seq Bol r) s 0) with (exec fl (Seq Bol r) s).
      rewrite E, St. unfold substring. simpl firstn. simpl app.
      destruct g; [|reflexivity].
      rewrite exec_from_bol_later; [reflexivity|assumption|].
      destruct (m_end x =? 0) eqn:Z; [lia|apply Nat.eqb_neq in Z; lia]. }
    rewrite Res, length_skipn, Ee, Rp. lia.
  - left. split; [reflexivity|]. now apply replace_no_match.
Qed.

Lemma shrinks_comp (f g : str -> str) (A B : str -> Prop) :
  shrinks f A -> shrinks g B -> shrinks (fun s => g (f s)) (fun s => A s /\ B s).
Proof.
  intros Hf Hg s. destruct (Hf s) as [[Ha Ef]|Lf].
  - destruct (Hg s) as [[Hb Eg]|Lg].
    + left. rewrite Ef. now repeat split.
    + right. now rewrite Ef.
  - right. destruct (Hg (f s)) as [[_ Eg]|Lg]; [now rewrite Eg|lia].
Qed.

Lemma stripLine_shrinks : shrinks stripLine no_prefix.
Proof.
  assert (S : forall fl r g, multiline fl = false -> consumes r = true ->
                shrinks (replace fl (Seq Bol r) g [])
                        (fun s => exec fl (Seq Bol r) s = None)).
  { intros fl r g Hm Hc s. now apply strip_step. }
  intro s.
  pose proof (shrinks_comp _ _ _ _
               (shrinks_comp _ _ _ _
                 (shrinks_comp _ _ _ _
                   (shrinks_comp _ _ _ _
                     (shrinks_comp _ _ _ _
                        (S flag_i (Str "flutter:" ;; Star sp) false eq_refl eq_refl)
                        (S no_flags _ true eq_refl
                           (eq_refl : consumes (set [ch "I"; ch "D"; ch "W"; ch "E"; ch "V"] ;; L "/"
                                        ;; Plus (set [CWord; ch "."]) ;; Star sp ;; L "(" ;; Star sp
                                        ;; Plus dg ;; L ")" ;; L ":" ;; Star sp) = true)))
                     (S no_flags _ true eq_refl
                        (eq_refl : consumes (L "[" ;; Rep 4 dg ;; Star (nset [ch "]"]) ;; L "]"
                                     ;; Star sp ;; Star (set [CWord; ch "."]) ;; L ":" ;; Star sp)
                                   = true)))
                   (S no_flags _ true eq_refl
                      (eq_refl : consumes (Rep 4 dg ;; L "-" ;; Rep 2 dg ;; L "-" ;; Rep 2 dg
                                   ;; set [ch "T"; ch " "] ;; Rep 2 dg ;; L ":" ;; Rep 2 dg ;; L ":"
                                   ;; Rep 2 dg ;; Star (set [CDigit; ch "."]) ;; Opt (L "Z")
                                   ;; Star sp) = true)))
                 (S no_flags _ true eq_refl
                    (eq_refl : consumes (Str "[Nest]" ;; Star sp ;; Plus dg ;; Star sp ;; L "-"
                                 ;; Star sp ;; Plus (nset [ch "["])
                                 ;; Opt (L "[" ;; Plus (set [CWord]) ;; L "]" ;; Star sp))
                               = true)))
               (S no_flags _ true eq_refl (eq_refl : consumes (L ">" ;; Star sp) = true))
               s) as H.
  destruct H as [[(((((H1 & H2) & H3) & H4) & H5) & H6) E]|L].
  - left. split; [now repeat split|exact E].
  - right. exact L.
Qed.

Lemma stripLine_fixed (line : str) : stripLine line = line <-> no_prefix line.
Proof.
  split.
  - intro E. destruct (stripLine_shrinks line) as [[H _]|L]; [exact H|].
    rewrite E in L. lia.
  - apply stripLine_no_prefix.
Qed.

Lemma map_fixed (f : str -> str) (P : str -> Prop) (ls : list str) :
  (forall l, f l = l <-> P l) -> (map f ls = ls <-> Forall P ls).
Proof.
  intro H. induction ls as [|l ls IH]; simpl.
  - split; [constructor|reflexivity].
  - split.
    + intros [= E1 E2]. constructor; [now apply H|now apply IH].
    + intro F. inversion F as [|? ? Hl Hls]; subst.
      f_equal; [now apply H|now apply IH].
Qed.

(** The texts that stripping leaves alone are those without a recognised
    prefix at the start of any line. *)
Lemma strip_fixed (y : str) :
  stripLogPrefixes y = y <-> Forall no_prefix (split nl y).
Proof.
  rewrite <- (map_fixed stripLine no_prefix (split nl y) stripLine_fixed).
  rewrite <- split_strip. split.
  - intro E. now rewrite E.
  - intro E. rewrite <- (join_split nl (stripLogPrefixes y)), E. apply join_split.
Qed.

(** C1 (as amended).  The stripper works line by line: the result has the
    lines of the input, each with some (possibly no) characters removed
    from its start, and a line comes out unchanged exactly when it starts
    with no recognised prefix, whatever the other lines are.  Stripping
    twice equals stripping once exactly on the inputs where one pass leaves
    no recognised prefix at the start of any line. *)
Theorem C1_strip_line_by_line (x : str) :
  Forall2 (fun line line' =>
             (exists n, line' = skipn n line) /\ (line' = line <-> no_prefix line))
          (split nl x) (split nl (stripLogPrefixes x)) /\
  (stripLogPrefixes (stripLogPrefixes x) = stripLogPrefixes x
   <-> Forall no_prefix (split nl (stripLogPrefixes x))).
Proof.
  split; [|apply strip_fixed].
  rewrite split_strip. induction (split nl x) as [|l ls IH]; simpl; constructor.
  - split; [apply stripLine_suffix|apply stripLine_fixed].
  - exact IH.
Qed.

Lemma C1_strip_line_by_line_witness :
  let x := lit "flutter: POST /login|{a: 1}|2024-01-15T10:23:45.123Z > b" in
  stripLogPrefixes x = lit "POST /login|{a: 1}|b" /\
  stripLogPrefixes (stripLogPrefixes x) = stripLogPrefixes x.
Proof.
  intro x. split; [vm_compute; reflexivity|].
  apply (proj2 (proj2 (C1_strip_line_by_line x))).
  vm_compute. repeat constructor.
Defined.

(* ------------------------------------------------------------------ *)
(** ** What the body selector returns *)

Lemma class_lit_brace (fl : flags) (x c : char) :
  x = code "{" \/ x = code "}" ->
  in_class fl false [CLit x] c = true -> c = x.
Proof.
  intros Hx H. unfold in_class in H. simpl in H.
  apply class_lit_upper in H.
  assert (Ux : upper_char x = x) by (destruct Hx as [->| ->]; reflexivity).
  rewrite Ux in H. unfold upper_char in H.
  destruct (is_lower c) eqn:Lc; [|exact H].
  unfold is_lower, between in Lc. apply andb_true_iff in Lc.
  destruct Lc as [L1 L2]. apply N.leb_le in L1, L2.
  change (code "{") with 123%N in Hx. change (code "}") with 125%N in Hx. lia.
Qed.

Lemma brace_body (fl : flags) (neg : bool) (items : list citem) (p q : place) (w : str) :
  matches fl (L "{" ;; Star (Chars neg items) ;; L "}") p q ->
  snd p = w ++ snd q ->
  exists mid, w = code "{" :: mid ++ [code "}"].
Proof.
  intros H E.
  inversion H as [| |? ? ? q1 ? M1 M2| | | | | | | | |]; subst.
  inversion M2 as [| |? ? ? q2 ? M3 M4| | | | | | | | |]; subst.
  apply matches_class in M1. destruct M1 as (c1 & E1 & H1).
  apply matches_star_class in M3. destruct M3 as (mid & E3 & _).
  apply matches_class in M4. destruct M4 as (c4 & E4 & H4).
  apply class_lit_brace in H1; [|now left]. apply class_lit_brace in H4; [|now right].
  subst c1 c4. exists mid.
  rewrite E3, E4 in E1. rewrite E in E1.
  change (code "{" :: mid ++ code "}" :: snd q)
    with ((code "{" :: mid) ++ [code "}"] ++ snd q) in E1.
  rewrite app_assoc in E1. apply app_inv_tail in E1. exact E1.
Qed.

Lemma first_group_braces (text : str) (res : list regex) (c : str) :
  Forall (fun r => exists neg items,
            group_body 1 r = Some (L "{" ;; Star (Chars neg items) ;; L "}")) res ->
  first_group flag_i res text = Some c ->
  exists mid, c = code "{" :: mid ++ [code "}"].
Proof.
  induction 1 as [|r res (neg & items & G) _ IH]; simpl; intro H; [discriminate|].
  destruct (exec flag_i r text) as [x|] eqn:E; [|now apply IH].
  injection H as <-.
  destruct (exec_group flag_i r _ text x E G) as (p & q & M & S).
  exact (brace_body flag_i neg items p q _ M S).
Qed.

(** The fast path returns a text between braces. *)
Lemma logfmt_capture_braces (text c : str) :
  extractBodyFromKeyValue text = Some c ->
  exists mid, c = code "{" :: mid ++ [code "}"].
Proof.
  apply first_group_braces. unfold LOGFMT_BODY_PATTERNS.
  repeat (constructor; [eexists _, _; reflexivity|]). constructor.
Qed.

Lemma fold_fewer_headers_In (ts : list ScoredBlock) :
  forall t, In (fold_left fewer_headers ts t) (t :: ts).
Proof.
  induction ts as [|c ts IH]; intro t; simpl; [now left|].
  destruct (IH (fewer_headers t c)) as [H|H].
  - rewrite <- H. unfold fewer_headers.
    destruct (_ <? _); [right; now left|now left].
  - right. now right.
Qed.

(** X3.  [extractBody] returns [null] only when the fast path finds
    nothing and the text has no balanced block.  What it returns is the
    fast path's capture or the content of one of the blocks found, never a
    merge or a part of them, and it always starts with an opening and ends
    with a closing brace. *)
Theorem X3_body_is_a_capture_or_a_block (text : str) :
  (extractBody text = None <->
   extractBodyFromKeyValue text = None /\ extractBalancedBlocks text = []) /\
  (forall c, extractBody text = Some c ->
     (extractBodyFromKeyValue text = Some c \/
      exists b, In b (extractBalancedBlocks text) /\ content b = c) /\
     exists mid, c = code "{" :: mid ++ [code "}"]).
Proof.
  assert (Main : forall c, extractBody text = Some c ->
            extractBodyFromKeyValue text = Some c \/
            exists b, In b (extractBalancedBlocks text) /\ content b = c).
  { intros c H.
    destruct (extractBodyFromKeyValue text) as [kv|] eqn:K.
    - unfold extractBody in H. rewrite K in H.
      destruct (logfmt_capture_braces text kv K) as (mid & ->). simpl in H. now left.
    - right.
      destruct (extractBalancedBlocks text) as [|x0 [|x1 bs]] eqn:B.
      + unfold extractBody in H. rewrite K, B in H. discriminate.
      + unfold extractBody in H. rewrite K, B in H. injection H as <-.
        exists x0. split; [now left|reflexivity].
      + rewrite <- B in *.
        assert (L2 : 2 <= length (extractBalancedBlocks text)) by (rewrite B; simpl; lia).
        rewrite (extractBody_many text K L2) in H.
        assert (In_sorted : forall s, In s (sort_desc (map scoreBlock (extractBalancedBlocks text))) ->
                                      In (block s) (extractBalancedBlocks text)).
        { intros s Hs. apply sort_desc_In, in_map_iff in Hs.
          destruct Hs as (b & <- & Hb). now rewrite block_scoreBlock. }
        destruct (sort_desc (map scoreBlock (extractBalancedBlocks text)))
          as [|s0 [|s1 srest]] eqn:S; try discriminate.
        destruct (score s1 <? score s0)%Z.
        * injection H as <-. exists (block s0). split; [|reflexivity].
          apply In_sorted. now left.
        * destruct (filter _ (s0 :: s1 :: srest)) as [|t ts] eqn:F; [discriminate|].
          injection H as <-. eexists. split; [|reflexivity].
          apply In_sorted.
          assert (I : In (fold_left fewer_headers ts t)
                         (filter (fun s => (score s =? score s0)%Z) (s0 :: s1 :: srest)))
            by (rewrite F; apply fold_fewer_headers_In).
          apply filter_In in I. tauto. }
  split.
  - split.
    + intro H.
      destruct (extractBodyFromKeyValue text) as [kv|] eqn:K.
      * unfold extractBody in H. rewrite K in H.
        destruct (logfmt_capture_braces text kv K) as (mid & ->). discriminate.
      * split; [reflexivity|].
        destruct (extractBalancedBlocks text) as [|x0 [|x1 bs]] eqn:B; [reflexivity| |].
        -- unfold extractBody in H. rewrite K, B in H. discriminate.
        -- exfalso. rewrite <- B in *.
           assert (L2 : 2 <= length (extractBalancedBlocks text)) by (rewrite B; simpl; lia).
           rewrite (extractBody_many text K L2) in H.
           assert (L : length (sort_desc (map scoreBlock (extractBalancedBlocks text)))
                       = S (S (length bs)))
             by (rewrite sort_desc_length, length_map, B; reflexivity).
           destruct (sort_desc (map scoreBlock (extractBalancedBlocks text)))
             as [|s0 [|s1 srest]] eqn:S; try discriminate.
           destruct (score s1 <? score s0)%Z; [discriminate|].
           simpl in H. rewrite Z.eqb_refl in H. discriminate.
    + intros [K B]. unfold extractBody. now rewrite K, B.
  - intros c H. split; [now apply Main|].
    destruct (Main c H) as [K|(b & I & <-)].
    + now apply logfmt_capture_braces in K.
    + pose proof (extractBalancedBlocks_ok text) as Ok.
      rewrite Forall_forall in Ok. destruct (Ok b I) as (_ & _ & _ & B1 & _).
      exact B1.
Qed.

Lemma X3_body_is_a_capture_or_a_block_witness :
  extractBody (lit "HEADERS: {accept: x}|data={id: 7}") = Some (lit "{id: 7}") /\
  exists mid, lit "{id: 7}" = code "{" :: mid ++ [code "}"].
Proof.
  assert (H : extractBody (lit "HEADERS: {accept: x}|data={id: 7}") = Some (lit "{id: 7}"))
    by (vm_compute; reflexivity).
  split; [exact H|].
  exact (proj2 (proj2 (X3_body_is_a_capture_or_a_block _) _ H)).
Defined.

Lemma filter_nothing (A : Type) (p : A -> bool) (l : list A) :
  (forall x, In x l -> p x = false) -> filter p l = [].
Proof.
  induction l as [|x l IH]; intro H; simpl; [reflexivity|].
  rewrite (H x (or_introl eq_refl)). apply IH. intros y Hy. apply H. now right.
Qed.

(** X4.  When the fast path finds nothing and one block scores strictly
    higher than every other block, that block's content is returned,
    wherever the block stands in the text. *)
Theorem X4_clear_winner (text : str) (l1 l2 : list TextBlock) (b : TextBlock) :
  extractBodyFromKeyValue text = None ->
  extractBalancedBlocks text = l1 ++ b :: l2 ->
  (forall x, In x (l1 ++ l2) -> (sc x < sc b)%Z) ->
  extractBody text = Some (content b).
Proof.
  intros K B Hlt.
  destruct (l1 ++ l2) as [|y ys] eqn:E12.
  - apply app_eq_nil in E12. destruct E12 as [-> ->]. simpl in B.
    unfold extractBody. now rewrite K, B.
  - assert (L2 : 2 <= length (extractBalancedBlocks text)).
    { rewrite B, length_app. simpl.
      assert (length (l1 ++ l2) = S (length ys)) by now rewrite E12.
      rewrite length_app in H. lia. }
    rewrite <- E12 in Hlt. clear E12 y ys.
    rewrite (extractBody_many text K L2).
    set (top := sc b) in *.
    assert (F : filter (has_score top) (sort_desc (map scoreBlock (extractBalancedBlocks text)))
                = [scoreBlock b]).
    { rewrite sort_desc_filter. unfold has_score.
      rewrite filter_map_scoreBlock, B, filter_app. simpl.
      unfold top at 2. rewrite Z.eqb_refl.
      rewrite !filter_nothing; [reflexivity| |].
      - intros x Hx. apply Z.eqb_neq.
        specialize (Hlt x (in_or_app _ _ _ (or_intror Hx))). lia.
      - intros x Hx. apply Z.eqb_neq.
        specialize (Hlt x (in_or_app _ _ _ (or_introl Hx))). lia. }
    assert (Hle : forall s, In s (sort_desc (map scoreBlock (extractBalancedBlocks text))) ->
                            (score s <= top)%Z).
    { intros s Hs. apply sort_desc_In, in_map_iff in Hs.
      destruct Hs as (x & <- & Hx). rewrite B in Hx. apply in_app_or in Hx.
      destruct Hx as [Hx|[<-|Hx]].
      - specialize (Hlt x (in_or_app _ _ _ (or_introl Hx))). unfold sc in Hlt. lia.
      - unfold top, sc. lia.
      - specialize (Hlt x (in_or_app _ _ _ (or_intror Hx))). unfold sc in Hlt. lia. }
    assert (Hb : In (scoreBlock b) (sort_desc (map scoreBlock (extractBalancedBlocks text)))).
    { apply sort_desc_In, in_map. rewrite B. apply in_elt. }
    pose proof (sort_desc_descending (map scoreBlock (extractBalancedBlocks text))) as D.
    assert (Len : length (sort_desc (map scoreBlock (extractBalancedBlocks text)))
                  = length (extractBalancedBlocks text))
      by now rewrite sort_desc_length, length_map.
    destruct (sort_desc (map scoreBlock (extractBalancedBlocks text)))
      as [|s0 [|s1 srest]]; try (simpl in Len; lia).
    assert (T0 : score s0 = top).
    { assert (score s0 <= top)%Z by (apply Hle; now left).
      destruct D as [D _]. simpl in D.
      destruct Hb as [Hb|Hb]; [rewrite Hb; reflexivity|]. specialize (D _ Hb).
      fold (sc b) in D. fold top in D. lia. }
    simpl in F. unfold has_score at 1 in F. rewrite T0, Z.eqb_refl in F.
    injection F as F0 F1.
    assert (T1 : (score s1 < top)%Z).
    { assert (score s1 <= top)%Z by (apply Hle; right; now left).
      destruct (has_score top s1) eqn:P; [discriminate|].
      unfold has_score in P. apply Z.eqb_neq in P. lia. }
    replace (score s1 <? score s0)%Z with true by (symmetry; apply Z.ltb_lt; lia).
    now rewrite F0, block_scoreBlock.
Qed.

Lemma X4_clear_winner_witness :
  extractBody (lit "HEADERS: {Authorization: x, Accept: y}|DATA: {name: a, age: 2}|config: {extra: 1}")
  = Some (lit "{name: a, age: 2}").
Proof.
  set (text := lit "HEADERS: {Authorization: x, Accept: y}|DATA: {name: a, age: 2}|config: {extra: 1}").
  set (b0 := nth 0 (extractBalancedBlocks text) (Build_TextBlock [] 0 0 [])).
  set (b1 := nth 1 (extractBalancedBlocks text) (Build_TextBlock [] 0 0 [])).
  set (b2 := nth 2 (extractBalancedBlocks text) (Build_TextBlock [] 0 0 [])).
  refine (X4_clear_winner text [b0] [b2] b1 _ _ _).
  - vm_compute. reflexivity.
  - vm_compute. reflexivity.
  - intros x [<-|[<-|[]]]; vm_compute; reflexivity.
Defined.

(* ------------------------------------------------------------------ *)
(** ** Custom headers *)

Lemma trimStart_head (s : str) (c : char) (r : str) :
  trimStart s = c :: r -> is_space c = false.
Proof.
  induction s as [|x s IH]; simpl; [discriminate|].
  destruct (is_space x) eqn:E; [exact IH|]. intros [= <- _]. exact E.
Qed.

Lemma trimStart_suffix (s : str) : exists p, s = p ++ trimStart s.
Proof.
  induction s as [|x s IH]; simpl; [now exists []|].
  destruct (is_space x).
  - destruct IH as [p Hp]. exists (x :: p). simpl. now rewrite <- Hp.
  - now exists [].
Qed.

Lemma trim_no_outer_space (s : str) : no_outer_space (trim s).
Proof.
  unfold trim, trimEnd. split.
  - intros c r H.
    destruct (trimStart_suffix (rev (trimStart s))) as [p Hp].
    apply (f_equal (@rev char)) in Hp. rewrite rev_involutive, rev_app_distr, H in Hp.
    destruct (trimStart s) as [|c0 t] eqn:T; [discriminate|].
    simpl in Hp. injection Hp as -> _. now apply trimStart_head in T.
  - intros c p H. apply (f_equal (@rev char)) in H.
    rewrite rev_involutive, rev_app_distr in H. simpl in H.
    now apply trimStart_head in H.
Qed.

Lemma header_key_shape (key : str) :
  test no_flags re_header_key key = true ->
  key <> [] /\ Forall (fun c => is_word c = true \/ c = code "-") key.
Proof.
  intro H. apply test_spec in H. destruct H as (a & b & q & -> & M).
  unfold re_header_key in M.
  inversion M as [| |? ? ? q1 ? M1 M2| | | | | | | | |]; subst.
  inversion M2 as [| |? ? ? q2 ? M3 M4| | | | | | | | |]; subst.
  inversion M1 as [| | | | | | | |? B| | |]; subst.
  inversion M4 as [| | | | | | | | |? E| |]; subst.
  unfold bol_at in B. simpl in B.
  destruct (before None a) eqn:Ba; [discriminate|]. apply before_none in Ba. subst a.
  unfold eol_at in E. simpl in E. destruct (snd q) eqn:Sq; [|discriminate].
  apply matches_plus_class in M3. destruct M3 as (c & w & Ew & F).
  simpl in Ew. rewrite Sq, app_nil_r in Ew. simpl. rewrite Ew.
  split; [discriminate|].
  eapply Forall_impl; [|exact F]. intros x Hx.
  unfold in_class, class_mem, ch, no_flags in Hx.
  cbn [existsb item_mem ignoreCase andb xorb] in Hx. rewrite !orb_false_r in Hx.
  apply orb_true_iff in Hx. destruct Hx as [Hx|Hx]; [now left|].
  apply char_eqb_eq in Hx. now right.
Qed.

Lemma read_headers_shape (P : CustomHeader -> Prop) :
  (forall key value, test no_flags re_header_key (trim key) = true ->
                     P {| hkey := trim key; hvalue := trim value |}) ->
  forall ls acc, Forall P acc -> Forall P (read_headers ls acc).
Proof.
  intros HP ls. induction ls as [|l ls IH]; intros acc Hacc; simpl; [assumption|].
  destruct (isSeparatorLine _); [assumption|].
  destruct (indexOf _ _) as [[|i]|]; try assumption.
  destruct (test no_flags re_header_key _) eqn:T; [|assumption].
  apply IH. apply Forall_app. split; [assumption|].
  constructor; [|constructor]. now apply HP.
Qed.

(** X5.  Every header that [extractCustomHeaders] returns has a key that is
    not empty and made of letters, digits, underscores and hyphens only,
    and a value without white space at either end. *)
Theorem X5_custom_header_shape (text : str) (h : CustomHeader) :
  In h (extractCustomHeaders text) ->
  hkey h <> [] /\
  Forall (fun c => is_word c = true \/ c = code "-") (hkey h) /\
  no_outer_space (hvalue h).
Proof.
  unfold extractCustomHeaders. destruct (find_section _) as [ls|]; [|intros []].
  pose proof (read_headers_shape
                (fun h => hkey h <> [] /\
                          Forall (fun c => is_word c = true \/ c = code "-") (hkey h) /\
                          no_outer_space (hvalue h))) as R.
  intro I. specialize (R ltac:(intros key value T; simpl;
                                destruct (header_key_shape _ T); repeat split;
                                try assumption; apply trim_no_outer_space) ls []
                          (Forall_nil _)).
  rewrite Forall_forall in R. now apply R.
Qed.

Lemma X5_custom_header_shape_witness :
  let text := lit "flutter: HEADERS:|flutter:    Server-Key:  QH6 bbax5 |flutter: ------" in
  extractCustomHeaders text = [Build_CustomHeader (raw "Server-Key") (raw "QH6 bbax5")] /\
  no_outer_space (raw "QH6 bbax5").
Proof.
  intro text.
  assert (H : extractCustomHeaders text
              = [Build_CustomHeader (raw "Server-Key") (raw "QH6 bbax5")])
    by (vm_compute; reflexivity).
  split; [exact H|].
  refine (proj2 (proj2 (X5_custom_header_shape text
                          (Build_CustomHeader (raw "Server-Key") (raw "QH6 bbax5")) _))).
  rewrite H. now left.
Defined.

(* ------------------------------------------------------------------ *)
(** ** Unwrapping *)

Lemma get_In (o : list (str * value)) (k : str) (v : value) :
  get o k = Some v -> In (k, v) o.
Proof.
  induction o as [|[k' v'] o IH]; simpl; [discriminate|].
  destruct (str_eqb k' k) eqn:E.
  - intros [= ->]. apply str_eqb_eq in E. subst. now left.
  - intro H. right. now apply IH.
Qed.

Lemma find_body_result (o : list (str * value)) (bks : list str) (v : value) :
  find_body o bks = Some v ->
  is_object_like (Some v) = true /\ exists k, In (k, v) o.
Proof.
  induction bks as [|bk bks IH]; simpl; [discriminate|].
  destruct (find _ _) as [realKey|]; [|exact IH].
  destruct (truthy realKey && is_object_like (get o realKey)) eqn:E; [|exact IH].
  apply andb_true_iff in E. destruct E as [_ E]. intro H. rewrite H in E.
  split; [exact E|]. exists realKey. now apply get_In.
Qed.

(** X6.  [unwrapBodyIfNeeded] gives back its argument or the value of one
    of the argument's own properties, and that value is an object or an
    array: a wrapper is never replaced by a string, a number, a boolean or
    [null]. *)
Theorem X6_unwrap_gives_argument_or_nested_object (parsed : value) :
  unwrapBodyIfNeeded parsed = parsed \/
  exists o k, parsed = JObj o /\ In (k, unwrapBodyIfNeeded parsed) o /\
              is_object_like (Some (unwrapBodyIfNeeded parsed)) = true.
Proof.
  destruct parsed as [| | | | |o]; try (now left).
  unfold unwrapBodyIfNeeded. destruct (negb (hasConfigShape o)); [now left|].
  destruct (find_body o BODY_KEYS) as [v|] eqn:F; [|now left].
  right. apply find_body_result in F. destruct F as [F (k & I)].
  exists o, k. now repeat split.
Qed.

(* ------------------------------------------------------------------ *)
(** ** The cURL command *)

Lemma join_snoc (sep : str) (ls : list str) (l : str) :
  ls <> [] -> join sep (ls ++ [l]) = join sep ls ++ sep ++ l.
Proof.
  induction ls as [|a ls IH]; [congruence|]. intros _.
  destruct ls as [|b ls]; [reflexivity|].
  change (join sep ((a :: b :: ls) ++ [l])) with (a ++ sep ++ join sep ((b :: ls) ++ [l])).
  rewrite IH by discriminate.
  change (join sep (a :: b :: ls)) with (a ++ sep ++ join sep (b :: ls)).
  now rewrite <- !app_assoc.
Qed.

Lemma join_append_last (sep : str) (ls : list str) (s : str) :
  ls <> [] -> join sep (append_last ls s) = join sep ls ++ s.
Proof.
  induction ls as [|a ls IH]; [congruence|]. intros _.
  destruct ls as [|b ls]; [reflexivity|].
  change (append_last (a :: b :: ls) s) with (a :: append_last (b :: ls) s).
  assert (N : append_last (b :: ls) s <> []) by (destruct ls; discriminate).
  destruct (append_last (b :: ls) s) as [|x xs] eqn:E; [congruence|].
  change (join sep (a :: x :: xs)) with (a ++ sep ++ join sep (x :: xs)).
  rewrite IH by discriminate.
  change (join sep (a :: b :: ls)) with (a ++ sep ++ join sep (b :: ls)).
  now rewrite <- !app_assoc.
Qed.

Lemma append_last_nonempty (ls : list str) (s : str) :
  ls <> [] -> append_last ls s <> [].
Proof. destruct ls as [|a [|b ls]]; [congruence| |]; discriminate. Qed.

Lemma push_line_join (lines plain : list str) (l : str) :
  lines <> [] -> plain <> [] ->
  join [nl] lines = join (lit " \|") plain ->
  push_line lines l <> [] /\ plain ++ [l] <> [] /\
  join [nl] (push_line lines l) = join (lit " \|") (plain ++ [l]).
Proof.
  intros Nl Np E. unfold push_line. split; [|split].
  - intro H. apply app_eq_nil in H. destruct H; discriminate.
  - intro H. apply app_eq_nil in H. destruct H; discriminate.
  - rewrite join_snoc by now apply append_last_nonempty.
    rewrite join_append_last by assumption.
    rewrite join_snoc by assumption. rewrite E.
    change (lit " \|") with (lit " \" ++ [nl]). now rewrite <- !app_assoc.
Qed.

Lemma fold_push_join (ls : list str) (lines plain : list str) :
  lines <> [] -> plain <> [] ->
  join [nl] lines = join (lit " \|") plain ->
  let lines' := fold_left (fun lines l => push_line lines l) ls lines in
  lines' <> [] /\ plain ++ ls <> [] /\
  join [nl] lines' = join (lit " \|") (plain ++ ls).
Proof.
  revert lines plain. induction ls as [|l ls IH]; intros lines plain Nl Np E; simpl.
  - now rewrite app_nil_r.
  - destruct (push_line_join lines plain l Nl Np E) as (A & B & C).
    specialize (IH _ _ A B C). simpl in IH. now rewrite <- app_assoc in IH.
Qed.

Lemma fold_left_map_push (hs : list CustomHeader) (lines : list str) :
  fold_left (fun lines h => push_line lines (header_line h)) hs lines
  = fold_left (fun lines l => push_line lines l) (map header_line hs) lines.
Proof.
  revert lines. induction hs as [|h hs IH]; intro lines; simpl; [reflexivity|apply IH].
Qed.

(** X7.  The command [buildCurl] returns is its lines joined by a space, a
    backslash and a line feed: the [curl --location] line with the quoted
    URL, the [--request] line, one [--header] line per header of
    [allHeaders] in order, and a [--data] line exactly when the body is a
    non-empty string.  So every line but the last is continued, and the
    last line gets no continuation mark. *)
Theorem X7_command_is_continued_lines (c : CurlComponents) :
  buildCurl c = join (lit " \|") (plain_lines c).
Proof.
  unfold buildCurl, curl_lines, plain_lines. rewrite fold_left_map_push.
  set (l0 := [lit "curl --location `" ++ url c ++ lit "` \"; lit "  --request " ++ method c]).
  set (p0 := [lit "curl --location `" ++ url c ++ lit "`"; lit "  --request " ++ method c]).
  assert (E0 : join [nl] l0 = join (lit " \|") p0).
  { unfold l0, p0. cbn [join]. change (lit "` \") with (lit "`" ++ lit " \").
    change (lit " \|") with (lit " \" ++ [nl]). now rewrite <- !app_assoc. }
  destruct (fold_push_join (map header_line (allHeaders c)) l0 p0
              ltac:(discriminate) ltac:(discriminate) E0) as (A & B & C).
  destruct (body c) as [b|]; cbn [truthy_opt].
  - destruct (truthy b).
    + destruct (push_line_join _ _ (lit "  --data '" ++ b ++ lit "'") A B C) as (_ & _ & D).
      rewrite D. now rewrite <- app_assoc.
    + now rewrite app_nil_r.
  - now rewrite app_nil_r.
Qed.

Lemma has_header_count (name : str) (l : list CustomHeader) :
  has (map (fun h => toLowerCase (hkey h)) l) name = negb (header_count name l =? 0).
Proof.
  unfold has, header_count. induction l as [|h l IH]; [reflexivity|].
  cbn [map existsb filter]. destruct (str_eqb name (toLowerCase (hkey h))); [reflexivity|].
  exact IH.
Qed.

Lemma header_count_app (name : str) (l1 l2 : list CustomHeader) :
  header_count name (l1 ++ l2) = header_count name l1 + header_count name l2.
Proof. unfold header_count. now rewrite filter_app, length_app. Qed.


(* ------------------------------------------------------------------ *)
(** ** Quote swapping *)

Lemma swap_quotes_plain (text : str) (inq : bool) :
  ~ In bsl text -> ~ In dq text ->
  swap_quotes inq text
  = map swap_char text
    ++ (if xorb inq (Nat.odd (count_char (code "'") text)) then [dq] else []).
Proof.
  revert inq. induction text as [|c text IH]; intros inq Hb Hd.
  - simpl. now destruct inq.
  - assert (Hb' : ~ In bsl text) by (intro; apply Hb; now right).
    assert (Hd' : ~ In dq text) by (intro; apply Hd; now right).
    assert (Nb : char_eqb c bsl = false).
    { destruct (char_eqb c bsl) eqn:E; [|reflexivity].
      apply char_eqb_eq in E. exfalso. apply Hb. now left. }
    assert (Nd : char_eqb c dq = false).
    { destruct (char_eqb c dq) eqn:E; [|reflexivity].
      apply char_eqb_eq in E. exfalso. apply Hd. now left. }
    unfold count_char. cbn [swap_quotes map filter]. unfold swap_char at 1.
    assert (S : char_eqb (code "'") c = char_eqb c (code "'"))
      by (unfold char_eqb; apply N.eqb_sym).
    rewrite S. destruct (char_eqb c (code "'")) eqn:Q.
    + cbn [length]. rewrite Nat.odd_succ, <- Nat.negb_odd.
      fold (count_char (code "'") text).
      destruct inq; rewrite IH by assumption;
        destruct (Nat.odd (count_char (code "'") text)); reflexivity.
    + rewrite Nb, Nd. fold (count_char (code "'") text).
      destruct inq; now rewrite IH by assumption.
Qed.

(** X9.  On a text without backslashes and double quotes,
    [swapSingleToDoubleQuotes] turns every single quote into a double quote
    and leaves every other character alone; when the number of single
    quotes is odd, the string left open is closed by one more double quote
    at the end. *)
Theorem X9_swap_on_plain_text (text : str) :
  ~ In bsl text -> ~ In dq text ->
  swapSingleToDoubleQuotes text
  = map swap_char text
    ++ (if Nat.odd (count_char (code "'") text) then [dq] else []).
Proof. intros Hb Hd. exact (swap_quotes_plain text false Hb Hd). Qed.

Lemma X9_swap_on_plain_text_witness :
  swapSingleToDoubleQuotes (raw "{'a': 'b}") = lit "{`a`: `b}`".
Proof.
  refine (eq_trans (X9_swap_on_plain_text (raw "{'a': 'b}") _ _) _).
  - vm_compute. intuition discriminate.
  - vm_compute. intuition discriminate.
  - reflexivity.
Defined.

Lemma swap_quotes_outside (text : str) :
  ~ In (code "'") text -> swap_quotes false text = text.
Proof.
  induction text as [|c text IH]; intro H; [reflexivity|].
  cbn [swap_quotes]. destruct (char_eqb c (code "'")) eqn:E.
  - apply char_eqb_eq in E. exfalso. apply H. now left.
  - rewrite IH; [reflexivity|]. intro K. apply H. now right.
Qed.

(** X10.  A text without single quotes is returned unchanged by
    [swapSingleToDoubleQuotes], whatever else it holds: the second attempt
    of [normalizeBody] then parses the very text the first attempt
    rejected. *)
Theorem X10_swap_without_single_quotes (text : str) :
  ~ In (code "'") text -> swapSingleToDoubleQuotes text = text.
Proof. exact (swap_quotes_outside text). Qed.

Lemma X10_swap_without_single_quotes_witness :
  swapSingleToDoubleQuotes (lit "{a: `x\`y`}") = lit "{a: `x\`y`}".
Proof.
  apply (X10_swap_without_single_quotes (lit "{a: `x\`y`}")).
  vm_compute. intuition discriminate.
Defined.

(* ------------------------------------------------------------------ *)
(** ** The order of the blocks and their context *)

Lemma StronglySorted_snoc (A : Type) (R : A -> A -> Prop) (l : list A) (b : A) :
  StronglySorted R l -> Forall (fun a => R a b) l -> StronglySorted R (l ++ [b]).
Proof.
  induction 1 as [|a l Hs IH Ha]; intro F; simpl.
  - constructor; constructor.
  - inversion F as [|? ? Rab F']; subst. constructor; [now apply IH|].
    apply Forall_app. split; [assumption|now constructor].
Qed.

Lemma order_inv_step (text p : str) (c : char) (x : cstate) :
  scan_inv text p x -> order_inv text p x ->
  order_inv text (p ++ [c]) (cstep text x c).
Proof.
  destruct x as [[s esc] i].
  intros (Hi & Hd & Hbs & _ & _ & _ & Hopen) (Hs & Hc & He).
  assert (Hlen : length (p ++ [c]) = length p + 1) by (rewrite length_app; simpl; lia).
  assert (He' : Forall (fun b => endIndex b < length (p ++ [c]) /\
                                 ((0 < depth s)%Z ->
                                  (Z.of_nat (endIndex b) < blockStart s)%Z)) (blocks s)).
  { eapply Forall_impl; [|exact He]. intros b [B1 B2]. split; [lia|assumption]. }
  unfold cstep. destruct esc; [now repeat split|].
  destruct (inString s).
  { destruct (char_eqb c bsl); [now repeat split|].
    destruct (str_eqb [c] (stringChar s)); now repeat split. }
  unfold scan_outside. destruct (is_quote c); [now repeat split|].
  destruct (char_eqb c (code "{")).
  { unfold order_inv. cbn [blocks depth blockStart]. split; [assumption|].
    split; [assumption|].
    eapply Forall_impl; [|exact He]. intros b [B1 B2]. split; [lia|].
    intros _. destruct (depth s =? 0)%Z eqn:D; [lia|].
    apply B2. apply Z.eqb_neq in D. lia. }
  destruct (char_eqb c (code "}")); [|now repeat split].
  unfold order_inv. cbn [blocks depth blockStart].
  destruct ((depth s - 1 =? 0)%Z && negb (blockStart s =? -1)%Z) eqn:C.
  - apply andb_true_iff in C. destruct C as [C _]. apply Z.eqb_eq in C.
    assert (P : (0 < depth s)%Z) by lia.
    destruct (Hopen P) as (B0 & B1 & _).
    split; [|split].
    + apply StronglySorted_snoc; [assumption|].
      eapply Forall_impl; [|exact He]. intros b [_ B2]. specialize (B2 P).
      unfold starts_after, mk_block. cbn [startIndex]. lia.
    + apply Forall_app. split; [assumption|]. constructor; [|constructor].
      unfold context_ok, mk_block. cbn [precedingText startIndex].
      f_equal. lia.
    + apply Forall_app. split.
      * eapply Forall_impl; [|exact He']. intros b [B2 _]. split; [assumption|].
        destruct (depth s - 1 <? 0)%Z; lia.
      * constructor; [|constructor]. unfold mk_block. cbn [endIndex]. split; [lia|].
        destruct (depth s - 1 <? 0)%Z; lia.
  - split; [assumption|]. split; [assumption|].
    eapply Forall_impl; [|exact He']. intros b [B1 B2]. split; [assumption|].
    intro P. apply B2. destruct (depth s - 1 <? 0)%Z eqn:D; [lia|].
    apply Z.ltb_ge in D. lia.
Qed.

Lemma order_inv_prefix (p : str) :
  forall rest, order_inv (p ++ rest) p (crun (p ++ rest) p (scan_init, false, 0)).
Proof.
  induction p as [|c p IH] using rev_ind; intro rest.
  - unfold crun, order_inv. simpl. repeat split; constructor.
  - rewrite crun_snoc. rewrite <- app_assoc. simpl.
    apply order_inv_step; [apply scan_inv_prefix|apply IH].
Qed.

(** X11.  The blocks [extractBalancedBlocks] returns are in the order of
    the text and do not overlap: each starts after the end of the one
    before.  The context kept with a block is the text right before it,
    300 characters of it or all there is. *)
Theorem X11_blocks_in_order_with_context (text : str) :
  StronglySorted (fun b1 b2 => endIndex b1 < startIndex b2)
                 (extractBalancedBlocks text) /\
  Forall (fun b => precedingText b
                   = substring text (startIndex b - 300) (startIndex b))
         (extractBalancedBlocks text).
Proof.
  unfold extractBalancedBlocks. rewrite scan_crun.
  pose proof (order_inv_prefix text []) as H. rewrite app_nil_r in H.
  destruct (crun text text (scan_init, false, 0)) as [[s esc] i].
  destruct H as (H1 & H2 & _). split; assumption.
Qed.

(* ------------------------------------------------------------------ *)
(** ** URLs *)

Lemma exec_matched (fl : flags) (r : regex) (text : str) (x : rmatch) :
  exec fl r text = Some x ->
  exists p q, matches fl r p q /\ snd p = matched text x ++ snd q.
Proof.
  intro H. apply exec_run in H.
  destruct H as (a & b & st' & Et & Es & R & Ee & _ & _).
  destruct (run_reads _ _ _ _ R) as [w Rw].
  exists (here (Build_cursor (before None a) b (length a) [])), (here st').
  split; [now apply run_matches|].
  unfold matched. rewrite Es, Ee.
  pose proof (reads_substring text a (Build_cursor (before None a) b (length a) [])
                (Build_cursor (before None a) b (length a) []) st' [] w Et eq_refl
                (reads_refl _) Rw) as S.
  cbn [pos] in S. rewrite S. destruct Rw as (Rw & _). exact Rw.
Qed.

Lemma before_snoc (pv : option char) (a : str) (c : char) :
  before pv (a ++ [c]) = Some c.
Proof. unfold before. now rewrite fold_left_app. Qed.

Lemma matches_star_intro (fl : flags) (items : list citem) (w : str) :
  Forall (fun c => in_class fl false items c = true) w ->
  forall pv, matches fl (Star (Chars false items)) (pv, w) (before pv w, []).
Proof.
  induction 1 as [|c w Hc Hw IH]; intro pv; [constructor|].
  apply (M_StarS fl _ _ (Some c, w)).
  - constructor. exact Hc.
  - simpl. lia.
  - apply IH.
Qed.

Lemma matches_trailing_intro (items : list citem) (pv : option char) (c : char) (w : str) :
  Forall (fun c => in_class no_flags false items c = true) (c :: w) ->
  exists q, matches no_flags (Plus (set items) ;; Eol) (pv, c :: w) q.
Proof.
  intro F. inversion F as [|? ? Hc Hw]; subst.
  exists (before (Some c) w, []).
  apply (M_Seq no_flags _ _ _ (before (Some c) w, [])); [|now constructor].
  apply (M_Seq no_flags _ _ _ (Some c, w)).
  - constructor. exact Hc.
  - now apply matches_star_intro.
Qed.

(** Cutting off a trailing run of characters of a class: what is removed
    is made of such characters, and what is left does not end with one. *)
Lemma replace_trailing (items : list citem) (s : str) :
  (exists w, s = replace no_flags (Plus (set items) ;; Eol) false [] s ++ w /\
             Forall (fun c => in_class no_flags false items c = true) w) /\
  (forall pre c, replace no_flags (Plus (set items) ;; Eol) false [] s = pre ++ [c] ->
                 in_class no_flags false items c = false).
Proof.
  destruct (exec no_flags (Plus (set items) ;; Eol) s) as [x|] eqn:E.
  - pose proof E as E'. apply exec_run in E'.
    destruct E' as (a & b & st' & Es & Est & R & Een & _ & Min).
    pose proof (run_matches _ _ _ _ R) as M. unfold here in M. cbn [prev rest] in M.
    destruct (run_reads _ _ _ _ R) as [w (Rw & Rp & _)]. cbn [rest pos] in Rw, Rp.
    inversion M as [| |? ? ? q1 ? M1 M2| | | | | | | | |]; subst.
    inversion M2 as [| | | | | | | | |? Eo| |]; subst.
    unfold eol_at in Eo. cbn [multiline no_flags andb] in Eo.
    cbn [snd] in Eo. destruct (rest st') as [|c0 r0] eqn:Rs; [|discriminate].
    rewrite !app_nil_r in *.
    apply matches_plus_class in M1. destruct M1 as (c & v & Ew & F).
    cbn [snd] in Ew. rewrite app_nil_r in Ew.
    assert (Res : replace no_flags (Plus (set items) ;; Eol) false [] (a ++ w) = a).
    { unfold replace. cbn [replace_loop].
      change (exec_from no_flags (Plus (set items) ;; Eol) (a ++ w) 0)
        with (exec no_flags (Plus (set items) ;; Eol) (a ++ w)).
      rewrite E, Est, Een, Rp. unfold substring.
      replace (skipn (length a + length w) (a ++ w)) with (@nil char)
        by (symmetry; apply skipn_all2; rewrite length_app; lia).
      cbn [skipn app]. rewrite Nat.sub_0_r, firstn_app, firstn_all, Nat.sub_diag.
      cbn [firstn]. now rewrite !app_nil_r. }
    rewrite Res. split.
    + exists w. split; [reflexivity|]. rewrite Ew. exact F.
    + intros pre c1 Ea.
      destruct (in_class no_flags false items c1) eqn:C; [exfalso|reflexivity].
      destruct (matches_trailing_intro items (before None pre) c1 w) as [q Mq].
      { constructor; [exact C|]. rewrite Ew. exact F. }
      apply (Min pre (c1 :: w) q).
      * rewrite Ea, <- app_assoc. reflexivity.
      * rewrite Ea, length_app. simpl. lia.
      * exact Mq.
  - rewrite (replace_no_match _ _ false [] s E). split.
    + exists []. split; [now rewrite app_nil_r|constructor].
    + intros pre c Es.
      destruct (in_class no_flags false items c) eqn:C; [exfalso|reflexivity].
      assert (T : test no_flags (Plus (set items) ;; Eol) s = true).
      { apply test_spec. destruct (matches_trailing_intro items (before None pre) c []) as [q Mq].
        - constructor; [exact C|constructor].
        - exists pre, [c], q. split; assumption. }
      unfold test in T. now rewrite E in T.
Qed.

Lemma upper_char_cases (c u : char) :
  upper_char c = u -> c = u \/ c = (u + 32)%N.
Proof.
  unfold upper_char. destruct (is_lower c) eqn:Lw; [|now left].
  unfold is_lower, between in Lw. apply andb_true_iff in Lw.
  destruct Lw as [U1 U2]. apply N.leb_le in U1, U2. intro H. right. lia.
Qed.

Lemma scheme_char_kept (c : char) :
  In (upper_char c) (raw "HTTPS:") ->
  in_class no_flags false (trail_items ++ [ch "/"]) c = false /\
  in_class no_flags false trail_items c = false.
Proof.
  intro H. change (raw "HTTPS:") with [72; 84; 84; 80; 83; 58]%N in H.
  cbn [In] in H.
  repeat (destruct H as [H|H];
          [symmetry in H; apply upper_char_cases in H;
           destruct H as [->| ->]; split; reflexivity|]).
  contradiction.
Qed.

Lemma map_eq_In (f : char -> char) (h l : str) :
  map f h = l -> Forall (fun c => In (f c) l) h.
Proof.
  intros <-. apply Forall_forall. intros c Hc. now apply in_map.
Qed.

Lemma scheme_chars (h : str) :
  http_scheme h -> Forall (fun c => In (upper_char c) (raw "HTTPS:")) h.
Proof.
  intros [H|H]; apply map_eq_In in H; (eapply Forall_impl; [|exact H]);
    intros c Hc; cbn in Hc |- *; tauto.
Qed.

Lemma keep_prefix (P : char -> Prop) (h : str) :
  forall r w t, r ++ w = h ++ t -> Forall P w -> Forall (fun c => ~ P c) h ->
                exists t', r = h ++ t'.
Proof.
  induction h as [|c h IH]; intros r w t E Fw Fh; [now exists r|].
  inversion Fh as [|? ? Hc Fh']; subst.
  destruct r as [|x r].
  - simpl in E. subst w. inversion Fw; subst. contradiction.
  - simpl in E. injection E as -> E. destruct (IH r w t E Fw Fh') as [t' ->].
    now exists t'.
Qed.

Lemma strip_keeps (items : list citem) (g h t : str) :
  g = h ++ t ->
  Forall (fun c => in_class no_flags false items c = false) h ->
  exists t', replace no_flags (Plus (set items) ;; Eol) false [] g = h ++ t'.
Proof.
  intros E F. destruct (replace_trailing items g) as [(w & Ew & Fw) _].
  apply (keep_prefix (fun c => in_class no_flags false items c = true) h _ w t).
  - now rewrite <- Ew.
  - exact Fw.
  - eapply Forall_impl; [|exact F]. intros c Hc. cbv beta. rewrite Hc. discriminate.
Qed.

Lemma matches_http_plus (fl : flags) (neg : bool) (items : list citem)
      (p q : place) (g : str) :
  matches fl (re_http ;; Plus (Chars neg items)) p q -> snd p = g ++ snd q ->
  exists h t, g = h ++ t /\ http_scheme h.
Proof.
  intros M E. unfold re_http, Str in M.
  inversion M as [| |? ? ? q1 ? M1 M2| | | | | | | | |]; subst.
  inversion M1 as [| |? ? ? q2 ? M3 M4| | | | | | | | |]; subst.
  inversion M4 as [| |? ? ? q3 ? M5 M6| | | | | | | | |]; subst.
  apply (matches_chars_re fl (String.list_ascii_of_string "http")) in M3.
  destruct M3 as (w1 & E1 & U1).
  apply (matches_chars_re fl (String.list_ascii_of_string "://")) in M6.
  destruct M6 as (w3 & E3 & U3).
  apply matches_plus_class in M2. destruct M2 as (c & w & E2 & _).
  assert (S : exists s, snd q2 = s ++ snd q3 /\
                        (toUpperCase s = [] \/ toUpperCase s = raw "S")).
  { unfold Opt, L in M5.
    inversion M5 as [| | |? ? ? ? Ma|? ? ? ? Mb| | | | | | |]; subst.
    - apply matches_class in Ma. destruct Ma as (x & Ex & Cx).
      exists [x]. split; [exact Ex|]. right.
      unfold in_class in Cx. cbn [xorb] in Cx. apply class_lit_upper in Cx.
      unfold toUpperCase. cbn [map]. rewrite Cx. reflexivity.
    - inversion Mb; subst. exists []. split; [reflexivity|now left]. }
  destruct S as (s & Es & Us).
  destruct w3 as [|x [|y [|z [|? ?]]]]; try discriminate U3.
  injection U3 as Ux _ _.
  rewrite E1, Es, E3, E2 in E.
  exists (w1 ++ s ++ [x]), ([y; z] ++ c :: w). split.
  - apply (app_inv_tail (snd q)). rewrite <- E. now rewrite <- !app_assoc.
  - unfold http_scheme, toUpperCase. rewrite !map_app.
    fold (toUpperCase w1). fold (toUpperCase s). rewrite U1. cbn [map]. rewrite Ux.
    destruct Us as [-> | ->]; [left|right]; reflexivity.
Qed.

Lemma class_trailing (c : char) :
  in_class no_flags false trail_items c = false -> ~ In c TRAILING.
Proof.
  intros H I. change TRAILING with [44; 59; 39; 34; 41; 93; 125; 62]%N in I.
  cbn [In] in I.
  repeat (destruct I as [I|I]; [subst c; vm_compute in H; discriminate|]).
  exact I.
Qed.

Lemma class_trailing_slash (c : char) :
  in_class no_flags false (trail_items ++ [ch "/"]) c = false -> ~ In c TRAILING.
Proof.
  intros H I. change TRAILING with [44; 59; 39; 34; 41; 93; 125; 62]%N in I.
  cbn [In] in I.
  repeat (destruct I as [I|I]; [subst c; vm_compute in H; discriminate|]).
  exact I.
Qed.

(** X12.  Whatever [extractUrl] returns starts with [http:] or [https:],
    in upper or lower case: each of its four strategies yields an absolute
    HTTP URL, also after the trailing punctuation has been cut off. *)
Theorem X12_url_has_http_scheme (text u : str) :
  extractUrl text = Some u -> exists h t, u = h ++ t /\ http_scheme h.
Proof.
  unfold extractUrl.
  destruct (exec flag_i re_labeled text) as [lm|] eqn:E0.
  { intros [= <-].
    destruct (exec_group flag_i re_labeled (re_http ;; Plus nsp) text lm E0 eq_refl)
      as (p & q & M & Es).
    destruct (matches_http_plus _ _ _ _ _ _ M Es) as (h & t & Eg & Hh).
    destruct (strip_keeps trail_items _ h t Eg) as [t' Et'].
    - eapply Forall_impl; [|exact (scheme_chars h Hh)].
      intros c Hc. now apply scheme_char_kept.
    - exists h, t'. split; [exact Et'|exact Hh]. }
  destruct (exec flag_i re_base text) as [bm|] eqn:E1.
  { intros [= <-].
    destruct (exec_group flag_i re_base (re_http ;; Plus nsp) text bm E1 eq_refl)
      as (p & q & M & Es).
    destruct (matches_http_plus _ _ _ _ _ _ M Es) as (h & t & Eg & Hh).
    destruct (strip_keeps (trail_items ++ [ch "/"]) _ h t Eg) as [t' Et'].
    - eapply Forall_impl; [|exact (scheme_chars h Hh)].
      intros c Hc. now apply scheme_char_kept.
    - change re_trail_slash with (Plus (set (trail_items ++ [ch "/"])) ;; Eol).
      rewrite Et'. eexists h, _. split; [|exact Hh]. now rewrite <- app_assoc. }
  destruct (exec no_flags re_full text) as [fm|] eqn:E2.
  { intros [= <-].
    destruct (exec_matched no_flags re_full text fm E2) as (p & q & M & Es).
    destruct (matches_http_plus _ _ _ _ _ _ M Es) as (h & t & Eg & Hh).
    destruct (strip_keeps trail_items _ h t Eg) as [t' Et'].
    - eapply Forall_impl; [|exact (scheme_chars h Hh)].
      intros c Hc. now apply scheme_char_kept.
    - exists h, t'. split; [exact Et'|exact Hh]. }
  destruct (exec flag_i re_request_line text) as [pm|];
    destruct (exec flag_i re_host text) as [hm|]; try discriminate.
  - intros [= <-]. destruct (test no_flags re_port80 (grp text 1 hm)).
    + exists (raw "http:"), (raw "//" ++ grp text 1 hm ++ grp text 1 pm).
      split; [reflexivity|now left].
    + exists (raw "https:"), (raw "//" ++ grp text 1 hm ++ grp text 1 pm).
      split; [reflexivity|now right].
  - intros [= <-]. exists (raw "https:"), (raw "//" ++ grp text 1 hm).
    split; [reflexivity|now right].
Qed.

Lemma X12_url_has_http_scheme_witness :
  exists h t, lit "HTTPS://Api.x.io/v1" = h ++ t /\ http_scheme h.
Proof.
  apply (X12_url_has_http_scheme (lit "Endpoint : HTTPS://Api.x.io/v1`);")
                                 (lit "HTTPS://Api.x.io/v1")).
  vm_compute. reflexivity.
Defined.

(** X13.  When the text holds a labelled URL, a base URL or a raw URL
    (the first three strategies), the URL returned does not end with any
    of [, ; ' ` ) ] } >] (the backtick for the double quote), however many
    of them follow the URL in the text. *)
Theorem X13_url_without_trailing_punctuation (text u pre : str) (c : char) :
  test flag_i re_labeled text = true \/ test flag_i re_base text = true \/
  test no_flags re_full text = true ->
  extractUrl text = Some u -> u = pre ++ [c] -> ~ In c TRAILING.
Proof.
  unfold extractUrl, test. intro T.
  destruct (exec flag_i re_labeled text) as [lm|].
  { intros [= <-] E. apply class_trailing.
    exact (proj2 (replace_trailing trail_items _) pre c E). }
  destruct (exec flag_i re_base text) as [bm|].
  { intros [= <-].
    change re_trail_slash with (Plus (set (trail_items ++ [ch "/"])) ;; Eol).
    change re_trail with (Plus (set trail_items) ;; Eol).
    destruct (exec flag_i re_path_label text) as [pm|].
    - destruct (replace no_flags (Plus (set trail_items) ;; Eol) false [] (grp text 1 pm))
        as [|x path] eqn:P using rev_ind.
      + rewrite app_nil_r. intro E. apply class_trailing_slash.
        exact (proj2 (replace_trailing (trail_items ++ [ch "/"]) _) pre c E).
      + clear IHpath. rewrite app_assoc. intro E. apply app_inj_tail in E.
        destruct E as [_ ->]. apply class_trailing.
        exact (proj2 (replace_trailing trail_items _) path c P).
    - rewrite app_nil_r. intro E. apply class_trailing_slash.
      exact (proj2 (replace_trailing (trail_items ++ [ch "/"]) _) pre c E). }
  destruct (exec no_flags re_full text) as [fm|].
  { intros [= <-] E. apply class_trailing.
    exact (proj2 (replace_trailing trail_items _) pre c E). }
  destruct T as [T|[T|T]]; discriminate.
Qed.

Lemma X13_url_without_trailing_punctuation_witness :
  extractUrl (lit "POST (https://api.x.io/v1/users?a=[1]),`") =
    Some (raw "https://api.x.io/v1/users?a=[1") /\
  ~ In (code "1") TRAILING.
Proof.
  split; [vm_compute; reflexivity|].
  apply (X13_url_without_trailing_punctuation
           (lit "POST (https://api.x.io/v1/users?a=[1]),`")
           (raw "https://api.x.io/v1/users?a=[1") (raw "https://api.x.io/v1/users?a=[") (code "1")).
  - right. right. vm_compute. reflexivity.
  - vm_compute. reflexivity.
  - reflexivity.
Defined.

(* ------------------------------------------------------------------ *)
(** ** The recursive-descent parser *)

Lemma only_empty_sound (fl : flags) (r : regex) (p q : place) :
  matches fl r p q ->
  forall c tl, snd p = c :: tl -> only_empty fl r c = true -> q = p.
Proof.
  induction 1 as [p|neg items pv c0 tl0 Hc|r1 r2 p q t _ IH1 _ IH2
                  |r1 r2 p q _ IH1|r1 r2 p q _ IH1|r p
                  |r p q t _ IH1 Hl _ IH2|i r p q _ IH1
                  |p B|p E|p W|r p q _ _]; intros c tl Ep O; cbn [only_empty] in O;
    try reflexivity.
  - simpl in Ep. injection Ep as -> _. rewrite Hc in O. discriminate.
  - apply andb_true_iff in O. destruct O as [O1 O2].
    specialize (IH1 c tl Ep O1). subst q. exact (IH2 c tl Ep O2).
  - apply andb_true_iff in O. destruct O as [O1 _]. exact (IH1 c tl Ep O1).
  - apply andb_true_iff in O. destruct O as [_ O2]. exact (IH1 c tl Ep O2).
  - specialize (IH1 c tl Ep O). subst q. lia.
  - exact (IH1 c tl Ep O).
Qed.

Lemma rejects_sound (fl : flags) (r : regex) (p q : place) :
  matches fl r p q ->
  forall c tl, snd p = c :: tl -> rejects fl r c = true -> False.
Proof.
  induction 1 as [p|neg items pv c0 tl0 Hc|r1 r2 p q t M1 IH1 _ IH2
                  |r1 r2 p q _ IH1|r1 r2 p q _ IH1|r p
                  |r p q t _ IH1 Hl _ IH2|i r p q _ IH1
                  |p B|p E|p W|r p q _ _]; intros c tl Ep O; cbn [rejects] in O;
    try discriminate.
  - simpl in Ep. injection Ep as -> _. rewrite Hc in O. discriminate.
  - apply orb_true_iff in O. destruct O as [O|O]; [exact (IH1 c tl Ep O)|].
    apply andb_true_iff in O. destruct O as [O1 O2].
    pose proof (only_empty_sound fl r1 p q M1 c tl Ep O1) as ->.
    exact (IH2 c tl Ep O2).
  - apply andb_true_iff in O. destruct O as [O1 _]. exact (IH1 c tl Ep O1).
  - apply andb_true_iff in O. destruct O as [_ O2]. exact (IH1 c tl Ep O2).
  - exact (IH1 c tl Ep O).
Qed.

(** A pattern anchored at the start does not match a text whose first
    character it rejects. *)
Lemma exec_bol_rejects (fl : flags) (r : regex) (c : char) (tl : str) :
  multiline fl = false -> rejects fl r c = true ->
  exec fl (Seq Bol r) (c :: tl) = None.
Proof.
  intros Hm Hr. destruct (exec fl (Seq Bol r) (c :: tl)) as [x|] eqn:E; [exfalso|reflexivity].
  apply exec_run in E. destruct E as (a & b & st' & Es & _ & R & _).
  pose proof (run_bol_prev fl r _ _ Hm R) as P. cbn [prev] in P.
  apply before_none in P. subst a. simpl in Es. subst b.
  apply run_matches in R. unfold here in R. cbn [prev rest] in R.
  inversion R as [| |? ? ? q1 ? M1 M2| | | | | | | | |]; subst.
  inversion M1; subst.
  exact (rejects_sound fl r _ _ M2 c tl eq_refl Hr).
Qed.

Lemma test_bol_rejects (fl : flags) (r : regex) (c : char) (tl : str) :
  multiline fl = false -> rejects fl r c = true ->
  test fl (Seq Bol r) (c :: tl) = false.
Proof. intros Hm Hr. unfold test. now rewrite exec_bol_rejects. Qed.

Lemma peek_skipn (text : str) (pos : nat) (c : char) (tl : str) :
  skipn pos text = c :: tl -> peek text pos = Some c.
Proof.
  unfold peek. revert text. induction pos as [|n IH]; intros [|x text] H;
    try discriminate; simpl in *.
  - now injection H as ->.
  - now apply IH.
Qed.

Lemma at_char_skipn (text : str) (pos : nat) (c x : char) (tl : str) :
  skipn pos text = c :: tl -> at_char text pos x = char_eqb c x.
Proof. intro H. unfold at_char. now rewrite (peek_skipn text pos c tl H). Qed.

Lemma eof_skipn (text : str) (pos : nat) (c : char) (tl : str) :
  skipn pos text = c :: tl -> eof text pos = false.
Proof.
  intro H. unfold eof. apply Nat.leb_gt.
  destruct (Nat.le_gt_cases (length text) pos) as [L|L]; [|exact L].
  rewrite skipn_all2 in H by exact L. discriminate.
Qed.

Lemma skipWhitespace_stay (text : str) (pos : nat) (c : char) (tl : str) :
  skipn pos text = c :: tl -> is_space c = false -> skipWhitespace text pos = pos.
Proof.
  intros H S. unfold skipWhitespace. rewrite H. cbn [ws_len]. rewrite S. lia.
Qed.

Lemma skipn_plus (text : str) (pos n : nat) (w rest : str) :
  skipn pos text = w ++ rest -> length w = n -> skipn (pos + n) text = rest.
Proof.
  intros H L. rewrite Nat.add_comm, <- skipn_skipn, H. subst n.
  rewrite skipn_app, Nat.sub_diag, skipn_all. reflexivity.
Qed.

Lemma skipWhitespace_over (text : str) (pos : nat) (ws : str) (c : char) (tl : str) :
  skipn pos text = ws ++ c :: tl -> Forall (fun x => is_space x = true) ws ->
  is_space c = false -> skipWhitespace text pos = pos + length ws.
Proof.
  intros H F S. unfold skipWhitespace. rewrite H. f_equal. clear H.
  induction F as [|x ws Hx _ IH]; cbn [ws_len app length].
  - now rewrite S.
  - now rewrite Hx, IH.
Qed.

(** In front of a closing brace [parseUnquotedValue] reads nothing and
    returns [null]. *)
Lemma parseUnquotedValue_at_brace (text : str) (pos : nat) (tl : str) :
  skipn pos text = code "}" :: tl ->
  parseUnquotedValue text pos = Returns (raw "null") pos.
Proof.
  intro H. unfold parseUnquotedValue.
  rewrite (skipWhitespace_stay text pos _ tl H eq_refl). rewrite H.
  unfold re_word, re_number.
  rewrite !test_bol_rejects by reflexivity. cbn [orb].
  rewrite exec_bol_rejects by reflexivity.
  cbn [unquoted_len]. change (char_eqb (code "}") (code ",")) with false.
  change (char_eqb (code "}") (code "}")) with true. cbn [orb].
  rewrite Nat.add_0_r. unfold substring. rewrite Nat.sub_diag. reflexivity.
Qed.

(** Once the array loop stands in front of a closing brace, it stays
    there: every turn adds a [null] and reads nothing. *)
Lemma array_loop_stuck (text : str) (pos : nat) (tl : str) :
  skipn pos text = code "}" :: tl ->
  forall fuel elements, array_loop text fuel elements pos = Running.
Proof.
  intros H fuel. induction fuel as [|fuel IH]; intro elements; [reflexivity|].
  cbn [array_loop].
  rewrite (at_char_skipn text pos _ (code "]") tl H), (eof_skipn text pos _ tl H).
  change (char_eqb (code "}") (code "]")) with false. cbn [negb andb].
  assert (S : (if 0 <? length elements then separator text pos (code "]") else (pos, false))
              = (pos, false)).
  { destruct (0 <? length elements); [|reflexivity]. unfold separator.
    rewrite (at_char_skipn text pos _ (code ",") tl H).
    change (char_eqb (code "}") (code ",")) with false. cbv iota.
    rewrite (skipWhitespace_stay text pos _ tl H eq_refl).
    rewrite (at_char_skipn text pos _ (code "]") tl H). reflexivity. }
  rewrite S.
  destruct fuel as [|fuel']; [reflexivity|].
  cbn [parseValue]. rewrite (skipWhitespace_stay text pos _ tl H eq_refl).
  rewrite !(at_char_skipn text pos _ _ tl H).
  change (char_eqb (code "}") (code "{")) with false.
  change (char_eqb (code "}") (code "[")) with false.
  change (char_eqb (code "}") dq) with false.
  change (char_eqb (code "}") (code "'")) with false.
  rewrite (parseUnquotedValue_at_brace text pos tl H).
  rewrite (skipWhitespace_stay text pos _ tl H eq_refl). apply IH.
Qed.



(* ------------------------------------------------------------------ *)
(** *** Termination where no array is met *)

Lemma settles_le (o : outcome str) (pos pos' : nat) :
  settles o pos' -> pos <= pos' -> settles o pos.
Proof. destruct o; simpl; intros; try assumption. lia. Qed.

Lemma skipWhitespace_le (text : str) (pos : nat) : pos <= skipWhitespace text pos.
Proof. unfold skipWhitespace. lia. Qed.

Lemma at_char_lt (text : str) (pos : nat) (c : char) :
  at_char text pos c = true -> pos < length text /\ nth_error text pos = Some c.
Proof.
  unfold at_char, peek. destruct (nth_error text pos) as [x|] eqn:E; [|discriminate].
  intro H. apply char_eqb_eq in H. subst x. split; [|reflexivity].
  apply nth_error_Some. congruence.
Qed.

Lemma parseDoubleQuotedString_settles (text : str) (pos : nat) :
  settles (parseDoubleQuotedString text pos) (pos + 1).
Proof.
  unfold parseDoubleQuotedString, expect. destruct (at_char text pos dq); [|exact I].
  destruct (dq_loop (skipn (pos + 1) text)) as [content n]. simpl.
  destruct (eof text (pos + 1 + n)); lia.
Qed.

Lemma parseSingleQuotedString_settles (text : str) (pos : nat) :
  settles (parseSingleQuotedString text pos) (pos + 1).
Proof.
  unfold parseSingleQuotedString, expect.
  destruct (at_char text pos (code "'")); [|exact I].
  destruct (sq_loop (skipn (pos + 1) text)) as [content n]. simpl.
  destruct (eof text (pos + 1 + n)); lia.
Qed.

Lemma parseKey_settles (text : str) (pos : nat) :
  settles (parseKey text pos) (pos + 1).
Proof.
  unfold parseKey. pose proof (skipWhitespace_le text pos) as L.
  set (p := skipWhitespace text pos) in *.
  destruct (at_char text p dq).
  { apply (settles_le _ _ (p + 1)); [apply parseDoubleQuotedString_settles|lia]. }
  destruct (at_char text p (code "'")).
  { apply (settles_le _ _ (p + 1)); [apply parseSingleQuotedString_settles|lia]. }
  unfold truthy, substring.
  destruct (length (firstn (p + key_len (skipn p text) - p) (skipn p text)) =? 0) eqn:E;
    [exact I|].
  apply Nat.eqb_neq in E. simpl.
  destruct (key_len (skipn p text)); [|lia].
  rewrite Nat.add_0_r, Nat.sub_diag in E. simpl in E. lia.
Qed.

Lemma parseUnquotedValue_settles (text : str) (pos : nat) :
  settles (parseUnquotedValue text pos) pos.
Proof.
  unfold parseUnquotedValue, keyword. pose proof (skipWhitespace_le text pos) as L.
  set (p := skipWhitespace text pos) in *.
  repeat match goal with
         | |- settles (if ?b then _ else _) _ => destruct b
         | |- settles (match ?e with Some _ => _ | None => _ end) _ => destruct e
         end; simpl; try exact I; lia.
Qed.

Lemma finish_settles (text : str) (pos : nat) (close : char) (result : str) :
  settles (finish text pos close result) pos.
Proof.
  unfold finish, expect. destruct (eof text pos); [simpl; lia|].
  destruct (at_char text pos close); simpl; [lia|exact I].
Qed.

Lemma separator_le (text : str) (pos : nat) (close : char) :
  pos <= fst (separator text pos close).
Proof.
  unfold separator. cbn [fst].
  destruct (at_char text pos (code ","));
    [pose proof (skipWhitespace_le text (pos + 1))|pose proof (skipWhitespace_le text pos)];
    lia.
Qed.

(** Without an opening bracket in the text, [parseValue], [parseObject]
    and the object loop come to an end within three units of fuel per
    character left. *)
Lemma object_parser_settles (text : str) :
  ~ In (code "[") text ->
  forall fuel,
    (forall pos, 3 * (length text - pos) + 2 <= fuel ->
                 settles (parseValue text fuel pos) pos) /\
    (forall pos, 3 * (length text - pos) + 1 <= fuel ->
                 settles (parseObject text fuel pos) pos) /\
    (forall entries pos, 3 * (length text - pos) + 1 <= fuel ->
                         settles (object_loop text fuel entries pos) pos).
Proof.
  intros Hno fuel. induction fuel as [|fuel (IHv & IHo & IHl)].
  { repeat split; intros; lia. }
  split; [|split].
  - (* parseValue *)
    intros pos B. cbn [parseValue]. pose proof (skipWhitespace_le text pos) as L.
    set (p := skipWhitespace text pos) in *.
    destruct (at_char text p (code "{")).
    { apply (settles_le _ _ p); [apply IHo; lia|exact L]. }
    destruct (at_char text p (code "[")) eqn:A.
    { exfalso. apply at_char_lt in A. destruct A as [_ A].
      apply Hno. eapply nth_error_In. exact A. }
    destruct (at_char text p dq).
    { apply (settles_le _ _ (p + 1)); [apply parseDoubleQuotedString_settles|lia]. }
    destruct (at_char text p (code "'")).
    { apply (settles_le _ _ (p + 1)); [apply parseSingleQuotedString_settles|lia]. }
    apply (settles_le _ _ p); [apply parseUnquotedValue_settles|exact L].
  - (* parseObject *)
    intros pos B. cbn [parseObject]. unfold expect.
    destruct (at_char text pos (code "{")) eqn:A; [|exact I].
    apply at_char_lt in A. destruct A as [A _].
    pose proof (skipWhitespace_le text (pos + 1)) as L.
    apply (settles_le _ _ (skipWhitespace text (pos + 1))); [apply IHl; lia|lia].
  - (* the object loop *)
    intros entries pos B. cbn [object_loop].
    destruct (negb (at_char text pos (code "}")) && negb (eof text pos)) eqn:C;
      [|apply finish_settles].
    apply andb_true_iff in C. destruct C as [_ C]. apply negb_true_iff in C.
    unfold eof in C. apply Nat.leb_gt in C.
    assert (S : exists p0 brk,
               (if 0 <? length entries then separator text pos (code "}")
                else (pos, false)) = (p0, brk) /\ pos <= p0).
    { destruct (0 <? length entries).
      - pose proof (separator_le text pos (code "}")) as Ls.
        destruct (separator text pos (code "}")) as [p0 brk]. now exists p0, brk.
      - now exists pos, false. }
    destruct S as (p0 & brk & -> & L0).
    destruct brk; [apply (settles_le _ _ p0); [apply finish_settles|exact L0]|].
    pose proof (parseKey_settles text p0) as K.
    destruct (parseKey text p0) as [key p1| |]; simpl in K; [|exact I|contradiction].
    pose proof (skipWhitespace_le text p1) as L1. unfold expect.
    destruct (at_char text (skipWhitespace text p1) (code ":")) eqn:A; [|exact I].
    apply at_char_lt in A. destruct A as [A _].
    pose proof (skipWhitespace_le text (skipWhitespace text p1 + 1)) as L3.
    set (p3 := skipWhitespace text (skipWhitespace text p1 + 1)) in *.
    assert (V : settles (if at_char text p3 (code ",") || at_char text p3 (code "}")
                         then Returns (raw "null") p3 else parseValue text fuel p3) p3).
    { destruct (at_char text p3 (code ",") || at_char text p3 (code "}"));
        [simpl; lia|apply IHv; lia]. }
    destruct (if at_char text p3 (code ",") || at_char text p3 (code "}")
              then Returns (raw "null") p3 else parseValue text fuel p3)
      as [v p4| |]; simpl in V; [|exact I|contradiction].
    pose proof (skipWhitespace_le text p4) as L4.
    apply (settles_le _ _ (skipWhitespace text p4)); [apply IHl; lia|lia].
Qed.

Lemma join_In (c : char) (ls : list str) :
  In c (join [nl] ls) -> c = nl \/ exists l, In l ls /\ In c l.
Proof.
  induction ls as [|l ls IH]; [intros []|].
  destruct ls as [|l2 ls'].
  - simpl. intro H. right. exists l. split; [now left|exact H].
  - change (join [nl] (l :: l2 :: ls')) with (l ++ [nl] ++ join [nl] (l2 :: ls')).
    intro H. apply in_app_or in H. destruct H as [H|H].
    + right. exists l. split; [now left|exact H].
    + apply in_app_or in H. destruct H as [[H|[]]|H]; [now left|].
      destruct (IH H) as [E|(l' & I1 & I2)]; [now left|].
      right. exists l'. split; [now right|exact I2].
Qed.

Lemma split_In (c : char) (s : str) (l : str) :
  In l (split nl s) -> In c l -> In c s.
Proof.
  revert l. induction s as [|x s IH]; intros l Hl Hc; simpl in Hl.
  - destruct Hl as [<-|[]]. exact Hc.
  - destruct (char_eqb x nl).
    + destruct Hl as [<-|Hl]; [destruct Hc|]. right. exact (IH l Hl Hc).
    + destruct (split nl s) as [|p ps] eqn:E.
      * destruct Hl as [<-|[]]. destruct Hc as [<-|[]]. now left.
      * destruct Hl as [<-|Hl].
        -- destruct Hc as [<-|Hc]; [now left|]. right. apply (IH p); [now left|exact Hc].
        -- right. apply (IH l); [now right|exact Hc].
Qed.

Lemma parser_text_In (c : char) (text : str) :
  c <> nl -> In c (parser_text text) -> In c text.
Proof.
  intros N H. unfold parser_text in H. apply join_In in H.
  destruct H as [H|(l & Hl & Hc)]; [contradiction|].
  apply filter_In in Hl. destruct Hl as [Hl _]. exact (split_In c text l Hl Hc).
Qed.

(** X15.  On a text without an opening bracket the parser always comes to
    an end: given three units of fuel per character of the text it keeps
    (and two more), [new LogBodyParser(text).parse()] returns or throws. *)
Theorem X15_parser_ends_without_brackets (text : str) (fuel : nat) :
  ~ In (code "[") text ->
  3 * length (parser_text text) + 2 <= fuel ->
  LogBodyParser_parse text fuel <> Running.
Proof.
  intros Hno B. unfold LogBodyParser_parse, parse.
  assert (Hno' : ~ In (code "[") (parser_text text)).
  { intro H. apply Hno. apply parser_text_In; [discriminate|exact H]. }
  destruct (object_parser_settles (parser_text text) Hno' fuel) as (V & _).
  specialize (V (skipWhitespace (parser_text text) 0) ltac:(lia)).
  intro E. rewrite E in V. exact V.
Qed.

Lemma X15_parser_ends_without_brackets_witness :
  LogBodyParser_parse (lit "{a: 1, b: {c: x y|# note|d: 'q'}, e: }") 97 <> Running.
Proof.
  apply (X15_parser_ends_without_brackets
           (lit "{a: 1, b: {c: x y|# note|d: 'q'}, e: }") 97).
  - vm_compute. intuition discriminate.
  - vm_compute. repeat constructor.
Defined.
